(** * C Pixel Art Editor: palette, canvas and bitmap import/export

    A shallow embedding of [C_Pixel_Art_Editor.c].  The program keeps its
    data in file-level globals ([canvas], [palette], [current_color], the
    grid dimensions and the cell size); here they are the fields of a
    record that every operation takes and returns.  C [int] values are
    integers of [Z] (signed overflow is undefined in C and none of the
    computations below reaches it for in-range inputs); the stores into
    [uint8_t] and [uint32_t] objects have their truncation written out;
    [int] division is [Z.quot], which truncates toward zero as C does.
    The two drawing functions only read the globals and are left out. *)

From Stdlib Require Import ZArith Lia Bool Ascii String.
From Stdlib Require Import Floats.SpecFloat.
From Stdlib Require Import Reals Lra.
From stdpp Require Import base list strings gmap.

Open Scope Z_scope.

(** ** Machine integers *)

Definition wrap8 (x : Z) : Z := x mod 256.
Definition wrap32 (x : Z) : Z := x mod 4294967296.
Definition INT32_MAX : Z := 2147483647.
Definition INT32_MIN : Z := -2147483648.

(** ** Counted loops

    [for (int i = lo; i < hi; i++) body] over a state of type [St]. *)

Fixpoint for_loop {St : Type} (n : nat) (i : Z) (body : Z → St → St) (s : St) : St :=
  match n with
  | O => s
  | S n' => for_loop n' (i + 1) body (body i s)
  end.

Definition for_range {St : Type} (lo hi : Z) (body : Z → St → St) (s : St) : St :=
  for_loop (Z.to_nat (hi - lo)) lo body s.

(** The nested loops of the export and of the import:
    [for (y = 0; y < h; y++) for (x = 0; x < w; x++) body]. *)
Definition fill_rows {St : Type} (body : Z → Z → St → St) (w h : Z) (s : St) : St :=
  for_range 0 h (λ y s1, for_range 0 w (λ x s2, body y x s2) s1) s.

(** ** Colors and the palette *)

(** [SDL_Color]: four [Uint8] channels. *)
Record SDL_Color : Type := mkColor { r : Z; g : Z; b : Z; a : Z }.

Global Instance SDL_Color_inhabited : Inhabited SDL_Color :=
  populate (mkColor 0 0 0 0).

Global Instance SDL_Color_eq_dec : EqDecision SDL_Color.
Proof. solve_decision. Defined.

Definition uint8_ok (x : Z) : Prop := 0 ≤ x < 256.

Definition color_ok (c : SDL_Color) : Prop :=
  uint8_ok (r c) ∧ uint8_ok (g c) ∧ uint8_ok (b c) ∧ uint8_ok (a c).

Definition PALETTE_COUNT : Z := 12.

(** [palette[i]]: the array has [PALETTE_COUNT] entries; a read outside
    of it is undefined in C and reads the default color here. *)
Definition palette_at (palette : list SDL_Color) (i : Z) : SDL_Color :=
  if decide (0 ≤ i) then palette !!! Z.to_nat i else inhabitant.

Definition palette_ok (palette : list SDL_Color) : Prop :=
  length palette = Z.to_nat PALETTE_COUNT ∧ Forall color_ok palette.

(** [init_default_palette] *)
Definition init_default_palette : list SDL_Color :=
  [ mkColor 255 255 255 255   (* 0 - white (background) *)
  ; mkColor 0 0 0 255         (* 1 - black *)
  ; mkColor 255 0 0 255       (* 2 - red *)
  ; mkColor 0 255 0 255       (* 3 - lime *)
  ; mkColor 0 0 255 255       (* 4 - blue *)
  ; mkColor 255 255 0 255     (* 5 - yellow *)
  ; mkColor 255 165 0 255     (* 6 - orange *)
  ; mkColor 128 0 128 255     (* 7 - purple *)
  ; mkColor 0 255 255 255     (* 8 - cyan *)
  ; mkColor 255 192 203 255   (* 9 - pink *)
  ; mkColor 128 128 128 255   (* 10 - gray *)
  ; mkColor 139 69 19 255     (* 11 - brown *)
  ].

(** ** [nearest_palette_index] *)

(** One iteration of the loop body; the loop state is [(best, bestd)]. *)
Definition nearest_step (palette : list SDL_Color) (c : SDL_Color)
    (i : Z) (s : Z * Z) : Z * Z :=
  let '(best, bestd) := s in
  let dr := r c - r (palette_at palette i) in
  let dg := g c - g (palette_at palette i) in
  let db := b c - b (palette_at palette i) in
  let d := dr * dr + dg * dg + db * db in
  if d <? bestd then (i, d) else (best, bestd).

Definition nearest_palette_index (palette : list SDL_Color) (c : SDL_Color) : Z :=
  fst (for_range 0 PALETTE_COUNT (nearest_step palette c) (0, INT32_MAX)).

(** The quantity the specification minimises: squared Euclidean distance
    over the red, green and blue channels. *)
Definition rgb_dist2 (c p : SDL_Color) : Z :=
  (r c - r p) ^ 2 + (g c - g p) ^ 2 + (b c - b p) ^ 2.

Definition same_rgb (c p : SDL_Color) : Prop :=
  r c = r p ∧ g c = g p ∧ b c = b p.

Definition with_alpha (c : SDL_Color) (x : Z) : SDL_Color :=
  mkColor (r c) (g c) (b c) x.

(** No two palette entries have the same red, green and blue. *)
Definition distinct_rgb (palette : list SDL_Color) : Prop :=
  ∀ i j, 0 ≤ i < PALETTE_COUNT → 0 ≤ j < PALETTE_COUNT →
    same_rgb (palette_at palette i) (palette_at palette j) → i = j.

(** ** Doubles

    The sample coordinates of the import are computed in C [double]
    arithmetic.  They are modelled with the IEEE 754 binary64 operations
    of [SpecFloat] (precision 53, round to nearest even), which compute. *)

Definition double : Type := spec_float.
Definition dbl_prec : Z := 53.
Definition dbl_emax : Z := 1024.

(** Conversion of an [int] to [double]. *)
Definition double_of_int (z : Z) : double := binary_normalize dbl_prec dbl_emax z 0 false.

(** The literal [0.5]. *)
Definition double_half : double := S754_finite false 4503599627370496 (-53).

Definition double_add (x y : double) : double := SFadd dbl_prec dbl_emax x y.
Definition double_div (x y : double) : double := SFdiv dbl_prec dbl_emax x y.
Definition double_mul (x y : double) : double := SFmul dbl_prec dbl_emax x y.

(** The magnitude [m * 2^e] truncated to an integer. *)
Definition trunc_mag (m : positive) (e : Z) : Z :=
  if 0 <=? e then Z.pos m * 2 ^ e else Z.pos m / 2 ^ (- e).

(** [(int)d]: truncation toward zero.  The conversion of a NaN, of an
    infinity or of a value outside of the range of [int] is undefined in
    C; the first two yield [INT32_MIN] here, as on x86. *)
Definition double_to_int (d : double) : Z :=
  match d with
  | S754_zero _ => 0
  | S754_finite s m e => if s then - trunc_mag m e else trunc_mag m e
  | _ => INT32_MIN
  end.

(** [floor(d)], for comparison with the formula of the specification. *)
Definition double_floor (d : double) : Z :=
  match d with
  | S754_zero _ => 0
  | S754_finite s m e =>
      if 0 <=? e then (if s then - (Z.pos m * 2 ^ e) else Z.pos m * 2 ^ e)
      else (if s then - Z.pos m else Z.pos m) / 2 ^ (- e)
  | _ => INT32_MIN
  end.

(** ** The editor's globals *)

Record Globals : Type := mkGlobals {
  CELLS_X : Z;
  CELLS_Y : Z;
  CELL_SIZE : Z;
  canvas : option (list Z);      (* NULL, or the buffer of uint8_t cells *)
  palette : list SDL_Color;
  current_color : Z;
  show_grid : Z
}.

Definition set_canvas (gl : Globals) (cv : option (list Z)) : Globals :=
  mkGlobals (CELLS_X gl) (CELLS_Y gl) (CELL_SIZE gl) cv (palette gl)
            (current_color gl) (show_grid gl).

Definition set_palette (gl : Globals) (p : list SDL_Color) : Globals :=
  mkGlobals (CELLS_X gl) (CELLS_Y gl) (CELL_SIZE gl) (canvas gl) p
            (current_color gl) (show_grid gl).

Definition set_current_color (gl : Globals) (c : Z) : Globals :=
  mkGlobals (CELLS_X gl) (CELLS_Y gl) (CELL_SIZE gl) (canvas gl) (palette gl)
            c (show_grid gl).

Definition set_show_grid (gl : Globals) (v : Z) : Globals :=
  mkGlobals (CELLS_X gl) (CELLS_Y gl) (CELL_SIZE gl) (canvas gl) (palette gl)
            (current_color gl) v.

Definition set_CELL_SIZE (gl : Globals) (s : Z) : Globals :=
  mkGlobals (CELLS_X gl) (CELLS_Y gl) s (canvas gl) (palette gl)
            (current_color gl) (show_grid gl).

(** The values of the globals before [main] runs. *)
Definition initial_globals : Globals :=
  mkGlobals 32 32 16 None (replicate (Z.to_nat PALETTE_COUNT) (mkColor 0 0 0 0)) 1 1.

(** [buf[i]] on a buffer of integers; a read outside of the buffer is
    undefined in C and reads 0 here. *)
Definition buf_at (buf : list Z) (i : Z) : Z :=
  if decide (0 ≤ i) then default 0 (buf !! Z.to_nat i) else 0.

(** [buf[i] = v]; a store outside of the buffer is undefined in C and
    does nothing here. *)
Definition buf_set (buf : list Z) (i : Z) (v : Z) : list Z :=
  if decide (0 ≤ i) then <[Z.to_nat i := v]> buf else buf.

(** [canvas[i]] and [canvas[i] = v] (through a NULL pointer: undefined in
    C; reads 0 and stores nothing here). *)
Definition canvas_at (gl : Globals) (i : Z) : Z :=
  buf_at (default [] (canvas gl)) i.

Definition canvas_store (gl : Globals) (i : Z) (v : Z) : Globals :=
  set_canvas gl ((λ cells, buf_set cells i (wrap8 v)) <$> canvas gl).

(** The cell at grid coordinate [(x, y)], addressed as everywhere in the
    program: [canvas[y*CELLS_X + x]]. *)
Definition get (gl : Globals) (x y : Z) : Z :=
  canvas_at gl (y * CELLS_X gl + x).

(** ** The environment: platform, allocator, SDL and the file system *)

Inductive ByteOrder : Type := SDL_LIL_ENDIAN | SDL_BIG_ENDIAN.

(** A decoded bitmap: dimensions and the row-major pixels. *)
Record Image : Type := mkImage {
  img_width : Z;
  img_height : Z;
  img_pixels : list SDL_Color
}.

Inductive File : Type :=
  | BmpFile (img : Image)
  | OtherFile.

Record Env : Type := mkEnv {
  SDL_BYTEORDER : ByteOrder;
  alloc_ok : Z → bool;          (* malloc/calloc of that many bytes succeeds *)
  surface_ok : Z → Z → bool;    (* SDL can create a surface of that size *)
  writable : string → bool;     (* the path can be opened for writing *)
  rejects_empty_bmp : bool      (* SDL_LoadBMP refuses a bitmap without pixels *)
}.

Inductive Outcome (A : Type) : Type :=
  | Ok (x : A)
  | Exit (code : Z).
Arguments Ok {A} x.
Arguments Exit {A} code.

(** [ensure_canvas_allocated] *)
Definition ensure_canvas_allocated (env : Env) (gl : Globals) : Outcome Globals :=
  match canvas gl with
  | Some _ => Ok gl
  | None =>
      if alloc_ok env (CELLS_X gl * CELLS_Y gl)
      then Ok (set_canvas gl (Some (replicate (Z.to_nat (CELLS_X gl * CELLS_Y gl)) 0)))
      else Exit 1
  end.

(** [memset(buf, 0, n)] *)
Definition memset0 (buf : list Z) (n : Z) : list Z :=
  replicate (Z.to_nat n) 0 ++ drop (Z.to_nat n) buf.

(** [clear_canvas] *)
Definition clear_canvas (env : Env) (gl : Globals) : Outcome Globals :=
  match ensure_canvas_allocated env gl with
  | Exit code => Exit code
  | Ok gl1 =>
      Ok (set_canvas gl1 ((λ cells, memset0 cells (CELLS_X gl1 * CELLS_Y gl1)) <$> canvas gl1))
  end.

(** ** SDL surfaces and bitmap files

    What the program relies on from SDL: a 32-bit surface reads each
    pixel as one [Uint32] and takes a channel out of it with that
    channel's mask and shift; [SDL_SaveBMP] stores the channels so
    decoded; [SDL_LoadBMP] gives them back; the conversion to
    [SDL_PIXELFORMAT_RGB24] lays each pixel out as the bytes red, green,
    blue, with rows padded to a multiple of four bytes. *)

Record PixelMasks : Type := mkMasks { Rmask : Z; Gmask : Z; Bmask : Z; Amask : Z }.

(** The masks passed to [SDL_CreateRGBSurfaceFrom], under [#if SDL_BYTEORDER]. *)
Definition surface_masks (bo : ByteOrder) : PixelMasks :=
  match bo with
  | SDL_BIG_ENDIAN => mkMasks 0xff000000 0x00ff0000 0x0000ff00 0x000000ff
  | SDL_LIL_ENDIAN => mkMasks 0x000000ff 0x0000ff00 0x00ff0000 0xff000000
  end.

Fixpoint mask_shift_pos (p : positive) : Z :=
  match p with
  | xO p' => 1 + mask_shift_pos p'
  | _ => 0
  end.

(** The position of the lowest set bit of a mask. *)
Definition mask_shift (mask : Z) : Z :=
  match mask with
  | Z.pos p => mask_shift_pos p
  | _ => 0
  end.

Definition channel (pixel mask : Z) : Z :=
  Z.shiftr (Z.land pixel mask) (mask_shift mask).

Definition decode_pixel (m : PixelMasks) (pixel : Z) : SDL_Color :=
  mkColor (channel pixel (Rmask m)) (channel pixel (Gmask m))
          (channel pixel (Bmask m)) (channel pixel (Amask m)).

(** A 32-bit surface over a caller's buffer, with pitch [4 * w]. *)
Record Surface32 : Type := mkSurface32 {
  surf_w : Z;
  surf_h : Z;
  surf_pixels : list Z;
  surf_masks : PixelMasks
}.

Definition surface_image (s : Surface32) : Image :=
  mkImage (surf_w s) (surf_h s)
          (decode_pixel (surf_masks s) <$> take (Z.to_nat (surf_w s * surf_h s)) (surf_pixels s)).

(** [SDL_SaveBMP]: the result code and the file system afterwards. *)
Definition SDL_SaveBMP (env : Env) (s : Surface32) (filename : string)
    (fs : gmap string File) : Z * gmap string File :=
  if writable env filename
  then (0, <[filename := BmpFile (surface_image s)]> fs)
  else (-1, fs).

(** [SDL_LoadBMP]: [None] is the NULL result. *)
Definition SDL_LoadBMP (env : Env) (fs : gmap string File) (filename : string) : option Image :=
  match fs !! filename with
  | Some (BmpFile img) =>
      if rejects_empty_bmp env && ((img_width img <=? 0) || (img_height img <=? 0))
      then None
      else if surface_ok env (img_width img) (img_height img) then Some img else None
  | _ => None
  end.

(** A surface in [SDL_PIXELFORMAT_RGB24]. *)
Record Surface24 : Type := mkSurface24 {
  w24 : Z;
  h24 : Z;
  pitch24 : Z;
  pixels24 : list Z
}.

(** The pixel at column [x] of row [y]. *)
Definition img_pixel (img : Image) (x y : Z) : SDL_Color :=
  let i := y * img_width img + x in
  if decide (0 ≤ i) then img_pixels img !!! Z.to_nat i else inhabitant.

Definition rgb24_pitch (w : Z) : Z := 4 * ((3 * w + 3) / 4).

(** The byte at offset [i] of the RGB24 buffer of an image. *)
Definition rgb24_byte (img : Image) (i : Z) : Z :=
  let pitch := rgb24_pitch (img_width img) in
  let y := i / pitch in
  let x := (i mod pitch) / 3 in
  let k := (i mod pitch) mod 3 in
  if x <? img_width img then
    let c := img_pixel img x y in
    if k =? 0 then r c else if k =? 1 then g c else b c
  else 0.

(** [SDL_ConvertSurfaceFormat(surf, SDL_PIXELFORMAT_RGB24, 0)] *)
Definition SDL_ConvertSurfaceFormat_RGB24 (env : Env) (img : Image) : option Surface24 :=
  if surface_ok env (img_width img) (img_height img) then
    let pitch := rgb24_pitch (img_width img) in
    Some (mkSurface24 (img_width img) (img_height img) pitch
            (rgb24_byte img <$> seqZ 0 (pitch * img_height img)))
  else None.

(** ** Export: [save_canvas_as_bmp] *)

(** [(col.r<<24) | (col.g<<16) | (col.b<<8) | col.a], stored in a [uint32_t]. *)
Definition pack_pixel (col : SDL_Color) : Z :=
  wrap32 (Z.lor (Z.lor (Z.lor (Z.shiftl (r col) 24) (Z.shiftl (g col) 16))
                       (Z.shiftl (b col) 8)) (a col)).

(** The body of the inner loop, lines 131-136. *)
Definition save_pixel (gl : Globals) (w y x : Z) (pixels : list Z) : list Z :=
  let cx := x ÷ CELL_SIZE gl in
  let cy := y ÷ CELL_SIZE gl in
  let cidx := canvas_at gl (cy * CELLS_X gl + cx) in
  let col := palette_at (palette gl) cidx in
  let p := pack_pixel col in
  buf_set pixels (y * w + x) p.

Definition save_pixels (gl : Globals) (w h : Z) (pixels : list Z) : list Z :=
  fill_rows (save_pixel gl w) w h pixels.

(** The result is the return value, the globals and the file system.
    The buffer that [malloc] returns is not initialised; it is all zeroes
    here, and every element is overwritten before it is read. *)
Definition save_canvas_as_bmp (env : Env) (filename : string) (gl : Globals)
    (fs : gmap string File) : Outcome (Z * Globals * gmap string File) :=
  match ensure_canvas_allocated env gl with
  | Exit code => Exit code
  | Ok gl1 =>
      let w := CELLS_X gl1 * CELL_SIZE gl1 in
      let h := CELLS_Y gl1 * CELL_SIZE gl1 in
      if negb (alloc_ok env (4 * w * h)) then Ok (-1, gl1, fs)
      else
        let pixels := save_pixels gl1 w h (replicate (Z.to_nat (w * h)) 0) in
        if negb (surface_ok env w h) then Ok (-1, gl1, fs)
        else
          let surf := mkSurface32 w h pixels (surface_masks (SDL_BYTEORDER env)) in
          let '(rc, fs') := SDL_SaveBMP env surf filename fs in
          Ok (rc, gl1, fs')
  end.

(** ** Import: [load_bmp_to_canvas] *)

(** [(int)(((c + 0.5) / (double)cells) * img_dim)] *)
Definition sample_coord (c cells img_dim : Z) : Z :=
  double_to_int
    (double_mul (double_div (double_add (double_of_int c) double_half) (double_of_int cells))
                (double_of_int img_dim)).

(** [if (s < 0) s = 0; if (s >= dim) s = dim-1;] *)
Definition clamp_coord (s dim : Z) : Z :=
  let s1 := if s <? 0 then 0 else s in
  if s1 >=? dim then dim - 1 else s1.

(** The color read at the sample point of cell [(cx, cy)], lines 184-189. *)
Definition sample_color (fmt : Surface24) (cells_x cells_y cx cy : Z) : SDL_Color :=
  let sx := clamp_coord (sample_coord cx cells_x (w24 fmt)) (w24 fmt) in
  let sy := clamp_coord (sample_coord cy cells_y (h24 fmt)) (h24 fmt) in
  let p := sy * pitch24 fmt + sx * 3 in
  mkColor (buf_at (pixels24 fmt) p) (buf_at (pixels24 fmt) (p + 1))
          (buf_at (pixels24 fmt) (p + 2)) 255.

(** The body of the inner loop, lines 183-191. *)
Definition load_cell (fmt : Surface24) (cy cx : Z) (gl : Globals) : Globals :=
  let c := sample_color fmt (CELLS_X gl) (CELLS_Y gl) cx cy in
  let pi := nearest_palette_index (palette gl) c in
  canvas_store gl (cy * CELLS_X gl + cx) pi.

Definition load_cells (fmt : Surface24) (gl : Globals) : Globals :=
  fill_rows (load_cell fmt) (CELLS_X gl) (CELLS_Y gl) gl.

(** The result is the return value and the globals. *)
Definition load_bmp_to_canvas (env : Env) (fs : gmap string File) (filename : string)
    (gl : Globals) : Z * Globals :=
  match SDL_LoadBMP env fs filename with
  | None => (-1, gl)
  | Some surf =>
      match SDL_ConvertSurfaceFormat_RGB24 env surf with
      | None => (-1, gl)
      | Some fmt => (0, load_cells fmt gl)
      end
  end.

(** ** The event loop of [main] *)

(** Constants of the SDL headers. *)
Definition SDL_BUTTON_LEFT : Z := 1.
Definition SDL_BUTTON_RIGHT : Z := 3.
Definition SDLK_ESCAPE : Z := 27.
Definition SDLK_0 : Z := 48.
Definition SDLK_9 : Z := 57.
Definition SDLK_LEFTBRACKET : Z := 91.
Definition SDLK_RIGHTBRACKET : Z := 93.
Definition SDLK_c : Z := 99.
Definition SDLK_g : Z := 103.
Definition SDLK_l : Z := 108.
Definition SDLK_s : Z := 115.

Inductive SDL_Event : Type :=
  | SDL_QUIT
  | SDL_MOUSEBUTTONDOWN (button x y : Z)
  | SDL_MOUSEBUTTONUP
  | SDL_MOUSEMOTION (x y : Z)
  | SDL_KEYDOWN (sym : Z)
  | SDL_OTHEREVENT.

(** What the program sends out: text on the console and window resizes. *)
Inductive Output : Type :=
  | Printf (text : string)
  | SDL_SetWindowSize (w h : Z).

(** The globals, the locals of [main], and the world around the
    program: files, the lines waiting on standard input, and the
    outputs so far (oldest first). *)
Record Main : Type := mkMain {
  globals : Globals;
  running : Z;
  mouse_down : Z;
  mouse_button : Z;
  fs : gmap string File;
  stdin : list string;
  out : list Output
}.

Definition set_globals (st : Main) (gl : Globals) : Main :=
  mkMain gl (running st) (mouse_down st) (mouse_button st) (fs st) (stdin st) (out st).

Definition set_running (st : Main) (v : Z) : Main :=
  mkMain (globals st) v (mouse_down st) (mouse_button st) (fs st) (stdin st) (out st).

Definition set_mouse (st : Main) (down button : Z) : Main :=
  mkMain (globals st) (running st) down button (fs st) (stdin st) (out st).

Definition set_fs (st : Main) (f : gmap string File) : Main :=
  mkMain (globals st) (running st) (mouse_down st) (mouse_button st) f (stdin st) (out st).

Definition set_stdin (st : Main) (l : list string) : Main :=
  mkMain (globals st) (running st) (mouse_down st) (mouse_button st) (fs st) l (out st).

Definition emit (st : Main) (o : Output) : Main :=
  mkMain (globals st) (running st) (mouse_down st) (mouse_button st) (fs st) (stdin st)
         (out st ++ [o]).

(** Lines 236-239 and 260-263: the guarded store of the press and drag
    handlers.  The left button paints with the current color, the right
    button erases, any other button does nothing. *)
Definition paint_cell (gl : Globals) (button cx cy : Z) : Globals :=
  if (0 <=? cx) && (cx <? CELLS_X gl) && (0 <=? cy) && (cy <? CELLS_Y gl) then
    if button =? SDL_BUTTON_LEFT then canvas_store gl (cy * CELLS_X gl + cx) (current_color gl)
    else if button =? SDL_BUTTON_RIGHT then canvas_store gl (cy * CELLS_X gl + cx) 0
    else gl
  else gl.

(** Lines 233-240 and 257-264: from window pixels to the cell. *)
Definition paint_at (gl : Globals) (button mx my : Z) : Globals :=
  let cx := mx ÷ CELL_SIZE gl in
  let cy := my ÷ CELL_SIZE gl in
  paint_cell gl button cx cy.

(** Lines 241-250: a click on the palette. *)
Definition palette_click (gl : Globals) (mx my : Z) : Globals :=
  let pal_x := CELLS_X gl * CELL_SIZE gl + 10 in
  let relx := mx - pal_x in
  let box := 24 in
  let spacing := 8 in
  if 0 <=? relx then
    let col := relx ÷ (box + spacing) in
    let row := (my - 10) ÷ (box + spacing) in
    let idx := row * 2 + col in
    if (0 <=? idx) && (idx <? PALETTE_COUNT) then set_current_color gl idx else gl
  else gl.

Definition newline : ascii := ascii_of_nat 10.
Definition nl : string := String newline EmptyString.

(** Removal of the final newline of a line read by [fgets]. *)
Fixpoint chomp (s : string) : string :=
  match s with
  | EmptyString => EmptyString
  | String c EmptyString => if Ascii.eqb c newline then EmptyString else s
  | String c s' => String c (chomp s')
  end.

Definition window_resize (gl : Globals) : Output :=
  SDL_SetWindowSize (CELLS_X gl * CELL_SIZE gl + 200) (CELLS_Y gl * CELL_SIZE gl + 20).

(** The key handler, lines 267-301. *)
Definition handle_key (env : Env) (k : Z) (st : Main) : Outcome Main :=
  let gl := globals st in
  if k =? SDLK_ESCAPE then Ok (set_running st 0)
  else if k =? SDLK_c then
    match clear_canvas env gl with
    | Exit code => Exit code
    | Ok gl' => Ok (set_globals st gl')
    end
  else if k =? SDLK_g then
    Ok (set_globals st (set_show_grid gl (if show_grid gl =? 0 then 1 else 0)))
  else if k =? SDLK_s then
    let st1 := emit st (Printf "Save filename (example out.bmp): ") in
    match stdin st1 with
    | [] => Ok st1
    | line :: rest =>
        let st2 := set_stdin st1 rest in
        let fname := chomp line in
        if 0 <? Z.of_nat (String.length fname) then
          match save_canvas_as_bmp env fname gl (fs st2) with
          | Exit code => Exit code
          | Ok (rc, gl', fs') =>
              let st3 := set_fs (set_globals st2 gl') fs' in
              if rc =? 0 then Ok (emit st3 (Printf ("Saved " +:+ fname +:+ nl)))
              else Ok (emit st3 (Printf ("Failed to save " +:+ fname +:+ nl)))
          end
        else Ok st2
    end
  else if k =? SDLK_l then
    let st1 := emit st (Printf "Load BMP filename: ") in
    match stdin st1 with
    | [] => Ok st1
    | line :: rest =>
        let st2 := set_stdin st1 rest in
        let fname := chomp line in
        if 0 <? Z.of_nat (String.length fname) then
          let '(rc, gl') := load_bmp_to_canvas env (fs st2) fname gl in
          let st3 := set_globals st2 gl' in
          if rc =? 0 then Ok (emit st3 (Printf ("Loaded " +:+ fname +:+ nl)))
          else Ok (emit st3 (Printf ("Failed to load " +:+ fname +:+ nl)))
        else Ok st2
    end
  else if k =? SDLK_LEFTBRACKET then
    let gl' := if 4 <? CELL_SIZE gl then set_CELL_SIZE gl (CELL_SIZE gl - 1) else gl in
    Ok (emit (set_globals st gl') (window_resize gl'))
  else if k =? SDLK_RIGHTBRACKET then
    let gl' := set_CELL_SIZE gl (CELL_SIZE gl + 1) in
    Ok (emit (set_globals st gl') (window_resize gl'))
  else if (SDLK_0 <=? k) && (k <=? SDLK_9) then
    let n := k - SDLK_0 in
    if (0 <=? n) && (n <? PALETTE_COUNT) then Ok (set_globals st (set_current_color gl n))
    else Ok st
  else Ok st.

(** One event of the inner [while (SDL_PollEvent(&e))] loop, lines 229-302. *)
Definition handle_event (env : Env) (e : SDL_Event) (st : Main) : Outcome Main :=
  match e with
  | SDL_QUIT => Ok (set_running st 0)
  | SDL_MOUSEBUTTONDOWN button mx my =>
      let st1 := set_mouse st 1 button in
      let gl := globals st1 in
      if mx <? CELLS_X gl * CELL_SIZE gl
      then Ok (set_globals st1 (paint_at gl button mx my))
      else Ok (set_globals st1 (palette_click gl mx my))
  | SDL_MOUSEBUTTONUP => Ok (set_mouse st 0 (mouse_button st))
  | SDL_MOUSEMOTION mx my =>
      if mouse_down st =? 0 then Ok st
      else
        let gl := globals st in
        if mx <? CELLS_X gl * CELL_SIZE gl
        then Ok (set_globals st (paint_at gl (mouse_button st) mx my))
        else Ok st
  | SDL_KEYDOWN k => handle_key env k st
  | SDL_OTHEREVENT => Ok st
  end.

(** The start of [main], lines 199-207: the grid size from the command
    line ([args] holds [atoi] of the first two arguments when there are
    at least two), the canvas, the palette, the clear. *)
Definition startup (env : Env) (args : option (Z * Z)) (files : gmap string File)
    (input : list string) : Outcome Main :=
  let gl0 :=
    match args with
    | Some (x, y) =>
        mkGlobals (if x <=? 0 then 32 else x) (if y <=? 0 then 32 else y)
                  (CELL_SIZE initial_globals) (canvas initial_globals)
                  (palette initial_globals) (current_color initial_globals)
                  (show_grid initial_globals)
    | None => initial_globals
    end in
  match ensure_canvas_allocated env gl0 with
  | Exit code => Exit code
  | Ok gl1 =>
      let gl2 := set_palette gl1 init_default_palette in
      match clear_canvas env gl2 with
      | Exit code => Exit code
      | Ok gl3 => Ok (mkMain gl3 1 0 0 files input [])
      end
  end.

(** The states the program can be in: after the start, and after every
    further event. *)
Inductive reachable (env : Env) : Main → Prop :=
  | reachable_start args files input st :
      startup env args files input = Ok st → reachable env st
  | reachable_event e st st' :
      reachable env st → handle_event env e st = Ok st' → reachable env st'.

(** ** Auxiliary definitions of the proofs *)

(** The state of the loop of [nearest_palette_index] before iteration [i]. *)
Definition nearest_inv (pal : list SDL_Color) (c : SDL_Color) (i : Z) (s : Z * Z) : Prop :=
  (i = 0 ∧ s = (0, INT32_MAX)) ∨
  (0 < i ∧ 0 ≤ fst s < i ∧ snd s = rgb_dist2 c (palette_at pal (fst s)) ∧
   (∀ j, 0 ≤ j < i → snd s ≤ rgb_dist2 c (palette_at pal j)) ∧
   (∀ j, 0 ≤ j < fst s → snd s < rgb_dist2 c (palette_at pal j))).

(** The state of a row-major fill in row [y] before column [x]: the rows
    above and the columns to the left hold their final values [f], and
    nothing outside of the rectangle has changed since [s0]. *)
Definition row_inv {St : Type} (rd : St → Z → Z) (w h : Z) (f : Z → Z → Z)
    (I : St → Prop) (s0 : St) (y x : Z) (s : St) : Prop :=
  I s ∧
  (∀ x' y', 0 ≤ x' < w → 0 ≤ y' < y → rd s (y' * w + x') = f y' x') ∧
  (∀ x', 0 ≤ x' < x → rd s (y * w + x') = f y x') ∧
  (∀ j, (∀ x' y', 0 ≤ x' < w → 0 ≤ y' < h → j ≠ y' * w + x') → rd s j = rd s0 j).

(** ** Well-formed states *)

(** The canvas is allocated and has one cell per grid coordinate. *)
Definition canvas_sized (gl : Globals) : Prop :=
  ∃ cells, canvas gl = Some cells ∧
           length cells = Z.to_nat (CELLS_X gl * CELLS_Y gl).

Definition valid_index (v : Z) : Prop := 0 ≤ v < PALETTE_COUNT.

(** Every cell of the canvas holds an index of the palette. *)
Definition canvas_valid (gl : Globals) : Prop :=
  ∃ cells, canvas gl = Some cells ∧
           length cells = Z.to_nat (CELLS_X gl * CELLS_Y gl) ∧
           Forall valid_index cells.

(** Everything but the canvas is the same in both. *)
Definition same_settings (gl gl' : Globals) : Prop :=
  CELLS_X gl' = CELLS_X gl ∧ CELLS_Y gl' = CELLS_Y gl ∧
  CELL_SIZE gl' = CELL_SIZE gl ∧ palette gl' = palette gl ∧
  current_color gl' = current_color gl ∧ show_grid gl' = show_grid gl.

(** What holds of the globals from the start of [main] on. *)
Definition globals_ok (gl : Globals) : Prop :=
  0 < CELLS_X gl ∧ 0 < CELLS_Y gl ∧ canvas_valid gl ∧
  valid_index (current_color gl) ∧ palette gl = init_default_palette ∧
  4 ≤ CELL_SIZE gl.

(** A change of display state only: the canvas (the pointer and every
    cell), the palette, the current color, the grid dimensions and the
    files are what they were. *)
Definition display_only (st st' : Main) : Prop :=
  canvas (globals st') = canvas (globals st) ∧
  palette (globals st') = palette (globals st) ∧
  current_color (globals st') = current_color (globals st) ∧
  CELLS_X (globals st') = CELLS_X (globals st) ∧
  CELLS_Y (globals st') = CELLS_Y (globals st) ∧
  fs st' = fs st.

(** ** Sample configurations *)

Definition env_little : Env :=
  mkEnv SDL_LIL_ENDIAN (λ _, true) (λ _ _, true) (λ _, true) true.

Definition env_big : Env :=
  mkEnv SDL_BIG_ENDIAN (λ _, true) (λ _ _, true) (λ _, true) true.

(** The sample coordinate as the specification writes it,
    [floor((c + 0.5) / cells * img_dim)], in the arithmetic of the code. *)
Definition floor_sample_coord (c cells img_dim : Z) : Z :=
  double_floor
    (double_mul (double_div (double_add (double_of_int c) double_half) (double_of_int cells))
                (double_of_int img_dim)).

(** The events of a session, one after the other; [Exit] ends it. *)
Fixpoint run_events (env : Env) (events : list SDL_Event) (st : Main) : Outcome Main :=
  match events with
  | [] => Ok st
  | e :: rest =>
      match handle_event env e st with
      | Ok st' => run_events env rest st'
      | Exit code => Exit code
      end
  end.


(** A session on a 2 by 2 grid at the initial cell size 16: the key [5]
    selects yellow and a left click paints cell [(1, 0)]; the key [1]
    selects black and a left click paints cell [(0, 1)]; then the key [s]
    and the file name typed on the console. *)
Definition paint_and_save : list SDL_Event :=
  [SDL_KEYDOWN (SDLK_0 + 5); SDL_MOUSEBUTTONDOWN SDL_BUTTON_LEFT 20 5; SDL_MOUSEBUTTONUP;
   SDL_KEYDOWN (SDLK_0 + 1); SDL_MOUSEBUTTONDOWN SDL_BUTTON_LEFT 5 20; SDL_MOUSEBUTTONUP;
   SDL_KEYDOWN SDLK_s].

(** Then the canvas is cleared and the file is loaded back. *)
Definition clear_and_load : list SDL_Event :=
  [SDL_KEYDOWN SDLK_c; SDL_KEYDOWN SDLK_l].

Definition typed_names : list string := ["out.bmp" +:+ nl; "out.bmp" +:+ nl].

Definition session_start (env : Env) : Outcome Main :=
  startup env (Some (2, 2)) ∅ typed_names.

Definition session_saved (env : Env) : Outcome Main :=
  match session_start env with
  | Ok st => run_events env paint_and_save st
  | Exit code => Exit code
  end.

Definition session_reloaded (env : Env) : Outcome Main :=
  match session_saved env with
  | Ok st => run_events env clear_and_load st
  | Exit code => Exit code
  end.

(** The pixel of the file [out.bmp] at [(x, y)], if the file is a bitmap. *)
Definition saved_pixel (st : Main) (x y : Z) : option SDL_Color :=
  match fs st !! "out.bmp" with
  | Some (BmpFile img) => Some (img_pixel img x y)
  | _ => None
  end.


(** A mantissa of exactly 53 bits. *)
Definition canonical53 (m : positive) : Prop := 2 ^ 52 ≤ Z.pos m < 2 ^ 53.

(** The bound on the relative error of one rounding to a normal double,
    [2^-52]. *)
Definition eps : R := (/ 4503599627370496)%R.

(** ** Drawing: [draw_canvas_to_renderer] and [draw_palette_ui]

    The renderer is an SDL object; what the program does with it is the
    sequence of calls it makes, oldest first. *)

(** [SDL_Rect] *)
Record SDL_Rect : Type := mkRect { rect_x : Z; rect_y : Z; rect_w : Z; rect_h : Z }.

Inductive RenderCall : Type :=
  | SDL_SetRenderDrawColor (col : SDL_Color)
  | SDL_RenderFillRect (rect : SDL_Rect)
  | SDL_RenderDrawRect (rect : SDL_Rect)
  | SDL_RenderClear
  | SDL_RenderPresent
  | SDL_Delay (ms : Z).

(** The color of the grid lines, line 95. *)
Definition grid_line_color : SDL_Color := mkColor 200 200 200 255.

(** The color of the outlines of the palette, lines 111 and 115. *)
Definition outline_color : SDL_Color := mkColor 0 0 0 255.

(** The color that [main] clears the window with, line 305. *)
Definition background_color : SDL_Color := mkColor 220 220 220 255.

(** Line 91: the rectangle of cell [(x, y)] on the screen. *)
Definition cell_rect (gl : Globals) (x y : Z) : SDL_Rect :=
  mkRect (x * CELL_SIZE gl) (y * CELL_SIZE gl) (CELL_SIZE gl) (CELL_SIZE gl).

(** Lines 88-97: the calls of one iteration of the inner loop. *)
Definition cell_calls (gl : Globals) (x y : Z) : list RenderCall :=
  let idx := y * CELLS_X gl + x in
  let cidx := canvas_at gl idx in
  let col := palette_at (palette gl) cidx in
  let rect := cell_rect gl x y in
  [SDL_SetRenderDrawColor col; SDL_RenderFillRect rect]
  ++ (if show_grid gl =? 0 then []
      else [SDL_SetRenderDrawColor grid_line_color; SDL_RenderDrawRect rect]).

Definition draw_cell (gl : Globals) (y x : Z) (calls : list RenderCall) : list RenderCall :=
  calls ++ cell_calls gl x y.

(** [draw_canvas_to_renderer]: the globals afterwards and the calls made,
    after those made before. *)
Definition draw_canvas_to_renderer (env : Env) (gl : Globals) (calls : list RenderCall)
    : Outcome (Globals * list RenderCall) :=
  match ensure_canvas_allocated env gl with
  | Exit code => Exit code
  | Ok gl1 => Ok (gl1, fill_rows (draw_cell gl1) (CELLS_X gl1) (CELLS_Y gl1) calls)
  end.

(** Line 107: the box of palette entry [i]. *)
Definition palette_box (gl : Globals) (i : Z) : SDL_Rect :=
  let pal_x := CELLS_X gl * CELL_SIZE gl + 10 in
  let pal_y := 10 in
  let box := 24 in
  mkRect (pal_x + Z.rem i 2 * (box + 8)) (pal_y + (i ÷ 2) * (box + 8)) box box.

(** Line 114: the frame around the box of the current color. *)
Definition highlight_rect (rect : SDL_Rect) : SDL_Rect :=
  mkRect (rect_x rect - 2) (rect_y rect - 2) (rect_w rect + 4) (rect_h rect + 4).

(** Lines 107-117: the calls of one iteration. *)
Definition palette_calls (gl : Globals) (i : Z) : list RenderCall :=
  let rect := palette_box gl i in
  let c := palette_at (palette gl) i in
  [SDL_SetRenderDrawColor c; SDL_RenderFillRect rect;
   SDL_SetRenderDrawColor outline_color; SDL_RenderDrawRect rect]
  ++ (if i =? current_color gl
      then [SDL_SetRenderDrawColor outline_color;
            SDL_RenderDrawRect (highlight_rect rect)]
      else []).

(** [draw_palette_ui]; its arguments [win_w] and [win_h] are not used. *)
Definition draw_palette_ui (gl : Globals) (calls : list RenderCall) : list RenderCall :=
  for_range 0 PALETTE_COUNT (λ i cs, cs ++ palette_calls gl i) calls.

(** ** The loop of [main] *)

(** The frame at the end of a turn of the loop, lines 305-312. *)
Definition render_frame (env : Env) (gl : Globals) : Outcome (Globals * list RenderCall) :=
  let calls := [SDL_SetRenderDrawColor background_color; SDL_RenderClear] in
  match draw_canvas_to_renderer env gl calls with
  | Exit code => Exit code
  | Ok (gl1, calls1) =>
      Ok (gl1, draw_palette_ui gl1 calls1 ++ [SDL_RenderPresent; SDL_Delay 16])
  end.

(** The turns of the outer [while (running)], lines 226-313: in each turn
    every event that [SDL_PollEvent] has at that moment, one batch, then
    the frame.  The result is the state and the frames drawn; the loop is
    left when [running] is 0 at the start of a turn, and the model stops
    when the batches run out. *)
Fixpoint main_loop (env : Env) (batches : list (list SDL_Event)) (st : Main)
    (frames : list (list RenderCall)) : Outcome (Main * list (list RenderCall)) :=
  if running st =? 0 then Ok (st, frames)
  else
    match batches with
    | [] => Ok (st, frames)
    | batch :: rest =>
        match run_events env batch st with
        | Exit code => Exit code
        | Ok st1 =>
            match render_frame env (globals st1) with
            | Exit code => Exit code
            | Ok (gl, calls) => main_loop env rest (set_globals st1 gl) (frames ++ [calls])
            end
        end
    end.

(** ** The render target

    What the program relies on from the SDL renderer, with its default
    blend mode: the draw color is the one last set; [SDL_RenderFillRect]
    gives it to every pixel of the rectangle, [SDL_RenderDrawRect] to the
    pixels of its outline, [SDL_RenderClear] to every pixel.  The
    rectangles are those with a positive width and height, the only ones
    that the program draws once it has started. *)

(** A point of the screen lies in a rectangle. *)
Definition in_rect (rect : SDL_Rect) (px py : Z) : Prop :=
  rect_x rect ≤ px < rect_x rect + rect_w rect ∧
  rect_y rect ≤ py < rect_y rect + rect_h rect.

#[global] Instance in_rect_dec (rect : SDL_Rect) (px py : Z) : Decision (in_rect rect px py).
Proof. unfold in_rect. apply _. Defined.

(** A point lies on the one-pixel outline of a rectangle. *)
Definition on_outline (rect : SDL_Rect) (px py : Z) : Prop :=
  in_rect rect px py ∧
  (px = rect_x rect ∨ px = rect_x rect + rect_w rect - 1 ∨
   py = rect_y rect ∨ py = rect_y rect + rect_h rect - 1).

#[global] Instance on_outline_dec (rect : SDL_Rect) (px py : Z) :
  Decision (on_outline rect px py).
Proof. unfold on_outline. apply _. Defined.

Record Screen : Type := mkScreen {
  draw_color : SDL_Color;
  pixel_at : Z → Z → SDL_Color
}.

Definition render (scr : Screen) (call : RenderCall) : Screen :=
  match call with
  | SDL_SetRenderDrawColor col => mkScreen col (pixel_at scr)
  | SDL_RenderFillRect rect =>
      mkScreen (draw_color scr)
        (λ px py, if decide (in_rect rect px py) then draw_color scr else pixel_at scr px py)
  | SDL_RenderDrawRect rect =>
      mkScreen (draw_color scr)
        (λ px py, if decide (on_outline rect px py) then draw_color scr else pixel_at scr px py)
  | SDL_RenderClear => mkScreen (draw_color scr) (λ _ _, draw_color scr)
  | SDL_RenderPresent => scr
  | SDL_Delay _ => scr
  end.

Definition render_all (scr : Screen) (calls : list RenderCall) : Screen :=
  fold_left render calls scr.

(** ** Auxiliary definitions of the further properties *)

(** *** The screen *)

(** A point of the window lies on the raster of the grid. *)
Definition on_raster (gl : Globals) (px py : Z) : Prop :=
  0 ≤ px < CELLS_X gl * CELL_SIZE gl ∧ 0 ≤ py < CELLS_Y gl * CELL_SIZE gl.

(** The color in which a frame shows the point [(px, py)] of the raster:
    that of the grid lines on the border of a cell when they are switched
    on, the palette color of the cell otherwise. *)
Definition cell_pixel (gl : Globals) (px py : Z) : SDL_Color :=
  let x := px ÷ CELL_SIZE gl in
  let y := py ÷ CELL_SIZE gl in
  if decide (show_grid gl ≠ 0 ∧ on_outline (cell_rect gl x y) px py)
  then grid_line_color
  else palette_at (palette gl) (get gl x y).

(** The 32 by 32 tile of palette entry [i]: its box and the gap of 8
    pixels to the right of it and below it. *)
Definition palette_tile (gl : Globals) (i : Z) : SDL_Rect :=
  mkRect (rect_x (palette_box gl i)) (rect_y (palette_box gl i)) 32 32.

(** The points that the drawing of palette entry [i] colors: its box,
    and the frame around it when it is the current color. *)
Definition palette_points (gl : Globals) (i : Z) (px py : Z) : Prop :=
  in_rect (palette_box gl i) px py ∨
  (i = current_color gl ∧ on_outline (highlight_rect (palette_box gl i)) px py).

(** The color of such a point: the entry's color inside of the box, the
    color of the outlines on its outline and on the frame. *)
Definition palette_pixel (gl : Globals) (i : Z) (px py : Z) : SDL_Color :=
  if decide (in_rect (palette_box gl i) px py ∧ ¬ on_outline (palette_box gl i) px py)
  then palette_at (palette gl) i
  else outline_color.

(** The size of the window: as [SDL_CreateWindow] made it (lines 214-217,
    where [CELL_SIZE] still has its initial value), then as the last
    [SDL_SetWindowSize] set it (lines 294 and 297). *)
Definition window_size (st : Main) : Z * Z :=
  fold_left
    (λ size o, match o with SDL_SetWindowSize w h => (w, h) | Printf _ => size end)
    (out st)
    (CELLS_X (globals st) * CELL_SIZE initial_globals + 200,
     CELLS_Y (globals st) * CELL_SIZE initial_globals + 20).

(** *** Events *)

#[global] Instance SDL_Event_eq_dec : EqDecision SDL_Event.
Proof. solve_decision. Defined.

(** The event closes the program: the window's close button or Escape. *)
Definition closes (e : SDL_Event) : Prop := e = SDL_QUIT ∨ e = SDL_KEYDOWN SDLK_ESCAPE.

(** What no event changes, or changes in one direction only. *)
Definition world_frame (st st' : Main) : Prop :=
  CELLS_X (globals st') = CELLS_X (globals st) ∧
  CELLS_Y (globals st') = CELLS_Y (globals st) ∧
  palette (globals st') = palette (globals st) ∧
  out st `prefix_of` out st' ∧
  stdin st' `suffix_of` stdin st.

(** The grid-line flag is one of the two values of [!]. *)
Definition flag_ok (v : Z) : Prop := v = 0 ∨ v = 1.

(** The value that a button stores into a cell, if it stores one. *)
Definition brush (gl : Globals) (button : Z) : option Z :=
  if button =? SDL_BUTTON_LEFT then Some (current_color gl)
  else if button =? SDL_BUTTON_RIGHT then Some 0
  else None.

(** The motion events of a pointer that passes through [points]. *)
Definition drag (points : list (Z * Z)) : list SDL_Event :=
  (λ p, SDL_MOUSEMOTION p.1 p.2) <$> points.

(** One of the [points] lies in cell [(cx, cy)]. *)
Definition visits (gl : Globals) (points : list (Z * Z)) (cx cy : Z) : Prop :=
  Exists (λ p, p.1 ÷ CELL_SIZE gl = cx ∧ p.2 ÷ CELL_SIZE gl = cy) points.

(** The prompts of the keys [s] and [l]. *)
Definition save_prompt : Output := Printf "Save filename (example out.bmp): ".
Definition load_prompt : Output := Printf "Load BMP filename: ".

(** *** The start *)

(** The grid dimension that [main] takes from [atoi] of an argument. *)
Definition grid_dimension (arg : Z) : Z := if arg <=? 0 then 32 else arg.

Definition start_width (args : option (Z * Z)) : Z :=
  match args with Some (x, _) => grid_dimension x | None => 32 end.

Definition start_height (args : option (Z * Z)) : Z :=
  match args with Some (_, y) => grid_dimension y | None => 32 end.

(** A state right after the start on a 2 by 2 grid, with [input] waiting
    on standard input, for the examples. *)
Definition sample_state (input : list string) : Main :=
  mkMain (mkGlobals 2 2 16 (Some [0; 0; 0; 0]) init_default_palette 1 1) 1 0 0 ∅ input [].

(** *** Files *)


(** The surface that the conversion to RGB24 makes of an image. *)
Definition rgb24_surface (img : Image) : Surface24 :=
  mkSurface24 (img_width img) (img_height img) (rgb24_pitch (img_width img))
    (rgb24_byte img <$> seqZ 0 (rgb24_pitch (img_width img) * img_height img)).


(** The events that can store into the canvas: a press, a motion, and
    the keys [c] and [l]. *)
Definition edits (e : SDL_Event) : Prop :=
  match e with
  | SDL_MOUSEBUTTONDOWN _ _ _ => True
  | SDL_MOUSEMOTION _ _ => True
  | SDL_KEYDOWN k => k = SDLK_c ∨ k = SDLK_l
  | _ => False
  end.

(** The event is the press of a mouse button. *)
Definition is_press (e : SDL_Event) : Prop :=
  match e with
  | SDL_MOUSEBUTTONDOWN _ _ _ => True
  | _ => False
  end.

(** * Properties *)

(** ** Loops *)

Lemma for_loop_ind {St : Type} (P : Z → St → Prop) (body : Z → St → St) :
  ∀ (n : nat) (i : Z) (s : St),
    P i s →
    (∀ j t, i ≤ j < i + Z.of_nat n → P j t → P (j + 1) (body j t)) →
    P (i + Z.of_nat n) (for_loop n i body s).
Proof.
  induction n as [|n IH]; intros i s Hs Hstep.
  - simpl. now replace (i + Z.of_nat 0) with i by lia.
  - cbn [for_loop].
    replace (i + Z.of_nat (S n)) with ((i + 1) + Z.of_nat n) by lia.
    apply IH.
    + apply Hstep; [lia | exact Hs].
    + intros j t Hj. apply Hstep. lia.
Qed.

Lemma for_range_ind {St : Type} (P : Z → St → Prop) (lo hi : Z)
    (body : Z → St → St) (s : St) :
  lo ≤ hi →
  P lo s →
  (∀ j t, lo ≤ j < hi → P j t → P (j + 1) (body j t)) →
  P hi (for_range lo hi body s).
Proof.
  intros Hle Hs Hstep. unfold for_range.
  replace hi with (lo + Z.of_nat (Z.to_nat (hi - lo))) at 1 by lia.
  apply for_loop_ind; [exact Hs |].
  intros j t Hj. apply Hstep. lia.
Qed.

Lemma for_range_empty {St : Type} (lo hi : Z) (body : Z → St → St) (s : St) :
  hi ≤ lo → for_range lo hi body s = s.
Proof.
  intros H. unfold for_range. now replace (Z.to_nat (hi - lo)) with O by lia.
Qed.

(** ** Buffers and cell indices *)

Lemma buf_set_length (buf : list Z) (i v : Z) :
  length (buf_set buf i v) = length buf.
Proof. unfold buf_set. case_decide; [apply length_insert | reflexivity]. Qed.

Lemma buf_at_set_eq (buf : list Z) (i v : Z) :
  0 ≤ i < Z.of_nat (length buf) → buf_at (buf_set buf i v) i = v.
Proof.
  intros Hi. unfold buf_at, buf_set. rewrite !decide_True by lia.
  rewrite list_lookup_insert_eq by lia. reflexivity.
Qed.

Lemma buf_at_set_ne (buf : list Z) (i j v : Z) :
  i ≠ j → 0 ≤ i → buf_at (buf_set buf i v) j = buf_at buf j.
Proof.
  intros Hne Hi. unfold buf_at, buf_set. rewrite (decide_True _ _ Hi).
  case_decide; [| reflexivity].
  rewrite list_lookup_insert_ne by lia. reflexivity.
Qed.

Lemma buf_at_lookup (buf : list Z) (i : Z) :
  0 ≤ i < Z.of_nat (length buf) → buf !! Z.to_nat i = Some (buf_at buf i).
Proof.
  intros Hi. unfold buf_at. rewrite decide_True by lia.
  destruct (buf !! Z.to_nat i) as [v |] eqn:Hv; [reflexivity |].
  apply lookup_ge_None in Hv. lia.
Qed.

Lemma buf_at_valid (cells : list Z) (i : Z) :
  Forall valid_index cells → 0 ≤ i < Z.of_nat (length cells) →
  valid_index (buf_at cells i).
Proof.
  intros Hall Hi. unfold buf_at. rewrite decide_True by lia.
  destruct (cells !! Z.to_nat i) as [v |] eqn:Hv.
  - rewrite Forall_lookup in Hall. exact (Hall _ _ Hv).
  - apply lookup_ge_None in Hv. lia.
Qed.

Lemma buf_at_fmap_seqZ (f : Z → Z) (n i : Z) :
  0 ≤ i < n → buf_at (f <$> seqZ 0 n) i = f i.
Proof.
  intros Hi. unfold buf_at. rewrite decide_True by lia.
  rewrite list_lookup_fmap, lookup_seqZ_lt by lia.
  cbn. f_equal. lia.
Qed.

Lemma cell_index_inj (w x y x' y' : Z) :
  0 ≤ x < w → 0 ≤ x' < w → y * w + x = y' * w + x' → x = x' ∧ y = y'.
Proof. intros Hx Hx' Heq. assert (y = y') by nia. subst. lia. Qed.

Lemma cell_index_bound (w h x y : Z) :
  0 ≤ x < w → 0 ≤ y < h → 0 ≤ y * w + x < w * h.
Proof. intros Hx Hy. nia. Qed.

Lemma quot_cell (p S n : Z) : 1 ≤ S → 0 ≤ p < n * S → 0 ≤ p ÷ S < n.
Proof.
  intros HS Hp. rewrite Z.quot_div_nonneg by lia. split.
  - apply Z.div_pos; lia.
  - apply Z.div_lt_upper_bound; lia.
Qed.

(** ** Row-major fills

    Both nested loops of the program, the one of the export and the one
    of the import, visit every [(x, y)] of a [w] by [h] rectangle once and
    store at [y*w + x] a value that does not depend on the buffer being
    filled. *)
Section Fill2D.
Context {St : Type}.
Variable rd : St → Z → Z.
Variable body : Z → Z → St → St.
Variable w h : Z.
Variable f : Z → Z → Z.
Variable I : St → Prop.

Hypothesis body_inv : ∀ y x s, 0 ≤ x < w → 0 ≤ y < h → I s → I (body y x s).
Hypothesis body_eq : ∀ y x s, 0 ≤ x < w → 0 ≤ y < h → I s →
  rd (body y x s) (y * w + x) = f y x.
Hypothesis body_ne : ∀ y x s j, 0 ≤ x < w → 0 ≤ y < h → I s →
  j ≠ y * w + x → rd (body y x s) j = rd s j.

Lemma fill_row (s0 : St) (y : Z) (s : St) :
  0 ≤ w → 0 ≤ y < h → row_inv rd w h f I s0 y 0 s →
  row_inv rd w h f I s0 y w (for_range 0 w (λ x s2, body y x s2) s).
Proof using body_inv body_eq body_ne.
  intros Hw Hy Hs.
  apply (for_range_ind (row_inv rd w h f I s0 y)); [assumption | assumption |].
  intros x t Hx (HI & Hdone & Hrow & Hout).
  split; [now apply body_inv |]. split; [| split].
  - intros x' y' Hx' Hy'. rewrite body_ne; try assumption.
    + now apply Hdone.
    + intros Heq. apply cell_index_inj in Heq; lia.
  - intros x' Hx'. destruct (decide (x' = x)) as [-> | Hne].
    + now apply body_eq.
    + rewrite body_ne; try assumption.
      * apply Hrow. lia.
      * intros Heq. lia.
  - intros j Hj. rewrite body_ne; try assumption.
    + now apply Hout.
    + now apply Hj.
Qed.

Lemma fill_rows_spec (s : St) :
  0 ≤ w → 0 ≤ h → I s →
  I (fill_rows body w h s) ∧
  (∀ x y, 0 ≤ x < w → 0 ≤ y < h → rd (fill_rows body w h s) (y * w + x) = f y x) ∧
  (∀ j, (∀ x y, 0 ≤ x < w → 0 ≤ y < h → j ≠ y * w + x) →
        rd (fill_rows body w h s) j = rd s j).
Proof using body_inv body_eq body_ne.
  intros Hw Hh Hs.
  assert (H : row_inv rd w h f I s h 0 (fill_rows body w h s)).
  { unfold fill_rows.
    apply (for_range_ind (λ y t, row_inv rd w h f I s y 0 t)); [assumption | |].
    - split; [assumption |]. split; [| split].
      + intros; lia.
      + intros; lia.
      + reflexivity.
    - intros y t Hy Ht.
      destruct (fill_row s y t Hw Hy Ht) as (HI & Hdone & Hrow & Hout).
      split; [assumption |]. split; [| split].
      + intros x' y' Hx' Hy'. destruct (decide (y' = y)) as [-> | Hne].
        * now apply Hrow.
        * apply Hdone; lia.
      + intros; lia.
      + assumption. }
  destruct H as (HI & Hdone & _ & Hout). auto.
Qed.
End Fill2D.

(** ** The nearest palette entry *)

Lemma palette_at_lookup (pal : list SDL_Color) (i : Z) :
  0 ≤ i < Z.of_nat (length pal) →
  pal !! Z.to_nat i = Some (palette_at pal i).
Proof.
  intros Hi. unfold palette_at. rewrite decide_True by lia.
  apply list_lookup_lookup_total_lt. lia.
Qed.

Lemma palette_at_ok (pal : list SDL_Color) (i : Z) :
  palette_ok pal → 0 ≤ i < PALETTE_COUNT → color_ok (palette_at pal i).
Proof.
  intros [Hlen Hall] Hi.
  rewrite Forall_lookup in Hall.
  apply (Hall (Z.to_nat i)).
  apply palette_at_lookup. unfold PALETTE_COUNT in *. lia.
Qed.

Lemma rgb_dist2_bound (c p : SDL_Color) :
  color_ok c → color_ok p → 0 ≤ rgb_dist2 c p < INT32_MAX.
Proof.
  unfold color_ok, uint8_ok, rgb_dist2, INT32_MAX.
  intros (Hr & Hg & Hb & _) (Hr' & Hg' & Hb' & _).
  assert (Hsq : ∀ x y, 0 ≤ x < 256 → 0 ≤ y < 256 → 0 ≤ (x - y) ^ 2 ≤ 65025).
  { intros x y Hx Hy. rewrite Z.pow_2_r, <- Z.abs_square.
    assert (0 ≤ Z.abs (x - y) ≤ 255) as [H0 H1] by lia.
    split; [apply Z.mul_nonneg_nonneg; lia |].
    change 65025 with (255 * 255). apply Z.mul_le_mono_nonneg; lia. }
  pose proof (Hsq _ _ Hr Hr'). pose proof (Hsq _ _ Hg Hg'). pose proof (Hsq _ _ Hb Hb').
  lia.
Qed.

Lemma rgb_dist2_zero (c p : SDL_Color) :
  rgb_dist2 c p = 0 ↔ same_rgb c p.
Proof.
  unfold rgb_dist2, same_rgb. rewrite !Z.pow_2_r. split.
  - intros H.
    pose proof (Z.square_nonneg (r c - r p)) as Hr.
    pose proof (Z.square_nonneg (g c - g p)) as Hg.
    pose proof (Z.square_nonneg (b c - b p)) as Hb.
    assert (Hr0 : (r c - r p) * (r c - r p) = 0) by lia.
    assert (Hg0 : (g c - g p) * (g c - g p) = 0) by lia.
    assert (Hb0 : (b c - b p) * (b c - b p) = 0) by lia.
    apply Z.mul_eq_0 in Hr0, Hg0, Hb0. lia.
  - intros (-> & -> & ->). lia.
Qed.

Lemma rgb_dist2_nonneg (c p : SDL_Color) : 0 ≤ rgb_dist2 c p.
Proof.
  unfold rgb_dist2. rewrite !Z.pow_2_r.
  pose proof (Z.square_nonneg (r c - r p)).
  pose proof (Z.square_nonneg (g c - g p)).
  pose proof (Z.square_nonneg (b c - b p)). lia.
Qed.

Lemma nearest_step_dist (pal : list SDL_Color) (c : SDL_Color) (i best bestd : Z) :
  nearest_step pal c i (best, bestd) =
  if rgb_dist2 c (palette_at pal i) <? bestd
  then (i, rgb_dist2 c (palette_at pal i)) else (best, bestd).
Proof.
  unfold nearest_step, rgb_dist2. now rewrite !Z.pow_2_r.
Qed.

Lemma nearest_inv_step (pal : list SDL_Color) (c : SDL_Color) (i : Z) (s : Z * Z) :
  palette_ok pal → color_ok c → 0 ≤ i < PALETTE_COUNT →
  nearest_inv pal c i s → nearest_inv pal c (i + 1) (nearest_step pal c i s).
Proof.
  intros Hpal Hc Hi Hinv. destruct s as [best bestd].
  pose proof (rgb_dist2_bound c _ Hc (palette_at_ok pal i Hpal Hi)) as Hd.
  rewrite nearest_step_dist. right.
  destruct Hinv as [[-> [= -> ->]] | (Hpos & Hb & Hbd & Hmin & Hlow)]; cbn [fst snd] in *.
  - rewrite (proj2 (Z.ltb_lt _ _)) by lia. cbn [fst snd].
    repeat split; try lia.
    intros j Hj. replace j with 0 by lia. lia.
  - destruct (Z.ltb_spec (rgb_dist2 c (palette_at pal i)) bestd) as [Hlt | Hge]; cbn [fst snd].
    + repeat split; try lia.
      * intros j Hj. destruct (decide (j = i)) as [-> | Hne]; [lia |].
        specialize (Hmin j). lia.
      * intros j Hj. specialize (Hmin j). lia.
    + repeat split; try lia.
      * intros j Hj. destruct (decide (j = i)) as [-> | Hne]; [lia |].
        apply Hmin. lia.
      * exact Hlow.
Qed.

Lemma nearest_inv_final (pal : list SDL_Color) (c : SDL_Color) :
  palette_ok pal → color_ok c →
  nearest_inv pal c PALETTE_COUNT
    (for_range 0 PALETTE_COUNT (nearest_step pal c) (0, INT32_MAX)).
Proof.
  intros Hpal Hc.
  apply (for_range_ind (nearest_inv pal c)).
  - unfold PALETTE_COUNT. lia.
  - now left.
  - intros j t Hj Hinv. now apply nearest_inv_step.
Qed.

(** The result is an index of the palette whatever the colors are. *)
Lemma nearest_palette_index_range (pal : list SDL_Color) (c : SDL_Color) :
  0 ≤ nearest_palette_index pal c < PALETTE_COUNT.
Proof.
  unfold nearest_palette_index.
  assert (H : (λ i s, 0 ≤ fst s < Z.max i 1) PALETTE_COUNT
                (for_range 0 PALETTE_COUNT (nearest_step pal c) (0, INT32_MAX))).
  { apply for_range_ind.
    - unfold PALETTE_COUNT. lia.
    - cbn. lia.
    - intros j [best bestd] Hj Hs. cbn [fst] in Hs. unfold nearest_step.
      match goal with |- context [if ?t then _ else _] => destruct t end; cbn [fst]; lia. }
  cbn beta in H. unfold PALETTE_COUNT in *. lia.
Qed.

(** The loop reads only the red, green and blue channels of its argument. *)
Lemma nearest_palette_index_alpha (pal : list SDL_Color) (c : SDL_Color) (x : Z) :
  nearest_palette_index pal (with_alpha c x) = nearest_palette_index pal c.
Proof. reflexivity. Qed.

(** The index returned is in range, its distance is minimal, and every
    lower index is strictly farther. *)
Lemma nearest_palette_index_min (pal : list SDL_Color) (c : SDL_Color) :
  palette_ok pal → color_ok c →
  let k := nearest_palette_index pal c in
  0 ≤ k < PALETTE_COUNT ∧
  (∀ j, 0 ≤ j < PALETTE_COUNT →
     rgb_dist2 c (palette_at pal k) ≤ rgb_dist2 c (palette_at pal j)) ∧
  (∀ j, 0 ≤ j < k →
     rgb_dist2 c (palette_at pal k) < rgb_dist2 c (palette_at pal j)).
Proof.
  intros Hpal Hc k.
  pose proof (nearest_palette_index_range pal c) as Hk. fold k in Hk.
  pose proof (nearest_inv_final pal c Hpal Hc) as Hinv.
  unfold nearest_palette_index in k.
  destruct Hinv as [[H0 _] | (_ & _ & Hbd & Hmin & Hlow)]; [discriminate H0 |].
  fold k in Hbd, Hmin, Hlow. rewrite Hbd in Hmin, Hlow.
  split; [lia |]. split; [exact Hmin | exact Hlow].
Qed.

(** C3: [nearest_palette_index] returns an index of the palette at which the
    squared distance over red, green and blue is minimal, the lowest such
    index; the alpha of the argument plays no role; on a color that has the
    red, green and blue of some entry it returns the lowest index with those,
    which is that entry's own index when no two entries share them. *)
Theorem nearest_palette_index_spec (pal : list SDL_Color) (c : SDL_Color) :
  palette_ok pal → color_ok c →
  let k := nearest_palette_index pal c in
  0 ≤ k < PALETTE_COUNT ∧
  (∀ j, 0 ≤ j < PALETTE_COUNT →
     rgb_dist2 c (palette_at pal k) ≤ rgb_dist2 c (palette_at pal j)) ∧
  (∀ j, 0 ≤ j < k →
     rgb_dist2 c (palette_at pal k) < rgb_dist2 c (palette_at pal j)) ∧
  (∀ x, nearest_palette_index pal (with_alpha c x) = k) ∧
  (∀ j, 0 ≤ j < PALETTE_COUNT → same_rgb c (palette_at pal j) →
     same_rgb c (palette_at pal k) ∧ k ≤ j) ∧
  (distinct_rgb pal →
     ∀ j, 0 ≤ j < PALETTE_COUNT → same_rgb c (palette_at pal j) → k = j).
Proof.
  intros Hpal Hc k.
  destruct (nearest_palette_index_min pal c Hpal Hc) as (Hk & Hmin & Hlow).
  fold k in Hk, Hmin, Hlow.
  assert (Hsame : ∀ j, 0 ≤ j < PALETTE_COUNT → same_rgb c (palette_at pal j) →
                       same_rgb c (palette_at pal k) ∧ k ≤ j).
  { intros j Hj Hs. apply rgb_dist2_zero in Hs.
    pose proof (Hmin j Hj) as Hle. pose proof (rgb_dist2_nonneg c (palette_at pal k)) as H0.
    split.
    - apply rgb_dist2_zero. lia.
    - destruct (Z.le_gt_cases k j) as [|Hgt]; [assumption |].
      specialize (Hlow j). lia. }
  split; [lia |]. split; [exact Hmin |]. split; [exact Hlow |].
  split; [intros x; apply nearest_palette_index_alpha |].
  split; [exact Hsame |].
  intros Hdist j Hj Hs. destruct (Hsame j Hj Hs) as [(Hr & Hg & Hb) _].
  destruct Hs as (Hr' & Hg' & Hb').
  apply Hdist; [lia | lia |]. unfold same_rgb. repeat split; congruence.
Qed.

Lemma init_default_palette_ok : palette_ok init_default_palette.
Proof.
  split; [reflexivity |].
  unfold init_default_palette.
  repeat (apply Forall_cons; split;
          [unfold color_ok, uint8_ok; cbn [r g b a]; lia |]).
  apply Forall_nil_2.
Qed.

Lemma nearest_palette_index_spec_witness :
  let c := mkColor 250 10 10 255 in
  let k := nearest_palette_index init_default_palette c in
  0 ≤ k < PALETTE_COUNT ∧
  (∀ j, 0 ≤ j < PALETTE_COUNT →
     rgb_dist2 c (palette_at init_default_palette k)
     ≤ rgb_dist2 c (palette_at init_default_palette j)).
Proof.
  intros c k.
  assert (Hc : color_ok c) by (unfold color_ok, uint8_ok; cbn [r g b a c]; lia).
  pose proof (nearest_palette_index_spec init_default_palette c
                init_default_palette_ok Hc) as H.
  cbv zeta in H. split; [apply H | apply H].
Defined.


Lemma init_default_palette_distinct : distinct_rgb init_default_palette.
Proof.
  intros i j Hi Hj Hsame. unfold PALETTE_COUNT in *.
  assert (Hcases : ∀ n, 0 ≤ n < 12 →
            n = 0 ∨ n = 1 ∨ n = 2 ∨ n = 3 ∨ n = 4 ∨ n = 5 ∨ n = 6 ∨ n = 7
            ∨ n = 8 ∨ n = 9 ∨ n = 10 ∨ n = 11) by (intros; lia).
  destruct (Hcases i Hi) as [-> | [-> | [-> | [-> | [-> | [-> | [-> | [-> | [-> | [-> | [-> | ->]]]]]]]]]]];
  destruct (Hcases j Hj) as [-> | [-> | [-> | [-> | [-> | [-> | [-> | [-> | [-> | [-> | [-> | ->]]]]]]]]]]];
    try reflexivity;
    destruct Hsame as (Hr & Hg & Hb); vm_compute in Hr, Hg, Hb; congruence.
Qed.

(** ** The canvas: clear, read and paint *)

Lemma canvas_valid_sized (gl : Globals) : canvas_valid gl → canvas_sized gl.
Proof. intros (cells & Hc & Hlen & _). exists cells. auto. Qed.

Lemma wrap8_valid (v : Z) : valid_index v → wrap8 v = v.
Proof.
  unfold valid_index, PALETTE_COUNT, wrap8. intros Hv.
  apply Z.mod_small. lia.
Qed.

Lemma memset0_length (buf : list Z) (n : Z) :
  (Z.to_nat n ≤ length buf)%nat → length (memset0 buf n) = length buf.
Proof.
  intros Hn. unfold memset0.
  rewrite length_app, length_replicate, length_drop. lia.
Qed.


Lemma memset0_valid (buf : list Z) (n : Z) :
  Forall valid_index buf → Forall valid_index (memset0 buf n).
Proof.
  intros Hbuf. unfold memset0. apply Forall_app. split.
  - apply Forall_replicate. unfold valid_index, PALETTE_COUNT. lia.
  - now apply Forall_drop.
Qed.

Lemma ensure_canvas_allocated_sized (env : Env) (gl : Globals) :
  canvas_sized gl → ensure_canvas_allocated env gl = Ok gl.
Proof.
  intros (cells & Hc & _). unfold ensure_canvas_allocated. now rewrite Hc.
Qed.

Lemma clear_canvas_sized (env : Env) (gl : Globals) (cells : list Z) :
  canvas gl = Some cells →
  clear_canvas env gl =
  Ok (set_canvas gl (Some (memset0 cells (CELLS_X gl * CELLS_Y gl)))).
Proof.
  intros Hc. unfold clear_canvas, ensure_canvas_allocated. rewrite Hc.
  cbn [fmap option_fmap option_map]. rewrite Hc. reflexivity.
Qed.



Lemma canvas_at_some (gl : Globals) (cells : list Z) (i : Z) :
  canvas gl = Some cells → canvas_at gl i = buf_at cells i.
Proof. intros Hc. unfold canvas_at. now rewrite Hc. Qed.

Lemma canvas_store_get_eq (gl : Globals) (x y v : Z) :
  canvas_sized gl → 0 ≤ x < CELLS_X gl → 0 ≤ y < CELLS_Y gl →
  get (canvas_store gl (y * CELLS_X gl + x) v) x y = wrap8 v.
Proof.
  intros (cells & Hc & Hlen) Hx Hy.
  unfold get, canvas_at, canvas_store. rewrite Hc.
  cbn [canvas set_canvas CELLS_X fmap option_fmap option_map default].
  apply buf_at_set_eq.
  pose proof (cell_index_bound _ _ _ _ Hx Hy). lia.
Qed.

Lemma canvas_store_get_ne (gl : Globals) (i x y v : Z) :
  0 ≤ i → i ≠ y * CELLS_X gl + x →
  get (canvas_store gl i v) x y = get gl x y.
Proof.
  intros Hi Hne. unfold get, canvas_at, canvas_store.
  destruct (canvas gl) as [cells |] eqn:Hc;
    cbn [canvas set_canvas CELLS_X fmap option_fmap option_map default].
  - now apply buf_at_set_ne.
  - reflexivity.
Qed.

Lemma canvas_at_store_eq (gl : Globals) (i v : Z) (cells : list Z) :
  canvas gl = Some cells → 0 ≤ i < Z.of_nat (length cells) →
  canvas_at (canvas_store gl i v) i = wrap8 v.
Proof.
  intros Hc Hi. unfold canvas_at, canvas_store. rewrite Hc.
  cbn [canvas set_canvas fmap option_fmap option_map default].
  now apply buf_at_set_eq.
Qed.

Lemma canvas_at_store_ne (gl : Globals) (i j v : Z) :
  0 ≤ i → j ≠ i → canvas_at (canvas_store gl i v) j = canvas_at gl j.
Proof.
  intros Hi Hne. unfold canvas_at, canvas_store.
  destruct (canvas gl) as [cells |];
    cbn [canvas set_canvas fmap option_fmap option_map default].
  - apply buf_at_set_ne; [congruence | assumption].
  - reflexivity.
Qed.

Lemma canvas_store_settings (gl : Globals) (i v : Z) :
  same_settings gl (canvas_store gl i v).
Proof. repeat split. Qed.

Lemma canvas_store_sized (gl : Globals) (i v : Z) :
  canvas_sized gl → canvas_sized (canvas_store gl i v).
Proof.
  intros (cells & Hc & Hlen).
  exists (buf_set cells i (wrap8 v)). unfold canvas_store. rewrite Hc.
  cbn [canvas set_canvas CELLS_X CELLS_Y fmap option_fmap option_map].
  split; [reflexivity | now rewrite buf_set_length].
Qed.

Lemma canvas_store_valid (gl : Globals) (i v : Z) :
  canvas_valid gl → valid_index v → canvas_valid (canvas_store gl i v).
Proof.
  intros (cells & Hc & Hlen & Hall) Hv.
  exists (buf_set cells i (wrap8 v)). unfold canvas_store. rewrite Hc.
  cbn [canvas set_canvas CELLS_X CELLS_Y fmap option_fmap option_map].
  split; [reflexivity |]. split; [now rewrite buf_set_length |].
  unfold buf_set. case_decide; [| assumption].
  apply Forall_insert; [assumption |]. now rewrite wrap8_valid.
Qed.


Lemma same_settings_refl (gl : Globals) : same_settings gl gl.
Proof. repeat split. Qed.

Lemma same_settings_trans (gl1 gl2 gl3 : Globals) :
  same_settings gl1 gl2 → same_settings gl2 gl3 → same_settings gl1 gl3.
Proof. unfold same_settings. intuition congruence. Qed.

Lemma in_grid_true (gl : Globals) (cx cy : Z) :
  0 ≤ cx < CELLS_X gl → 0 ≤ cy < CELLS_Y gl →
  (0 <=? cx) && (cx <? CELLS_X gl) && (0 <=? cy) && (cy <? CELLS_Y gl) = true.
Proof.
  intros Hx Hy. rewrite !andb_true_iff, !Z.leb_le, !Z.ltb_lt. lia.
Qed.

Lemma in_grid_false (gl : Globals) (cx cy : Z) :
  ¬ (0 ≤ cx < CELLS_X gl ∧ 0 ≤ cy < CELLS_Y gl) →
  (0 <=? cx) && (cx <? CELLS_X gl) && (0 <=? cy) && (cy <? CELLS_Y gl) = false.
Proof.
  intros Hn. apply not_true_iff_false. intros Ht. apply Hn.
  rewrite !andb_true_iff, !Z.leb_le, !Z.ltb_lt in Ht. lia.
Qed.

(** C7: inside of the grid, the press of the left button stores the current
    color [i] in the cell so that reading the cell gives [i], and leaves the
    other cells as they were; outside of the grid the handler changes
    nothing, whatever the button, and the press of a button never ends the
    program nor prints anything. *)
Theorem paint_cell_spec (env : Env) (st : Main) (i cx cy : Z) :
  canvas_sized (globals st) → valid_index i →
  let gl := set_current_color (globals st) i in
  (0 ≤ cx < CELLS_X gl → 0 ≤ cy < CELLS_Y gl →
     get (paint_cell gl SDL_BUTTON_LEFT cx cy) cx cy = i ∧
     ∀ x y, 0 ≤ x < CELLS_X gl → 0 ≤ y < CELLS_Y gl → (x, y) ≠ (cx, cy) →
       get (paint_cell gl SDL_BUTTON_LEFT cx cy) x y = get gl x y) ∧
  (¬ (0 ≤ cx < CELLS_X gl ∧ 0 ≤ cy < CELLS_Y gl) →
     ∀ button, paint_cell gl button cx cy = gl) ∧
  (∀ button mx my,
     ∃ st', handle_event env (SDL_MOUSEBUTTONDOWN button mx my) st = Ok st' ∧
            out st' = out st ∧
            (mx < CELLS_X (globals st) * CELL_SIZE (globals st) →
             globals st' = paint_cell (globals st) button
                             (mx ÷ CELL_SIZE (globals st)) (my ÷ CELL_SIZE (globals st)))).
Proof.
  intros Hsized Hi gl.
  assert (Hsized' : canvas_sized gl).
  { destruct Hsized as (cells & Hc & Hlen). now exists cells. }
  split; [| split].
  - intros Hx Hy. unfold paint_cell. rewrite in_grid_true by assumption.
    change (SDL_BUTTON_LEFT =? SDL_BUTTON_LEFT) with true. cbv iota.
    split.
    + rewrite canvas_store_get_eq by assumption.
      cbn [current_color gl set_current_color]. now apply wrap8_valid.
    + intros x y Hx' Hy' Hne. apply canvas_store_get_ne.
      * pose proof (cell_index_bound _ _ _ _ Hx Hy). lia.
      * intros Heq. apply cell_index_inj in Heq; [| assumption | assumption].
        destruct Heq as [-> ->]. now apply Hne.
  - intros Hout button. unfold paint_cell. now rewrite in_grid_false.
  - intros button mx my. cbn [handle_event].
    cbn [globals set_mouse].
    destruct (mx <? CELLS_X (globals st) * CELL_SIZE (globals st)) eqn:Hmx.
    + eexists. split; [reflexivity |]. split; [reflexivity |].
      intros _. reflexivity.
    + eexists. split; [reflexivity |]. split; [reflexivity |].
      intros Hlt. apply Z.ltb_ge in Hmx. lia.
Qed.

Lemma paint_cell_spec_witness :
  let env := mkEnv SDL_LIL_ENDIAN (λ _, true) (λ _ _, true) (λ _, true) true in
  let st := mkMain (mkGlobals 2 2 16 (Some [0; 0; 0; 0]) init_default_palette 1 1)
                   1 0 0 ∅ [] [] in
  get (paint_cell (set_current_color (globals st) 5) SDL_BUTTON_LEFT 1 1) 1 1 = 5.
Proof.
  intros env st.
  assert (Hs : canvas_sized (globals st)) by (exists [0; 0; 0; 0]; split; reflexivity).
  assert (Hi : valid_index 5) by (unfold valid_index, PALETTE_COUNT; lia).
  refine (proj1 (proj1 (paint_cell_spec env st 5 1 1 Hs Hi) _ _));
    cbn [CELLS_X CELLS_Y set_current_color globals st]; lia.
Defined.

(** From the pointer to the cell the handlers divide with truncation
    toward zero: a pointer less than one cell to the left of the grid or
    above it still lands in column 0 or row 0. *)
Lemma paint_at_negative_pointer :
  let gl := mkGlobals 2 2 16 (Some [0; 0; 0; 0]) init_default_palette 1 1 in
  (-5) ÷ CELL_SIZE gl = 0 ∧
  canvas (paint_at gl SDL_BUTTON_LEFT (-5) 3) = Some [1; 0; 0; 0].
Proof. split; reflexivity. Qed.

(** ** Display size *)

(** C9: the keys that shrink and grow the cells on screen leave the canvas
    (pointer and cells), the palette, the current color and the grid
    dimensions as they were, in every state; all they send out is the new
    window size, and they allocate nothing. *)
Theorem resize_display_only (env : Env) (st : Main) :
  (∃ st', handle_event env (SDL_KEYDOWN SDLK_LEFTBRACKET) st = Ok st' ∧
          display_only st st' ∧
          CELL_SIZE (globals st') =
            (if 4 <? CELL_SIZE (globals st) then CELL_SIZE (globals st) - 1
             else CELL_SIZE (globals st)) ∧
          out st' = out st ++ [window_resize (globals st')]) ∧
  (∃ st', handle_event env (SDL_KEYDOWN SDLK_RIGHTBRACKET) st = Ok st' ∧
          display_only st st' ∧
          CELL_SIZE (globals st') = CELL_SIZE (globals st) + 1 ∧
          out st' = out st ++ [window_resize (globals st')]).
Proof.
  split.
  - eexists. split; [reflexivity |].
    cbn [globals emit set_globals out].
    split; [| split; [| reflexivity]].
    + destruct (4 <? _); repeat split.
    + destruct (4 <? _); reflexivity.
  - eexists. split; [reflexivity |].
    cbn [globals emit set_globals out]. repeat split.
Qed.

(** ** Pixel words and channels *)







(** ** Export: every pixel is the packed color of its cell *)




(** The export returns, leaves the globals alone, and touches the file
    system only when it succeeds. *)
Lemma save_canvas_as_bmp_frame (env : Env) (filename : string) (gl : Globals)
    (files : gmap string File) :
  canvas_sized gl →
  ∃ rc files', save_canvas_as_bmp env filename gl files = Ok (rc, gl, files') ∧
               (rc ≠ 0 → files' = files).
Proof.
  intros Hs. unfold save_canvas_as_bmp.
  rewrite (ensure_canvas_allocated_sized env gl Hs). cbv zeta.
  destruct (alloc_ok env _); cbn [negb].
  - destruct (surface_ok env _ _); cbn [negb].
    + unfold SDL_SaveBMP. destruct (writable env filename).
      * eexists _, _. split; [reflexivity |]. intros H. now contradiction H.
      * eexists _, _. split; [reflexivity |]. reflexivity.
    + eexists _, _. split; [reflexivity |]. reflexivity.
  - eexists _, _. split; [reflexivity |]. reflexivity.
Qed.



(** ** Import: the sample point and the bytes read there *)

Lemma clamp_coord_range (s dim : Z) : 1 ≤ dim → 0 ≤ clamp_coord s dim < dim.
Proof.
  intros Hdim. unfold clamp_coord.
  destruct (Z.ltb_spec s 0); destruct (Z.geb_spec 0 dim);
    try destruct (Z.geb_spec s dim); lia.
Qed.


Lemma clamp_coord_id (s dim : Z) : 0 ≤ s < dim → clamp_coord s dim = s.
Proof.
  intros Hs. unfold clamp_coord.
  destruct (Z.ltb_spec s 0); [lia |]. destruct (Z.geb_spec s dim); lia.
Qed.



(** The arithmetic is that of doubles: with 49 cells over 98 pixels the
    exact sample point of cell 0 is 1, and the code computes
    [0.9999999999999999] and samples pixel 0. *)
Lemma sample_coord_rounding :
  sample_coord 0 49 98 = 0 ∧ floor_sample_coord 0 49 98 = 0 ∧
  (2 * 0 + 1) * 98 / (2 * 49) = 1.
Proof. repeat split; vm_compute; reflexivity. Qed.

Lemma rgb24_pitch_bound (w : Z) : 0 ≤ w → 3 * w ≤ rgb24_pitch w.
Proof. intros Hw. unfold rgb24_pitch. Z.div_mod_to_equations. lia. Qed.

(** The three bytes at [sy * pitch + sx * 3] of the converted surface are
    the red, green and blue of pixel [(sx, sy)]. *)
Lemma rgb24_read (img : Image) (sx sy k : Z) :
  0 ≤ sx < img_width img → 0 ≤ sy < img_height img → 0 ≤ k < 3 →
  let pitch := rgb24_pitch (img_width img) in
  buf_at (rgb24_byte img <$> seqZ 0 (pitch * img_height img))
         (sy * pitch + sx * 3 + k)
  = let c := img_pixel img sx sy in
    if k =? 0 then r c else if k =? 1 then g c else b c.
Proof.
  intros Hx Hy Hk pitch.
  pose proof (rgb24_pitch_bound (img_width img)) as Hp. fold pitch in Hp.
  assert (Hoff : 0 ≤ sx * 3 + k < pitch) by lia.
  rewrite buf_at_fmap_seqZ by nia.
  unfold rgb24_byte. fold pitch. cbv zeta.
  assert (Hdiv : (sy * pitch + sx * 3 + k) / pitch = sy).
  { symmetry. apply (Z.div_unique _ _ _ (sx * 3 + k)); [left; lia | lia]. }
  assert (Hmod : (sy * pitch + sx * 3 + k) mod pitch = sx * 3 + k).
  { symmetry. apply (Z.mod_unique _ _ sy); [left; lia | lia]. }
  rewrite Hdiv, Hmod.
  assert (Hx3 : (sx * 3 + k) / 3 = sx) by (Z.div_mod_to_equations; lia).
  assert (Hk3 : (sx * 3 + k) mod 3 = k) by (Z.div_mod_to_equations; lia).
  rewrite Hx3, Hk3.
  now rewrite (proj2 (Z.ltb_lt _ _)) by lia.
Qed.

Lemma convert_rgb24_some (env : Env) (img : Image) (fmt : Surface24) :
  SDL_ConvertSurfaceFormat_RGB24 env img = Some fmt →
  fmt = mkSurface24 (img_width img) (img_height img) (rgb24_pitch (img_width img))
          (rgb24_byte img <$> seqZ 0 (rgb24_pitch (img_width img) * img_height img)).
Proof.
  unfold SDL_ConvertSurfaceFormat_RGB24.
  destruct (surface_ok env _ _); [| discriminate]. now intros [= <-].
Qed.

(** The color that the import reads for a cell is the pixel of the image
    at the clamped sample point, made opaque. *)
Lemma sample_color_pixel (env : Env) (img : Image) (fmt : Surface24)
    (cells_x cells_y cx cy : Z) :
  SDL_ConvertSurfaceFormat_RGB24 env img = Some fmt →
  1 ≤ img_width img → 1 ≤ img_height img →
  sample_color fmt cells_x cells_y cx cy =
  with_alpha
    (img_pixel img
       (clamp_coord (sample_coord cx cells_x (img_width img)) (img_width img))
       (clamp_coord (sample_coord cy cells_y (img_height img)) (img_height img)))
    255.
Proof.
  intros Hconv Hw Hh. rewrite (convert_rgb24_some env img fmt Hconv).
  unfold sample_color. cbn [w24 h24 pitch24 pixels24].
  set (sx := clamp_coord _ (img_width img)).
  set (sy := clamp_coord _ (img_height img)).
  assert (Hsx : 0 ≤ sx < img_width img) by (apply clamp_coord_range; lia).
  assert (Hsy : 0 ≤ sy < img_height img) by (apply clamp_coord_range; lia).
  pose proof (rgb24_read img sx sy 0 Hsx Hsy) as H0.
  pose proof (rgb24_read img sx sy 1 Hsx Hsy) as H1.
  pose proof (rgb24_read img sx sy 2 Hsx Hsy) as H2.
  cbv zeta in H0, H1, H2. rewrite Z.add_0_r in H0.
  rewrite H0, H1, H2 by lia. reflexivity.
Qed.

Lemma SDL_LoadBMP_some (env : Env) (files : gmap string File) (filename : string)
    (img : Image) :
  SDL_LoadBMP env files filename = Some img →
  files !! filename = Some (BmpFile img) ∧
  surface_ok env (img_width img) (img_height img) = true.
Proof.
  unfold SDL_LoadBMP.
  destruct (files !! filename) as [[img' |] |]; try discriminate.
  destruct (_ && _); [discriminate |].
  destruct (surface_ok env _ _) eqn:Hok; [| discriminate].
  intros [= <-]. auto.
Qed.

Lemma load_cells_spec (fmt : Surface24) (gl : Globals) :
  0 ≤ CELLS_X gl → 0 ≤ CELLS_Y gl → canvas_sized gl →
  same_settings gl (load_cells fmt gl) ∧
  canvas_sized (load_cells fmt gl) ∧
  (canvas_valid gl → canvas_valid (load_cells fmt gl)) ∧
  ∀ x y, 0 ≤ x < CELLS_X gl → 0 ≤ y < CELLS_Y gl →
    get (load_cells fmt gl) x y =
    nearest_palette_index (palette gl)
      (sample_color fmt (CELLS_X gl) (CELLS_Y gl) x y).
Proof.
  intros Hw Hh Hsized.
  pose (I := λ s : Globals,
          same_settings gl s ∧ canvas_sized s ∧ (canvas_valid gl → canvas_valid s)).
  pose (f := λ y x : Z,
          nearest_palette_index (palette gl)
            (sample_color fmt (CELLS_X gl) (CELLS_Y gl) x y)).
  destruct (fill_rows_spec canvas_at (load_cell fmt) (CELLS_X gl) (CELLS_Y gl) f I)
    with (s := gl) as ((Hset & Hsz & Hval) & Hget & _).
  - intros y x s Hx Hy (Hset & Hsz & Hval). unfold load_cell. split; [| split].
    + eapply same_settings_trans; [exact Hset | apply canvas_store_settings].
    + now apply canvas_store_sized.
    + intros Hv. apply canvas_store_valid; [now apply Hval |].
      apply nearest_palette_index_range.
  - intros y x s Hx Hy (Hset & (cells & Hc & Hlen) & _).
    destruct Hset as (HX & HY & _ & HP & _).
    unfold load_cell. rewrite HX, HY, HP.
    rewrite (canvas_at_store_eq s _ _ cells Hc).
    + apply wrap8_valid, nearest_palette_index_range.
    + rewrite HX, HY in Hlen. pose proof (cell_index_bound _ _ _ _ Hx Hy). lia.
  - intros y x s j Hx Hy (Hset & _) Hne.
    destruct Hset as (HX & _). unfold load_cell. rewrite HX.
    apply canvas_at_store_ne; [| assumption].
    pose proof (cell_index_bound _ _ _ _ Hx Hy). lia.
  - assumption.
  - assumption.
  - split; [apply same_settings_refl | split; [assumption | auto]].
  - fold (load_cells fmt gl) in *.
    split; [assumption |]. split; [assumption |]. split; [assumption |].
    intros x y Hx Hy. unfold get.
    destruct Hset as (HX & _). rewrite HX. now apply Hget.
Qed.

Lemma load_bmp_to_canvas_cases (env : Env) (files : gmap string File)
    (filename : string) (gl : Globals) :
  load_bmp_to_canvas env files filename gl = (-1, gl) ∨
  ∃ fmt, load_bmp_to_canvas env files filename gl = (0, load_cells fmt gl).
Proof.
  unfold load_bmp_to_canvas.
  destruct (SDL_LoadBMP env files filename) as [img |]; [| now left].
  destruct (SDL_ConvertSurfaceFormat_RGB24 env img) as [fmt |]; [| now left].
  right. now exists fmt.
Qed.

(** The import in the terms of the code: the cast of the sample
    coordinate, then the clamp. *)
Lemma load_bmp_to_canvas_sampled (env : Env) (files : gmap string File)
    (filename : string) (gl : Globals) (img : Image) :
  canvas_sized gl → 0 ≤ CELLS_X gl → 0 ≤ CELLS_Y gl →
  SDL_LoadBMP env files filename = Some img →
  1 ≤ img_width img → 1 ≤ img_height img →
  ∃ gl', load_bmp_to_canvas env files filename gl = (0, gl') ∧
         same_settings gl gl' ∧ canvas_sized gl' ∧
         ∀ cx cy, 0 ≤ cx < CELLS_X gl → 0 ≤ cy < CELLS_Y gl →
           get gl' cx cy =
           nearest_palette_index (palette gl)
             (with_alpha
                (img_pixel img
                   (clamp_coord (sample_coord cx (CELLS_X gl) (img_width img))
                                (img_width img))
                   (clamp_coord (sample_coord cy (CELLS_Y gl) (img_height img))
                                (img_height img)))
                255).
Proof.
  intros Hsized HX HY Hload Hw Hh.
  destruct (SDL_LoadBMP_some env files filename img Hload) as [_ Hsurf].
  unfold load_bmp_to_canvas. rewrite Hload.
  destruct (SDL_ConvertSurfaceFormat_RGB24 env img) as [fmt |] eqn:Hconv.
  2: { unfold SDL_ConvertSurfaceFormat_RGB24 in Hconv. now rewrite Hsurf in Hconv. }
  destruct (load_cells_spec fmt gl HX HY Hsized) as (Hset & Hsz & _ & Hget).
  exists (load_cells fmt gl). split; [reflexivity |]. split; [assumption |].
  split; [assumption |].
  intros cx cy Hcx Hcy. rewrite Hget by assumption.
  now rewrite (sample_color_pixel env img fmt _ _ _ _ Hconv Hw Hh).
Qed.



(** ** Failures *)





(** ** The states the program reaches *)

Lemma globals_ok_settings (gl gl' : Globals) :
  globals_ok gl → same_settings gl gl' → canvas_valid gl' → globals_ok gl'.
Proof.
  intros (HX & HY & _ & Hcc & Hp & HS) (HX' & HY' & HS' & Hp' & Hcc' & _) Hv.
  unfold globals_ok. rewrite HX', HY', HS', Hp', Hcc'. auto 10.
Qed.

Lemma load_cells_ok (fmt : Surface24) (gl : Globals) :
  globals_ok gl → globals_ok (load_cells fmt gl).
Proof.
  intros Hok. pose proof Hok as (HX & HY & Hv & _).
  destruct (load_cells_spec fmt gl) as (Hset & _ & Hval & _);
    [lia | lia | now apply canvas_valid_sized |].
  eapply globals_ok_settings; eauto.
Qed.

Lemma paint_cell_ok (gl : Globals) (button cx cy : Z) :
  globals_ok gl → globals_ok (paint_cell gl button cx cy).
Proof.
  intros Hok. pose proof Hok as (HX & HY & Hv & Hcc & Hp).
  unfold paint_cell.
  destruct (_ && _); [| assumption].
  destruct (button =? SDL_BUTTON_LEFT).
  - eapply globals_ok_settings; [eassumption | apply canvas_store_settings |].
    now apply canvas_store_valid.
  - destruct (button =? SDL_BUTTON_RIGHT); [| assumption].
    eapply globals_ok_settings; [eassumption | apply canvas_store_settings |].
    apply canvas_store_valid; [assumption |].
    unfold valid_index, PALETTE_COUNT. lia.
Qed.

Lemma set_current_color_ok (gl : Globals) (n : Z) :
  globals_ok gl → valid_index n → globals_ok (set_current_color gl n).
Proof.
  intros (HX & HY & Hv & _ & Hp & HS) Hn. unfold globals_ok.
  cbn [CELLS_X CELLS_Y CELL_SIZE current_color palette set_current_color].
  repeat (split; [assumption |]). assumption.
Qed.

Lemma palette_click_ok (gl : Globals) (mx my : Z) :
  globals_ok gl → globals_ok (palette_click gl mx my).
Proof.
  intros Hok. unfold palette_click. cbv zeta.
  destruct (0 <=? _); [| assumption].
  destruct (_ && _) eqn:Hidx; [| assumption].
  apply set_current_color_ok; [assumption |].
  apply andb_true_iff in Hidx as [H0 H1].
  apply Z.leb_le in H0. apply Z.ltb_lt in H1. split; assumption.
Qed.

Lemma clear_canvas_ok (env : Env) (gl gl' : Globals) :
  globals_ok gl → clear_canvas env gl = Ok gl' → globals_ok gl'.
Proof.
  intros Hok Hclear. pose proof Hok as (HX & HY & (cells & Hc & Hlen & Hall) & _).
  rewrite (clear_canvas_sized env gl cells Hc) in Hclear.
  injection Hclear as <-.
  eapply globals_ok_settings; [eassumption | repeat split |].
  eexists. cbn [canvas set_canvas CELLS_X CELLS_Y].
  split; [reflexivity |]. split.
  - rewrite memset0_length; lia.
  - now apply memset0_valid.
Qed.

Lemma handle_key_ok (env : Env) (k : Z) (st st' : Main) :
  globals_ok (globals st) → handle_key env k st = Ok st' → globals_ok (globals st').
Proof.
  intros Hok. unfold handle_key. cbv zeta.
  destruct (k =? SDLK_ESCAPE); [intros [= <-]; assumption |].
  destruct (k =? SDLK_c).
  { destruct (clear_canvas env (globals st)) as [gl' | code] eqn:Hclear;
      [| discriminate].
    intros [= <-]. cbn [globals set_globals]. eapply clear_canvas_ok; eauto. }
  destruct (k =? SDLK_g).
  { intros [= <-]. exact Hok. }
  destruct (k =? SDLK_s).
  { cbn [stdin emit]. destruct (stdin st) as [| line rest];
      [intros [= <-]; assumption |].
    destruct (0 <? _); [| intros [= <-]; assumption].
    destruct (save_canvas_as_bmp_frame env (chomp line) (globals st)
                (fs (set_stdin (emit st (Printf "Save filename (example out.bmp): ")) rest)))
      as (rc & files' & Hsave & _).
    { apply canvas_valid_sized, Hok. }
    rewrite Hsave. destruct (rc =? 0); intros [= <-]; assumption. }
  destruct (k =? SDLK_l).
  { cbn [stdin emit]. destruct (stdin st) as [| line rest];
      [intros [= <-]; assumption |].
    destruct (0 <? _); [| intros [= <-]; assumption].
    cbn [fs set_stdin emit].
    destruct (load_bmp_to_canvas_cases env (fs st) (chomp line) (globals st))
      as [Hload | (fmt & Hload)]; rewrite Hload.
    - destruct (-1 =? 0); intros [= <-]; assumption.
    - destruct (0 =? 0); intros [= <-]; cbn [globals emit set_globals];
        now apply load_cells_ok. }
  destruct (k =? SDLK_LEFTBRACKET).
  { intros [= <-]. cbn [globals emit set_globals].
    destruct (Z.ltb_spec 4 (CELL_SIZE (globals st))); [| exact Hok].
    destruct Hok as (HX & HY & Hv & Hcc & Hp & HS).
    unfold globals_ok. cbn [CELLS_X CELLS_Y CELL_SIZE current_color palette set_CELL_SIZE].
    repeat (split; [assumption |]). lia. }
  destruct (k =? SDLK_RIGHTBRACKET).
  { intros [= <-]. cbn [globals emit set_globals].
    destruct Hok as (HX & HY & Hv & Hcc & Hp & HS).
    unfold globals_ok. cbn [CELLS_X CELLS_Y CELL_SIZE current_color palette set_CELL_SIZE].
    repeat (split; [assumption |]). lia. }
  destruct (_ && _); [| intros [= <-]; assumption].
  destruct (_ && _) eqn:Hn; [| intros [= <-]; assumption].
  intros [= <-]. cbn [globals set_globals].
  apply set_current_color_ok; [assumption |].
  apply andb_true_iff in Hn as [H0 H1].
  apply Z.leb_le in H0. apply Z.ltb_lt in H1. split; assumption.
Qed.

Lemma handle_event_ok (env : Env) (e : SDL_Event) (st st' : Main) :
  globals_ok (globals st) → handle_event env e st = Ok st' → globals_ok (globals st').
Proof.
  intros Hok. destruct e as [| button mx my | | mx my | k |]; cbn [handle_event].
  - intros [= <-]. assumption.
  - cbn [globals set_mouse].
    destruct (mx <? _); intros [= <-]; cbn [globals set_globals].
    + now apply paint_cell_ok.
    + now apply palette_click_ok.
  - intros [= <-]. assumption.
  - destruct (mouse_down st =? 0); [intros [= <-]; assumption |].
    destruct (mx <? _); intros [= <-]; [| assumption].
    cbn [globals set_globals]. now apply paint_cell_ok.
  - now apply handle_key_ok.
  - intros [= <-]. assumption.
Qed.

Lemma startup_ok (env : Env) (args : option (Z * Z)) (files : gmap string File)
    (input : list string) (st : Main) :
  startup env args files input = Ok st → globals_ok (globals st).
Proof.
  unfold startup.
  set (gl0 := match args with Some (x, y) => _ | None => _ end).
  assert (H0 : 0 < CELLS_X gl0 ∧ 0 < CELLS_Y gl0 ∧ canvas gl0 = None
               ∧ current_color gl0 = 1 ∧ CELL_SIZE gl0 = 16).
  { subst gl0.
    destruct args as [[x y] |];
      cbn [CELLS_X CELLS_Y CELL_SIZE canvas current_color initial_globals].
    - destruct (Z.leb_spec x 0), (Z.leb_spec y 0); repeat split; lia.
    - repeat split; lia. }
  destruct H0 as (HX & HY & Hc & Hcc & HS).
  unfold ensure_canvas_allocated at 1. rewrite Hc.
  destruct (alloc_ok env _); [| discriminate].
  unfold clear_canvas, ensure_canvas_allocated.
  cbn [canvas set_canvas set_palette fmap option_fmap option_map].
  intros [= <-]. cbn [globals].
  unfold globals_ok.
  cbn [canvas set_canvas set_palette CELLS_X CELLS_Y CELL_SIZE current_color palette].
  split; [assumption |]. split; [assumption |]. split; [| split; [| split]].
  - unfold canvas_valid. cbn [canvas set_canvas set_palette CELLS_X CELLS_Y].
    eexists. split; [reflexivity |]. split.
    + rewrite memset0_length; rewrite length_replicate; lia.
    + apply memset0_valid, Forall_replicate.
      unfold valid_index, PALETTE_COUNT. lia.
  - rewrite Hcc. unfold valid_index, PALETTE_COUNT. lia.
  - reflexivity.
  - lia.
Qed.

Lemma reachable_ok (env : Env) (st : Main) :
  reachable env st → globals_ok (globals st).
Proof.
  induction 1 as [args files input st Hstart | e st st' _ IH Hstep].
  - eapply startup_ok; eauto.
  - eapply handle_event_ok; eauto.
Qed.

(** C6: in every state the program reaches, the canvas is allocated with one
    cell per grid coordinate and every cell holds an index of the palette. *)
Theorem reachable_canvas_valid (env : Env) (st : Main) :
  reachable env st →
  canvas_valid (globals st) ∧
  ∀ x y, 0 ≤ x < CELLS_X (globals st) → 0 ≤ y < CELLS_Y (globals st) →
    0 ≤ get (globals st) x y < PALETTE_COUNT.
Proof.
  intros Hreach. destruct (reachable_ok env st Hreach) as (HX & HY & Hv & _).
  split; [assumption |].
  destruct Hv as (cells & Hc & Hlen & Hall).
  intros x y Hx Hy. unfold get. rewrite (canvas_at_some _ cells _ Hc).
  pose proof (cell_index_bound _ _ _ _ Hx Hy) as Hb.
  apply buf_at_valid; [assumption | lia].
Qed.

Lemma reachable_canvas_valid_witness :
  ∃ st, startup env_little (Some (3, 2)) ∅ [] = Ok st ∧
        canvas_valid (globals st) ∧
        ∀ x y, 0 ≤ x < CELLS_X (globals st) → 0 ≤ y < CELLS_Y (globals st) →
          0 ≤ get (globals st) x y < PALETTE_COUNT.
Proof.
  eexists. split; [vm_compute; reflexivity |].
  apply (reachable_canvas_valid env_little).
  apply (reachable_start env_little (Some (3, 2)) ∅ []).
  vm_compute. reflexivity.
Defined.

(** C10: in every state the program reaches, the current color is an index
    of the palette: it starts as 1, and a digit key or a click on the palette
    changes it only to a number it has checked against [PALETTE_COUNT]. *)
Theorem reachable_current_color (env : Env) (st : Main) :
  reachable env st →
  0 ≤ current_color (globals st) < PALETTE_COUNT ∧
  current_color initial_globals = 1 ∧
  (∀ k st', handle_key env k st = Ok st' → SDLK_0 ≤ k ≤ SDLK_9 →
      current_color (globals st') = k - SDLK_0 ∧ 0 ≤ k - SDLK_0 < PALETTE_COUNT) ∧
  (∀ mx my,
      current_color (palette_click (globals st) mx my) = current_color (globals st) ∨
      0 ≤ current_color (palette_click (globals st) mx my) < PALETTE_COUNT).
Proof.
  intros Hreach. destruct (reachable_ok env st Hreach) as (HX & HY & Hv & Hcc & Hp).
  split; [exact Hcc |]. split; [reflexivity |]. split.
  - intros k st' Hkey Hk. unfold SDLK_0, SDLK_9 in Hk.
    unfold handle_key in Hkey. cbv zeta in Hkey.
    assert (Hne : ∀ c, c < 48 ∨ 57 < c → (k =? c) = false)
      by (intros c Hc; apply Z.eqb_neq; lia).
    unfold SDLK_ESCAPE, SDLK_c, SDLK_g, SDLK_s, SDLK_l, SDLK_LEFTBRACKET,
      SDLK_RIGHTBRACKET in Hkey.
    rewrite !Hne in Hkey by lia.
    unfold SDLK_0, SDLK_9, PALETTE_COUNT in *.
    replace ((48 <=? k) && (k <=? 57)) with true in Hkey
      by (symmetry; apply andb_true_iff; rewrite !Z.leb_le; lia).
    replace ((0 <=? k - 48) && (k - 48 <? 12)) with true in Hkey
      by (symmetry; apply andb_true_iff; rewrite Z.leb_le, Z.ltb_lt; lia).
    injection Hkey as <-. cbn [globals set_globals current_color set_current_color].
    lia.
  - intros mx my. unfold palette_click. cbv zeta.
    destruct (0 <=? _); [| now left].
    destruct (_ && _) eqn:Hidx; [| now left].
    right. cbn [current_color set_current_color].
    apply andb_true_iff in Hidx as [H0 H1].
    apply Z.leb_le in H0. apply Z.ltb_lt in H1. split; assumption.
Qed.

Lemma reachable_current_color_witness :
  ∃ st, handle_event env_little (SDL_KEYDOWN 55)
          (mkMain (mkGlobals 2 2 16 (Some [0; 0; 0; 0]) init_default_palette 1 1)
                  1 0 0 ∅ [] []) = Ok st ∧
        0 ≤ current_color (globals st) < PALETTE_COUNT.
Proof.
  eexists. split; [vm_compute; reflexivity |].
  refine (proj1 (reachable_current_color env_little _ _)).
  apply (reachable_event env_little (SDL_KEYDOWN 55)
           (mkMain (mkGlobals 2 2 16 (Some [0; 0; 0; 0]) init_default_palette 1 1)
                   1 0 0 ∅ [] [])).
  - apply (reachable_start env_little (Some (2, 2)) ∅ []). vm_compute. reflexivity.
  - vm_compute. reflexivity.
Defined.

(** ** Doubles: every sample point lies in its own cell

    Each of the operations of the sample coordinate rounds its exact
    result to a normal double, with a relative error of at most [eps];
    the errors of the whole expression stay far below the half cell that
    separates the exact sample point from the borders of its cell. *)

(** A positive number of [d] binary digits lies between [2^(d-1)] and [2^d]. *)
Lemma digits2_pos_bounds (p : positive) :
  2 ^ (Z.pos (digits2_pos p) - 1) ≤ Z.pos p < 2 ^ Z.pos (digits2_pos p).
Proof.
  induction p as [p IH | p IH |]; cbn [digits2_pos].
  - rewrite Pos2Z.inj_succ.
    replace (Z.succ (Z.pos (digits2_pos p)) - 1) with (Z.succ (Z.pos (digits2_pos p) - 1)) by lia.
    rewrite !Z.pow_succ_r by lia. lia.
  - rewrite Pos2Z.inj_succ.
    replace (Z.succ (Z.pos (digits2_pos p)) - 1) with (Z.succ (Z.pos (digits2_pos p) - 1)) by lia.
    rewrite !Z.pow_succ_r by lia. lia.
  - cbn. lia.
Qed.

Lemma digits2_pos_unique (p : positive) (d : Z) :
  2 ^ (d - 1) ≤ Z.pos p < 2 ^ d → Z.pos (digits2_pos p) = d.
Proof.
  intros [Hlo Hhi]. pose proof (digits2_pos_bounds p) as [Hlo' Hhi'].
  assert (Hd : 0 < d).
  { destruct (Z.lt_ge_cases 0 d) as [|Hle]; [assumption |].
    assert (2 ^ d ≤ 1).
    { destruct (Z.eq_dec d 0) as [-> | Hne]; [cbn; lia |].
      rewrite Z.pow_neg_r by lia. lia. }
    lia. }
  destruct (Z.lt_trichotomy (Z.pos (digits2_pos p)) d) as [Hlt | [Heq | Hgt]];
    [| assumption |].
  - assert (2 ^ Z.pos (digits2_pos p) ≤ 2 ^ (d - 1)) by (apply Z.pow_le_mono_r; lia). lia.
  - assert (2 ^ d ≤ 2 ^ (Z.pos (digits2_pos p) - 1)) by (apply Z.pow_le_mono_r; lia). lia.
Qed.

Lemma digits2_pos_le (p : positive) (k : Z) :
  Z.pos p < 2 ^ k → Z.pos (digits2_pos p) ≤ k.
Proof.
  intros Hp. pose proof (digits2_pos_bounds p) as [Hlo _].
  destruct (Z.le_gt_cases (Z.pos (digits2_pos p)) k) as [| Hgt]; [assumption |].
  assert (2 ^ k ≤ 2 ^ (Z.pos (digits2_pos p) - 1)).
  { destruct (Z.lt_ge_cases k 0); [rewrite (Z.pow_neg_r 2 k) in Hp by lia; lia |].
    apply Z.pow_le_mono_r; lia. }
  lia.
Qed.

Lemma digits2_pos_ge (p : positive) (k : Z) :
  2 ^ k ≤ Z.pos p → k + 1 ≤ Z.pos (digits2_pos p).
Proof.
  intros Hp. pose proof (digits2_pos_bounds p) as [_ Hhi].
  destruct (Z.le_gt_cases (k + 1) (Z.pos (digits2_pos p))) as [| Hgt]; [assumption |].
  assert (2 ^ Z.pos (digits2_pos p) ≤ 2 ^ k) by (apply Z.pow_le_mono_r; lia). lia.
Qed.

Lemma digits2_pos_ge53 (m : positive) : 2 ^ 52 ≤ Z.pos m → 53 ≤ Z.pos (digits2_pos m).
Proof.
  intros Hm. pose proof (digits2_pos_bounds m) as [_ Hhi].
  destruct (Z.lt_ge_cases (Z.pos (digits2_pos m)) 53) as [Hlt | Hge]; [| assumption].
  assert (2 ^ Z.pos (digits2_pos m) ≤ 2 ^ 52) by (apply Z.pow_le_mono_r; lia). lia.
Qed.

Lemma fexp_normal (k : Z) : -1021 ≤ k → fexp dbl_prec dbl_emax k = k - 53.
Proof. intros Hk. unfold fexp, emin, dbl_prec, dbl_emax. lia. Qed.

Lemma shr_1_m (mrs : shr_record) :
  0 ≤ shr_m mrs → shr_m (shr_1 mrs) = shr_m mrs / 2.
Proof.
  destruct mrs as [m rb sb]. cbn [shr_m]. intros Hm.
  destruct m as [| [p | p |] | p]; cbn [shr_1 shr_m]; try lia.
  all: try rewrite Pos2Z.inj_xI; try rewrite Pos2Z.inj_xO.
  all: Z.div_mod_to_equations; lia.
Qed.

Lemma iter_pos_shr_m (p : positive) :
  ∀ mrs, 0 ≤ shr_m mrs →
    shr_m (SpecFloat.iter_pos shr_1 p mrs) = shr_m mrs / 2 ^ Z.pos p.
Proof.
  assert (Hnn : ∀ a k, 0 ≤ a → 0 ≤ a / 2 ^ Z.pos k).
  { intros a k Ha. apply Z.div_pos; [assumption |]. apply Z.pow_pos_nonneg; lia. }
  induction p as [p IH | p IH |]; intros mrs Hm; cbn [SpecFloat.iter_pos].
  - assert (H1 : 0 ≤ shr_m (shr_1 mrs)) by (rewrite shr_1_m by assumption; apply Z.div_pos; lia).
    assert (Hpow : 2 ^ Z.pos p~1 = 2 * 2 ^ Z.pos p * 2 ^ Z.pos p).
    { rewrite <- Z.mul_assoc, <- Z.pow_add_r by lia.
      rewrite <- (Z.pow_succ_r 2) by lia. f_equal. lia. }
    assert (H2 : 0 < 2 ^ Z.pos p) by (apply Z.pow_pos_nonneg; lia).
    rewrite IH by (rewrite IH by assumption; now apply Hnn).
    rewrite IH by assumption. rewrite shr_1_m by assumption.
    rewrite Hpow, !Z.div_div by lia. f_equal. lia.
  - assert (Hpow : 2 ^ Z.pos p~0 = 2 ^ Z.pos p * 2 ^ Z.pos p).
    { rewrite <- Z.pow_add_r by lia. f_equal. lia. }
    assert (H2 : 0 < 2 ^ Z.pos p) by (apply Z.pow_pos_nonneg; lia).
    rewrite IH by (rewrite IH by assumption; now apply Hnn).
    rewrite IH by assumption.
    rewrite Hpow, !Z.div_div by lia. f_equal.
  - now apply shr_1_m.
Qed.

Lemma round_nearest_even_bounds (m : Z) (l : location) :
  m ≤ round_nearest_even m l ≤ m + 1.
Proof.
  unfold round_nearest_even. destruct l as [| []]; try lia.
  destruct (Z.even m); lia.
Qed.

Lemma shr_record_of_loc_m (m : Z) (l : location) : shr_m (shr_record_of_loc m l) = m.
Proof. destruct l as [| []]; reflexivity. Qed.

(** The shift that brings a mantissa of at least 53 bits down to 53 bits. *)
Lemma shr_fexp_normal (m : positive) (e : Z) (l : location) :
  2 ^ 52 ≤ Z.pos m → -1000 ≤ e →
  ∃ mrs, shr_fexp dbl_prec dbl_emax (Z.pos m) e l
           = (mrs, e + (Z.pos (digits2_pos m) - 53)) ∧
         shr_m mrs = Z.pos m / 2 ^ (Z.pos (digits2_pos m) - 53).
Proof.
  intros Hm He. pose proof (digits2_pos_ge53 m Hm) as Hd.
  unfold shr_fexp. cbn [Zdigits2].
  rewrite fexp_normal by lia.
  replace (Z.pos (digits2_pos m) + e - 53 - e) with (Z.pos (digits2_pos m) - 53) by lia.
  destruct (Z.pos (digits2_pos m) - 53) as [| n | n] eqn:Hn; [| | lia].
  - eexists. split; [cbn [shr]; f_equal; lia |].
    rewrite shr_record_of_loc_m. cbn. now rewrite Z.div_1_r.
  - eexists. split; [cbn [shr]; reflexivity |].
    rewrite iter_pos_shr_m; rewrite shr_record_of_loc_m; [reflexivity | lia].
Qed.

Lemma div_pow2_canonical (m : positive) :
  2 ^ 52 ≤ Z.pos m →
  2 ^ 52 ≤ Z.pos m / 2 ^ (Z.pos (digits2_pos m) - 53) < 2 ^ 53.
Proof.
  intros Hm. pose proof (digits2_pos_ge53 m Hm) as Hd.
  pose proof (digits2_pos_bounds m) as [Hlo Hhi].
  set (n := Z.pos (digits2_pos m) - 53) in *.
  assert (Hn : 0 < 2 ^ n) by (apply Z.pow_pos_nonneg; lia).
  replace (Z.pos (digits2_pos m) - 1) with (n + 52) in Hlo by lia.
  replace (Z.pos (digits2_pos m)) with (n + 53) in Hhi by lia.
  rewrite Z.pow_add_r in Hlo, Hhi by lia.
  split.
  - apply Z.div_le_lower_bound; lia.
  - apply Z.div_lt_upper_bound; lia.
Qed.

Lemma binary_round_aux_normal (mx : positive) (ex : Z) (lx : location) :
  2 ^ 52 ≤ Z.pos mx → -1000 ≤ ex → ex + Z.pos (digits2_pos mx) ≤ 1000 →
  let n := Z.pos (digits2_pos mx) - 53 in
  ∃ m' e',
    binary_round_aux dbl_prec dbl_emax false (Z.pos mx) ex lx = S754_finite false m' e' ∧
    canonical53 m' ∧
    ((e' = ex + n ∧ Z.pos mx / 2 ^ n ≤ Z.pos m' ≤ Z.pos mx / 2 ^ n + 1) ∨
     (e' = ex + n + 1 ∧ Z.pos m' = 2 ^ 52 ∧ Z.pos mx / 2 ^ n = 2 ^ 53 - 1)).
Proof.
  intros Hm He Hd n.
  pose proof (digits2_pos_ge53 mx Hm) as Hd53.
  destruct (shr_fexp_normal mx ex lx Hm He) as (mrs & Hshr & Hmrs). fold n in Hshr, Hmrs.
  pose proof (div_pow2_canonical mx Hm) as Hm1. fold n in Hm1.
  unfold binary_round_aux. rewrite Hshr.
  pose proof (round_nearest_even_bounds (shr_m mrs) (loc_of_shr_record mrs)) as Hrne.
  set (mx1 := round_nearest_even (shr_m mrs) (loc_of_shr_record mrs)) in *.
  rewrite Hmrs in Hrne.
  destruct mx1 as [| p1 | p1] eqn:Hp1; [lia | | lia].
  destruct (Z.lt_ge_cases (Z.pos p1) (2 ^ 53)) as [Hlt | Hge].
  - (* no carry *)
    destruct (shr_fexp_normal p1 (ex + n) loc_Exact ltac:(lia) ltac:(lia))
      as (mrs2 & Hshr2 & Hmrs2).
    assert (Hd1 : Z.pos (digits2_pos p1) = 53) by (apply digits2_pos_unique; lia).
    rewrite Hd1 in Hshr2, Hmrs2. rewrite Hshr2.
    replace (53 - 53) with 0 in Hmrs2 by lia. cbn in Hmrs2. rewrite Z.div_1_r in Hmrs2.
    rewrite Hmrs2.
    replace (ex + n + (53 - 53) <=? dbl_emax - dbl_prec) with true
      by (symmetry; apply Z.leb_le; unfold dbl_emax, dbl_prec; lia).
    exists p1, (ex + n + (53 - 53)). split; [reflexivity |].
    split; [unfold canonical53; lia |]. left. lia.
  - (* carry into a 54th bit *)
    assert (Hp : Z.pos p1 = 2 ^ 53) by lia.
    destruct (shr_fexp_normal p1 (ex + n) loc_Exact ltac:(lia) ltac:(lia))
      as (mrs2 & Hshr2 & Hmrs2).
    assert (Hd1 : Z.pos (digits2_pos p1) = 54) by (apply digits2_pos_unique; rewrite Hp; cbn; lia).
    rewrite Hd1 in Hshr2, Hmrs2. rewrite Hshr2.
    rewrite Hp in Hmrs2. cbn in Hmrs2. rewrite Hmrs2.
    replace (ex + n + (54 - 53) <=? dbl_emax - dbl_prec) with true
      by (symmetry; apply Z.leb_le; unfold dbl_emax, dbl_prec; lia).
    eexists _, _. split; [reflexivity |].
    split; [unfold canonical53; cbn; lia |]. right. cbn. lia.
Qed.

Lemma pow2_pos (e : Z) : (0 < powerRZ 2 e)%R.
Proof. apply powerRZ_lt. lra. Qed.

Lemma pow2_add (a c : Z) : (powerRZ 2 (a + c) = powerRZ 2 a * powerRZ 2 c)%R.
Proof. apply powerRZ_add. lra. Qed.

Lemma IZR_pow2 (n : Z) : 0 ≤ n → IZR (2 ^ n) = powerRZ 2 n.
Proof.
  intros Hn. rewrite <- (Z2Nat.id n) at 1 2 by assumption.
  rewrite <- pow_IZR, <- pow_powerRZ. reflexivity.
Qed.

Lemma Rdiv_lower (x y z : R) : (0 < y → z * y <= x → z <= x / y)%R.
Proof.
  intros Hy H. apply Rmult_le_reg_r with y; [assumption |].
  unfold Rdiv. rewrite Rmult_assoc, Rinv_l by lra. lra.
Qed.

Lemma Rdiv_upper (x y z : R) : (0 < y → x <= z * y → x / y <= z)%R.
Proof.
  intros Hy H. apply Rmult_le_reg_r with y; [assumption |].
  unfold Rdiv. rewrite Rmult_assoc, Rinv_l by lra. lra.
Qed.

Lemma Rdiv_upper_lt (x y z : R) : (0 < y → x < z * y → x / y < z)%R.
Proof.
  intros Hy H. apply Rmult_lt_reg_r with y; [assumption |].
  unfold Rdiv. rewrite Rmult_assoc, Rinv_l by lra. lra.
Qed.

(** Rounding a mantissa of at least 53 bits: the result is a normal double
    within [eps] of every real number that lies between the value of the
    mantissa and that of its successor. *)
Lemma binary_round_aux_real (mx : positive) (ex : Z) (lx : location) (t : R) :
  2 ^ 52 ≤ Z.pos mx → -1000 ≤ ex → ex + Z.pos (digits2_pos mx) ≤ 1000 →
  (IZR (Z.pos mx) * powerRZ 2 ex <= t <= IZR (Z.pos mx + 1) * powerRZ 2 ex)%R →
  ∃ m' e',
    binary_round_aux dbl_prec dbl_emax false (Z.pos mx) ex lx = S754_finite false m' e' ∧
    canonical53 m' ∧
    ex + (Z.pos (digits2_pos mx) - 53) ≤ e' ≤ ex + (Z.pos (digits2_pos mx) - 53) + 1 ∧
    (t * (1 - eps) <= IZR (Z.pos m') * powerRZ 2 e' <= t * (1 + eps))%R.
Proof.
  intros Hm He Hd Ht.
  destruct (binary_round_aux_normal mx ex lx Hm He Hd) as (m' & e' & Hres & Hcan & Hcase).
  pose proof (digits2_pos_ge53 mx Hm) as Hd53.
  pose proof (div_pow2_canonical mx Hm) as Hq.
  set (n := Z.pos (digits2_pos mx) - 53) in *.
  set (q := Z.pos mx / 2 ^ n) in *.
  exists m', e'. split; [assumption |]. split; [assumption |].
  split; [destruct Hcase as [[-> _] | [-> _]]; lia |].
  set (U := powerRZ 2 (ex + n)).
  assert (HU : (0 < U)%R) by apply pow2_pos.
  assert (Hpn : 0 < 2 ^ n) by (apply Z.pow_pos_nonneg; lia).
  assert (Hdiv : q * 2 ^ n ≤ Z.pos mx ∧ Z.pos mx + 1 ≤ (q + 1) * 2 ^ n).
  { subst q. pose proof (Z.div_mod (Z.pos mx) (2 ^ n) ltac:(lia)) as Hdm.
    pose proof (Z.mod_pos_bound (Z.pos mx) (2 ^ n) Hpn). lia. }
  destruct Hdiv as [Hlo Hhi].
  apply IZR_le in Hlo, Hhi. rewrite mult_IZR, IZR_pow2 in Hlo, Hhi by lia.
  assert (HUe : (powerRZ 2 n * powerRZ 2 ex = U)%R).
  { unfold U. rewrite Z.add_comm. symmetry. apply pow2_add. }
  assert (Ht' : (IZR q * U <= t <= IZR (q + 1) * U)%R).
  { destruct Ht as [Ht1 Ht2]. pose proof (pow2_pos ex) as Hex. split.
    - apply Rle_trans with (IZR (Z.pos mx) * powerRZ 2 ex)%R; [| assumption].
      rewrite <- HUe, <- Rmult_assoc. apply Rmult_le_compat_r; lra.
    - apply Rle_trans with (IZR (Z.pos mx + 1) * powerRZ 2 ex)%R; [assumption |].
      rewrite <- HUe, <- Rmult_assoc. apply Rmult_le_compat_r; lra. }
  assert (Hr : (IZR q * U <= IZR (Z.pos m') * powerRZ 2 e' <= IZR (q + 1) * U)%R).
  { destruct Hcase as [[-> [H1 H2]] | [-> [H1 H2]]].
    - fold U. apply IZR_le in H1, H2. split; apply Rmult_le_compat_r; lra.
    - replace (ex + n + 1) with (1 + (ex + n)) by lia.
      rewrite pow2_add. fold U. rewrite H1.
      replace (q + 1) with (2 ^ 53) by lia.
      assert (Hq' : (IZR q <= IZR (2 ^ 53))%R) by (apply IZR_le; lia).
      change (powerRZ 2 1) with (2 * 1)%R.
      replace (IZR (2 ^ 52) * (2 * 1 * U))%R with (IZR (2 ^ 53) * U)%R.
      + split; [apply Rmult_le_compat_r; lra | lra].
      + change (2 ^ 53) with (2 * 2 ^ 52). rewrite mult_IZR. lra. }
  assert (Hbig : (IZR (2 ^ 52) * U <= IZR q * U)%R).
  { apply Rmult_le_compat_r; [lra |]. apply IZR_le. lia. }
  rewrite plus_IZR in Ht', Hr.
  change (IZR (2 ^ 52)) with 4503599627370496%R in Hbig.
  unfold eps. lra.
Qed.

Lemma iter_xO_pos (p k : positive) :
  Z.pos (Pos.iter xO p k) = Z.pos p * 2 ^ Z.pos k.
Proof.
  induction k as [| k IH] using Pos.peano_ind.
  - cbn. lia.
  - rewrite Pos.iter_succ, Pos2Z.inj_xO, IH, Pos2Z.inj_succ, Z.pow_succ_r by lia. lia.
Qed.

Lemma binary_round_real (mx : positive) (ex : Z) :
  -900 ≤ ex → Z.pos (digits2_pos mx) ≤ 200 → ex ≤ 700 →
  ∃ m' e',
    binary_round dbl_prec dbl_emax false mx ex = S754_finite false m' e' ∧
    canonical53 m' ∧
    ex + Z.pos (digits2_pos mx) - 53 ≤ e' ≤ ex + Z.pos (digits2_pos mx) - 53 + 1 ∧
    (IZR (Z.pos mx) * powerRZ 2 ex * (1 - eps) <= IZR (Z.pos m') * powerRZ 2 e'
     <= IZR (Z.pos mx) * powerRZ 2 ex * (1 + eps))%R.
Proof.
  intros He Hd He'.
  pose proof (digits2_pos_bounds mx) as [Hlo Hhi].
  set (d := Z.pos (digits2_pos mx)) in *.
  assert (Hd0 : 0 < d) by (subst d; lia).
  unfold binary_round, shl_align. fold d.
  rewrite fexp_normal by lia.
  replace (d + ex - 53 - ex) with (d - 53) by lia.
  destruct (d - 53) as [| k | k] eqn:Hk.
  - (* exactly 53 bits *)
    destruct (binary_round_aux_real mx ex loc_Exact (IZR (Z.pos mx) * powerRZ 2 ex))
      as (m' & e' & Hres & Hcan & Hexp & Hval); fold d.
    + replace (d - 1) with 52 in Hlo by lia. assumption.
    + lia.
    + lia.
    + pose proof (pow2_pos ex). rewrite plus_IZR. split; [lra | nra].
    + exists m', e'. fold d in Hexp. repeat (split; [assumption || lia |]). assumption.
  - (* more than 53 bits *)
    destruct (binary_round_aux_real mx ex loc_Exact (IZR (Z.pos mx) * powerRZ 2 ex))
      as (m' & e' & Hres & Hcan & Hexp & Hval); fold d.
    + assert (2 ^ 52 ≤ 2 ^ (d - 1)) by (apply Z.pow_le_mono_r; lia). lia.
    + lia.
    + lia.
    + pose proof (pow2_pos ex). rewrite plus_IZR. split; [lra | nra].
    + exists m', e'. fold d in Hexp. repeat (split; [assumption || lia |]). assumption.
  - (* fewer than 53 bits: the mantissa is shifted left first *)
    set (mz := Pos.iter xO mx k).
    assert (Hmz : Z.pos mz = Z.pos mx * 2 ^ Z.pos k) by apply iter_xO_pos.
    assert (Hk' : Z.pos k = 53 - d) by lia.
    assert (Hpk : 0 < 2 ^ Z.pos k) by (apply Z.pow_pos_nonneg; lia).
    assert (Hmzb : 2 ^ 52 ≤ Z.pos mz < 2 ^ 53).
    { rewrite Hmz. replace 52 with (d - 1 + Z.pos k) by lia.
      replace 53 with (d + Z.pos k) by lia.
      rewrite !Z.pow_add_r by lia. nia. }
    assert (Hdz : Z.pos (digits2_pos mz) = 53) by (apply digits2_pos_unique; lia).
    assert (Hvz : (IZR (Z.pos mz) * powerRZ 2 (d + ex - 53) = IZR (Z.pos mx) * powerRZ 2 ex)%R).
    { rewrite Hmz, mult_IZR, IZR_pow2 by lia.
      rewrite Rmult_assoc, <- pow2_add. f_equal. f_equal. lia. }
    destruct (binary_round_aux_real mz (d + ex - 53) loc_Exact
                (IZR (Z.pos mz) * powerRZ 2 (d + ex - 53)))
      as (m' & e' & Hres & Hcan & Hexp & Hval).
    + lia.
    + lia.
    + lia.
    + pose proof (pow2_pos (d + ex - 53)). rewrite plus_IZR. split; [lra | nra].
    + exists m', e'. rewrite Hdz in Hexp. rewrite Hvz in Hval.
      repeat (split; [assumption || lia |]). assumption.
Qed.

Lemma double_of_int_real (z : Z) :
  0 < z < 2 ^ 53 →
  ∃ m e, double_of_int z = S754_finite false m e ∧ canonical53 m ∧ -52 ≤ e ≤ 1 ∧
         (IZR z * (1 - eps) <= IZR (Z.pos m) * powerRZ 2 e <= IZR z * (1 + eps))%R.
Proof.
  intros Hz. destruct z as [| p | p]; try lia.
  unfold double_of_int, binary_normalize.
  pose proof (digits2_pos_bounds p) as [Hlo Hhi].
  assert (Hd : Z.pos (digits2_pos p) ≤ 53).
  { destruct (Z.le_gt_cases (Z.pos (digits2_pos p)) 53) as [|Hgt]; [assumption |].
    assert (2 ^ 53 ≤ 2 ^ (Z.pos (digits2_pos p) - 1)) by (apply Z.pow_le_mono_r; lia). lia. }
  destruct (binary_round_real p 0) as (m & e & Hres & Hcan & Hexp & Hval); try lia.
  exists m, e. split; [assumption |]. split; [assumption |]. split; [lia |].
  change (powerRZ 2 0) with 1%R in Hval. rewrite Rmult_1_r in Hval. assumption.
Qed.

(** The product of two normal doubles. *)
Lemma double_mul_real (mx my : positive) (ex ey : Z) :
  canonical53 mx → canonical53 my → -400 ≤ ex ≤ 400 → -400 ≤ ey ≤ 400 →
  ∃ m e, double_mul (S754_finite false mx ex) (S754_finite false my ey)
           = S754_finite false m e ∧
         canonical53 m ∧ ex + ey + 51 ≤ e ≤ ex + ey + 54 ∧
         let t := ((IZR (Z.pos mx) * powerRZ 2 ex) * (IZR (Z.pos my) * powerRZ 2 ey))%R in
         (t * (1 - eps) <= IZR (Z.pos m) * powerRZ 2 e <= t * (1 + eps))%R.
Proof.
  intros [Hx1 Hx2] [Hy1 Hy2] Hex Hey.
  unfold double_mul, SFmul. cbn [xorb].
  assert (Hprod : 2 ^ 104 ≤ Z.pos (mx * my) < 2 ^ 106).
  { rewrite Pos2Z.inj_mul.
    change (2 ^ 104) with (2 ^ 52 * 2 ^ 52). change (2 ^ 106) with (2 ^ 53 * 2 ^ 53).
    split; [apply Z.mul_le_mono_nonneg; lia | apply Z.mul_lt_mono_nonneg; lia]. }
  pose proof (digits2_pos_le (mx * my) 106 ltac:(lia)) as Hd1.
  pose proof (digits2_pos_ge (mx * my) 104 ltac:(lia)) as Hd2.
  set (t := ((IZR (Z.pos mx) * powerRZ 2 ex) * (IZR (Z.pos my) * powerRZ 2 ey))%R).
  assert (Ht : (t = IZR (Z.pos (mx * my)) * powerRZ 2 (ex + ey))%R).
  { subst t. rewrite Pos2Z.inj_mul, mult_IZR, pow2_add. ring. }
  destruct (binary_round_aux_real (mx * my) (ex + ey) loc_Exact t)
    as (m & e & Hres & Hcan & Hexp & Hval).
  - assert (2 ^ 52 ≤ 2 ^ 104) by (apply Z.pow_le_mono_r; lia). lia.
  - lia.
  - lia.
  - rewrite Ht, plus_IZR. pose proof (pow2_pos (ex + ey)). split; [lra | nra].
  - exists m, e. split; [assumption |]. split; [assumption |]. split; [lia |]. assumption.
Qed.

(** The quotient of two normal doubles. *)
Lemma double_div_real (mx my : positive) (ex ey : Z) :
  canonical53 mx → canonical53 my → -400 ≤ ex ≤ 400 → -400 ≤ ey ≤ 400 →
  ∃ m e, double_div (S754_finite false mx ex) (S754_finite false my ey)
           = S754_finite false m e ∧
         canonical53 m ∧ ex - ey - 54 ≤ e ≤ ex - ey - 50 ∧
         let t := ((IZR (Z.pos mx) * powerRZ 2 ex) / (IZR (Z.pos my) * powerRZ 2 ey))%R in
         (t * (1 - eps) <= IZR (Z.pos m) * powerRZ 2 e <= t * (1 + eps))%R.
Proof.
  intros Hx Hy Hex Hey.
  pose proof Hx as [Hx1 Hx2]. pose proof Hy as [Hy1 Hy2].
  assert (Hdx : Z.pos (digits2_pos mx) = 53) by (apply digits2_pos_unique; cbn; lia).
  assert (Hdy : Z.pos (digits2_pos my) = 53) by (apply digits2_pos_unique; cbn; lia).
  unfold double_div, SFdiv, SFdiv_core_binary. cbn [xorb Zdigits2].
  rewrite Hdx, Hdy.
  replace (53 + ex - (53 + ey)) with (ex - ey) by lia.
  rewrite fexp_normal by lia.
  replace (Z.min (ex - ey - 53) (ex - ey)) with (ex - ey - 53) by lia.
  replace (ex - ey - (ex - ey - 53)) with 53 by lia.
  cbv iota.
  rewrite Z.shiftl_mul_pow2 by lia.
  set (num := Z.pos mx * 2 ^ 53).
  pose proof (Z.div_eucl_eq num (Z.pos my) ltac:(lia)) as Heucl.
  pose proof (Z.mod_pos_bound num (Z.pos my) ltac:(lia)) as Hmod.
  unfold Z.modulo in Hmod.
  destruct (Z.div_eucl num (Z.pos my)) as [q rm].
  assert (Hq : 2 ^ 52 ≤ q < 2 ^ 54).
  { subst num. change (2 ^ 54) with (2 * 2 ^ 53). change (2 ^ 53) with (2 * 2 ^ 52) in *. nia. }
  destruct q as [| pq | pq]; try lia.
  pose proof (digits2_pos_le pq 54 ltac:(lia)) as Hd1.
  pose proof (digits2_pos_ge pq 52 ltac:(lia)) as Hd2.
  set (t := ((IZR (Z.pos mx) * powerRZ 2 ex) / (IZR (Z.pos my) * powerRZ 2 ey))%R).
  assert (HB : (0 < IZR (Z.pos my))%R) by (apply IZR_lt; lia).
  pose proof (pow2_pos ey) as HY. pose proof (pow2_pos (ex - ey - 53)) as HP.
  assert (Ht : (t = IZR num / IZR (Z.pos my) * powerRZ 2 (ex - ey - 53))%R).
  { subst t num. rewrite mult_IZR, IZR_pow2 by lia.
    replace ex with ((ex - ey - 53) + ey + 53) at 1 by lia.
    rewrite !pow2_add. field. lra. }
  destruct (binary_round_aux_real pq (ex - ey - 53) (new_location (Z.pos my) rm) t)
    as (m & e & Hres & Hcan & Hexp & Hval).
  - lia.
  - lia.
  - lia.
  - rewrite Ht.
    assert (H1 : (IZR (Z.pos pq) * IZR (Z.pos my) <= IZR num)%R).
    { rewrite <- mult_IZR. apply IZR_le. lia. }
    assert (H2 : (IZR num <= IZR (Z.pos pq + 1) * IZR (Z.pos my))%R).
    { rewrite <- mult_IZR. apply IZR_le. lia. }
    split; apply Rmult_le_compat_r; try lra.
    + apply Rdiv_lower; [assumption | assumption].
    + apply Rdiv_upper; [assumption | assumption].
  - exists m, e. split; [assumption |]. split; [assumption |]. split; [lia |]. assumption.
Qed.

Lemma half_value : (IZR 4503599627370496 * powerRZ 2 (-53) = / 2)%R.
Proof.
  change 4503599627370496 with (2 ^ 52). rewrite IZR_pow2, <- pow2_add by lia.
  change (52 + -53) with (-1). unfold powerRZ.
  change (Pos.to_nat 1) with 1%nat. now rewrite pow_1.
Qed.

(** A normal double between 1 and [2^53], plus one half. *)
Lemma double_add_half_real (mx : positive) (ex : Z) :
  canonical53 mx → -52 ≤ ex ≤ 1 →
  ∃ m e, double_add (S754_finite false mx ex) double_half = S754_finite false m e ∧
         canonical53 m ∧ -53 ≤ e ≤ 4 ∧
         let t := (IZR (Z.pos mx) * powerRZ 2 ex + / 2)%R in
         (t * (1 - eps) <= IZR (Z.pos m) * powerRZ 2 e <= t * (1 + eps))%R.
Proof.
  intros [Hx1 Hx2] Hex.
  unfold double_add, double_half, SFadd. cbn [cond_Zopp].
  replace (Z.min ex (-53)) with (-53) by lia.
  unfold shl_align. replace (-53 - -53) with 0 by lia. cbn [fst].
  destruct (-53 - ex) as [| k | k] eqn:Hk; try lia. cbn [fst].
  assert (Hkz : Z.pos k = ex + 53) by lia.
  pose proof (iter_xO_pos mx k) as Ha.
  set (ma := Pos.iter xO mx k) in *.
  change (Z.pos ma + 4503599627370496) with (Z.pos (ma + 4503599627370496)).
  unfold binary_normalize.
  assert (Hpk : 1 ≤ 2 ^ Z.pos k ≤ 2 ^ 54).
  { split; [assert (0 < 2 ^ Z.pos k) by (apply Z.pow_pos_nonneg; lia); lia |].
    apply Z.pow_le_mono_r; lia. }
  assert (Hsum : 2 ^ 52 ≤ Z.pos (ma + 4503599627370496) < 2 ^ 108).
  { rewrite Pos2Z.inj_add, Ha. change (2 ^ 108) with (2 ^ 54 * 2 ^ 54).
    change (2 ^ 54) with 18014398509481984 in *.
    change (2 ^ 53) with 9007199254740992 in *.
    change (2 ^ 52) with 4503599627370496 in *. nia. }
  pose proof (digits2_pos_le (ma + 4503599627370496) 108 ltac:(lia)) as Hd1.
  pose proof (digits2_pos_ge (ma + 4503599627370496) 52 ltac:(lia)) as Hd2.
  destruct (binary_round_real (ma + 4503599627370496) (-53))
    as (m & e & Hres & Hcan & Hexp & Hval); try lia.
  exists m, e. split; [assumption |]. split; [assumption |]. split; [lia |].
  cbv zeta.
  replace (IZR (Z.pos mx) * powerRZ 2 ex + / 2)%R
    with (IZR (Z.pos (ma + 4503599627370496)) * powerRZ 2 (-53))%R; [assumption |].
  rewrite Pos2Z.inj_add, plus_IZR, Ha, mult_IZR, IZR_pow2 by lia.
  rewrite Rmult_plus_distr_r, Rmult_assoc, <- pow2_add.
  replace (Z.pos k + -53) with ex by lia.
  f_equal. apply half_value.
Qed.

(** [c + 0.5] for a non-negative [int]. *)
Lemma int_plus_half_real (c : Z) :
  0 ≤ c < 2 ^ 53 →
  ∃ m e, double_add (double_of_int c) double_half = S754_finite false m e ∧
         canonical53 m ∧ -53 ≤ e ≤ 4 ∧
         let t := (IZR c + / 2)%R in
         (t * (1 - 3 * eps) <= IZR (Z.pos m) * powerRZ 2 e <= t * (1 + 3 * eps))%R.
Proof.
  intros Hc. destruct (Z.eq_dec c 0) as [-> | Hne].
  - exists 4503599627370496%positive, (-53). split; [reflexivity |].
    split; [unfold canonical53; cbn; lia |]. split; [lia |].
    cbv zeta. rewrite half_value. unfold eps. lra.
  - destruct (double_of_int_real c ltac:(lia)) as (mc & ec & Hc' & Hcan & Hec & Hvc).
    rewrite Hc'.
    destruct (double_add_half_real mc ec Hcan Hec) as (m & e & Hres & Hcan' & He & Hv).
    exists m, e. split; [assumption |]. split; [assumption |]. split; [assumption |].
    cbv zeta in *.
    assert (H0 : (1 <= IZR c)%R) by (apply IZR_le; lia).
    set (vc := (IZR (Z.pos mc) * powerRZ 2 ec)%R) in *.
    set (v := (IZR (Z.pos m) * powerRZ 2 e)%R) in *.
    unfold eps in *. split; nra.
Qed.

(** The cast to [int] of a positive double is the integer part of its value. *)
Lemma trunc_mag_real (m : positive) (e : Z) :
  (IZR (trunc_mag m e) <= IZR (Z.pos m) * powerRZ 2 e < IZR (trunc_mag m e) + 1)%R.
Proof.
  unfold trunc_mag. destruct (Z.leb_spec 0 e) as [He | He].
  - rewrite mult_IZR, IZR_pow2 by assumption. lra.
  - set (D := 2 ^ (- e)).
    assert (HD : 0 < D) by (apply Z.pow_pos_nonneg; lia).
    pose proof (Z.div_mod (Z.pos m) D ltac:(lia)) as Hdm.
    pose proof (Z.mod_pos_bound (Z.pos m) D HD) as Hmod.
    set (k := Z.pos m / D) in *.
    assert (H1 : (IZR k * IZR D <= IZR (Z.pos m))%R) by (rewrite <- mult_IZR; apply IZR_le; lia).
    assert (H2 : (IZR (Z.pos m) < (IZR k + 1) * IZR D)%R).
    { rewrite <- (plus_IZR k 1), <- mult_IZR. apply IZR_lt. lia. }
    assert (HDr : (0 < IZR D)%R) by (apply IZR_lt; lia).
    assert (Hinv : (powerRZ 2 e = / IZR D)%R).
    { unfold D. rewrite IZR_pow2 by lia.
      replace e with (- (- e)) at 1 by lia. apply powerRZ_neg'. }
    rewrite Hinv. change (IZR (Z.pos m) * / IZR D)%R with (IZR (Z.pos m) / IZR D)%R.
    split; [apply Rdiv_lower | apply Rdiv_upper_lt]; assumption.
Qed.




(** ** Export, then import *)



(** C2 on a little-endian platform: the yellow cell [(1, 0)], whose palette
    color is [(255, 255, 0, 255)], is written to the file as the pixel
    [(255, 0, 255, 255)], and the black cell [(0, 1)], whose palette color
    is [(0, 0, 0, 255)], as the pixel [(255, 0, 0, 0)]: green and blue are
    exchanged, and so are red and alpha. *)
Theorem save_little_endian_swaps_channels :
  ∃ st, session_saved env_little = Ok st ∧
        get (globals st) (20 ÷ 16) (5 ÷ 16) = 5 ∧
        palette_at (palette (globals st)) 5 = mkColor 255 255 0 255 ∧
        saved_pixel st 20 5 = Some (mkColor 255 0 255 255) ∧
        get (globals st) (5 ÷ 16) (20 ÷ 16) = 1 ∧
        palette_at (palette (globals st)) 1 = mkColor 0 0 0 255 ∧
        saved_pixel st 5 20 = Some (mkColor 255 0 0 0).
Proof.
  eexists. split; [vm_compute; reflexivity |].
  repeat split; vm_compute; reflexivity.
Qed.

(** C1 on a little-endian platform: the palette has no two entries of the
    same color; when the canvas is exported the cell [(1, 0)] holds 5
    (yellow) and the cell [(0, 1)] holds 1 (black); after the file is
    imported at the same grid dimensions they hold 7 (purple) and 2 (red). *)
Theorem roundtrip_little_endian_changes_cell :
  ∃ st st', session_saved env_little = Ok st ∧
            session_reloaded env_little = Ok st' ∧
            distinct_rgb (palette (globals st)) ∧
            CELLS_X (globals st') = CELLS_X (globals st) ∧
            CELLS_Y (globals st') = CELLS_Y (globals st) ∧
            get (globals st) 1 0 = 5 ∧ get (globals st') 1 0 = 7 ∧
            get (globals st) 0 1 = 1 ∧ get (globals st') 0 1 = 2.
Proof.
  eexists. eexists. split; [vm_compute; reflexivity |].
  split; [vm_compute; reflexivity |].
  split; [exact init_default_palette_distinct |].
  repeat split; vm_compute; reflexivity.
Qed.

(** The same session on a big-endian platform gives the canvas back. *)
Lemma roundtrip_big_endian_session :
  ∃ st st', session_saved env_big = Ok st ∧
            session_reloaded env_big = Ok st' ∧
            canvas (globals st') = canvas (globals st) ∧
            saved_pixel st 20 5 = Some (mkColor 255 255 0 255) ∧
            saved_pixel st 5 20 = Some (mkColor 0 0 0 255).
Proof.
  eexists. eexists. split; [vm_compute; reflexivity |].
  split; [vm_compute; reflexivity |].
  repeat split; vm_compute; reflexivity.
Qed.

(** * Further properties of the program *)

(** ** Sequences of events *)

Lemma run_events_app (env : Env) (es1 es2 : list SDL_Event) (st : Main) :
  run_events env (es1 ++ es2) st =
  match run_events env es1 st with
  | Ok st1 => run_events env es2 st1
  | Exit code => Exit code
  end.
Proof.
  revert st. induction es1 as [| e es1 IH]; intros st; cbn [run_events app].
  - reflexivity.
  - destruct (handle_event env e st); [apply IH | reflexivity].
Qed.

Lemma run_events_reachable (env : Env) (es : list SDL_Event) (st st' : Main) :
  reachable env st → run_events env es st = Ok st' → reachable env st'.
Proof.
  revert st. induction es as [| e es IH]; intros st Hre; cbn [run_events].
  - intros [= <-]. assumption.
  - destruct (handle_event env e st) as [st1 | code] eqn:He; [| discriminate].
    apply IH. eapply reachable_event; eauto.
Qed.

Lemma world_frame_refl (st : Main) : world_frame st st.
Proof. unfold world_frame. auto 10. Qed.

Lemma world_frame_same (st st' : Main) :
  globals st' = globals st → out st' = out st → stdin st' = stdin st →
  world_frame st st'.
Proof. intros Hg Ho Hi. unfold world_frame. rewrite Hg, Ho, Hi. auto 10. Qed.

Lemma world_frame_trans (st1 st2 st3 : Main) :
  world_frame st1 st2 → world_frame st2 st3 → world_frame st1 st3.
Proof.
  intros (HX & HY & HP & Ho & Hi) (HX' & HY' & HP' & Ho' & Hi').
  unfold world_frame. rewrite HX', HY', HP'.
  repeat (split; [assumption |]).
  split; etrans; eassumption.
Qed.

Lemma world_frame_globals (st : Main) (gl : Globals) :
  CELLS_X gl = CELLS_X (globals st) → CELLS_Y gl = CELLS_Y (globals st) →
  palette gl = palette (globals st) → world_frame st (set_globals st gl).
Proof.
  intros HX HY HP. unfold world_frame. cbn [globals set_globals out stdin]. auto 10.
Qed.

Lemma world_frame_settings (st : Main) (gl : Globals) :
  same_settings (globals st) gl → world_frame st (set_globals st gl).
Proof.
  intros (HX & HY & _ & HP & _). unfold world_frame. cbn [globals set_globals out stdin].
  auto 10.
Qed.

Lemma world_frame_emit (st st' : Main) (o : Output) :
  world_frame st st' → world_frame st (emit st' o).
Proof.
  intros (HX & HY & HP & Ho & Hi). unfold world_frame. cbn [globals emit out stdin].
  repeat (split; [assumption |]). split; [| assumption].
  now apply prefix_app_r.
Qed.

Lemma world_frame_stdin (st st' : Main) (line : string) (rest : list string) :
  world_frame st st' → stdin st' = line :: rest → world_frame st (set_stdin st' rest).
Proof.
  intros (HX & HY & HP & Ho & Hi) Hin. unfold world_frame.
  cbn [globals set_stdin out stdin].
  repeat (split; [assumption |]).
  etrans; [| exact Hi]. rewrite Hin. now apply suffix_cons_r.
Qed.

Lemma load_bmp_to_canvas_settings (env : Env) (files : gmap string File)
    (filename : string) (gl : Globals) :
  globals_ok gl →
  same_settings gl (load_bmp_to_canvas env files filename gl).2.
Proof.
  intros (HX & HY & Hv & _).
  destruct (load_bmp_to_canvas_cases env files filename gl) as [-> | (fmt & ->)]; cbn [snd].
  - apply same_settings_refl.
  - apply load_cells_spec; [lia | lia | now apply canvas_valid_sized].
Qed.

Lemma clear_canvas_settings (env : Env) (gl gl' : Globals) :
  globals_ok gl → clear_canvas env gl = Ok gl' → same_settings gl gl'.
Proof.
  intros (_ & _ & (cells & Hc & _) & _) Hclear.
  rewrite (clear_canvas_sized env gl cells Hc) in Hclear.
  injection Hclear as <-. repeat split.
Qed.

Lemma handle_key_frame (env : Env) (k : Z) (st st' : Main) :
  globals_ok (globals st) → handle_key env k st = Ok st' →
  world_frame st st' ∧ (k ≠ SDLK_s → fs st' = fs st).
Proof.
  intros Hok. unfold handle_key. cbv zeta.
  destruct (k =? SDLK_ESCAPE);
    [intros [= <-]; split; [now apply world_frame_same | reflexivity] |].
  destruct (k =? SDLK_c).
  { destruct (clear_canvas env (globals st)) as [gl' | code] eqn:Hclear;
      [| discriminate].
    intros [= <-]. split; [| reflexivity].
    apply world_frame_settings. eapply clear_canvas_settings; eauto. }
  destruct (k =? SDLK_g).
  { intros [= <-]. split; [| reflexivity].
    now apply world_frame_globals. }
  destruct (Z.eqb_spec k SDLK_s) as [-> | Hk].
  { cbn [stdin emit].
    pose proof (world_frame_emit st st (Printf "Save filename (example out.bmp): ")
                  (world_frame_refl st)) as H1.
    destruct (stdin st) as [| line rest] eqn:Hin;
      [intros [= <-]; split; [exact H1 | congruence] |].
    pose proof (world_frame_stdin st _ line rest H1 Hin) as H2.
    destruct (0 <? _); [| intros [= <-]; split; [exact H2 | congruence]].
    destruct (save_canvas_as_bmp_frame env (chomp line) (globals st)
                (fs (set_stdin (emit st (Printf "Save filename (example out.bmp): ")) rest)))
      as (rc & files' & Hsave & _).
    { apply canvas_valid_sized, Hok. }
    rewrite Hsave.
    destruct (rc =? 0); intros [= <-]; (split; [| congruence]);
      apply world_frame_emit; exact H2. }
  destruct (k =? SDLK_l).
  { cbn [stdin emit].
    pose proof (world_frame_emit st st (Printf "Load BMP filename: ")
                  (world_frame_refl st)) as H1.
    destruct (stdin st) as [| line rest] eqn:Hin;
      [intros [= <-]; split; [exact H1 | reflexivity] |].
    pose proof (world_frame_stdin st _ line rest H1 Hin) as H2.
    destruct (0 <? _); [| intros [= <-]; split; [exact H2 | reflexivity]].
    cbn [fs set_stdin emit].
    pose proof (load_bmp_to_canvas_settings env (fs st) (chomp line) (globals st) Hok) as Hset.
    destruct (load_bmp_to_canvas env (fs st) (chomp line) (globals st)) as [rc gl'].
    cbn [snd] in Hset.
    assert (Hw : world_frame st
                   (set_globals (set_stdin (emit st (Printf "Load BMP filename: ")) rest) gl')).
    { eapply world_frame_trans; [exact H2 |]. now apply world_frame_settings. }
    destruct (rc =? 0); intros [= <-]; (split; [| reflexivity]);
      apply world_frame_emit; exact Hw. }
  destruct (k =? SDLK_LEFTBRACKET).
  { intros [= <-]. split; [| reflexivity].
    apply world_frame_emit, world_frame_globals; now destruct (4 <? _). }
  destruct (k =? SDLK_RIGHTBRACKET).
  { intros [= <-]. split; [| reflexivity].
    now apply world_frame_emit, world_frame_globals. }
  destruct (_ && _); [| intros [= <-]; split; [now apply world_frame_same | reflexivity]].
  destruct (_ && _); intros [= <-]; (split; [| reflexivity]).
  - now apply world_frame_globals.
  - now apply world_frame_same.
Qed.

Lemma paint_cell_settings (gl : Globals) (button cx cy : Z) :
  same_settings gl (paint_cell gl button cx cy).
Proof.
  unfold paint_cell.
  destruct (_ && _); [| apply same_settings_refl].
  destruct (button =? SDL_BUTTON_LEFT); [apply canvas_store_settings |].
  destruct (button =? SDL_BUTTON_RIGHT);
    [apply canvas_store_settings | apply same_settings_refl].
Qed.

Lemma palette_click_frame (gl : Globals) (mx my : Z) :
  CELLS_X (palette_click gl mx my) = CELLS_X gl ∧
  CELLS_Y (palette_click gl mx my) = CELLS_Y gl ∧
  CELL_SIZE (palette_click gl mx my) = CELL_SIZE gl ∧
  palette (palette_click gl mx my) = palette gl ∧
  canvas (palette_click gl mx my) = canvas gl ∧
  show_grid (palette_click gl mx my) = show_grid gl.
Proof.
  unfold palette_click. cbv zeta.
  destruct (0 <=? _); [| auto 10].
  destruct (_ && _); auto 10.
Qed.

Lemma handle_event_frame (env : Env) (e : SDL_Event) (st st' : Main) :
  globals_ok (globals st) → handle_event env e st = Ok st' →
  world_frame st st' ∧ (e ≠ SDL_KEYDOWN SDLK_s → fs st' = fs st).
Proof.
  intros Hok. destruct e as [| button mx my | | mx my | k |]; cbn [handle_event].
  - intros [= <-]. split; [now apply world_frame_same | reflexivity].
  - cbn [globals set_mouse].
    destruct (mx <? _); intros [= <-]; (split; [| reflexivity]).
    + pose proof (paint_cell_settings (globals st) button
                    (mx ÷ CELL_SIZE (globals st)) (my ÷ CELL_SIZE (globals st)))
        as (HX & HY & _ & HP & _).
      unfold world_frame. cbn [globals set_globals out stdin]. unfold paint_at. cbv zeta.
      auto 10.
    + pose proof (palette_click_frame (globals st) mx my) as (HX & HY & _ & HP & _).
      unfold world_frame. cbn [globals set_globals out stdin]. auto 10.
  - intros [= <-]. split; [now apply world_frame_same | reflexivity].
  - destruct (mouse_down st =? 0);
      [intros [= <-]; split; [now apply world_frame_same | reflexivity] |].
    destruct (mx <? _); intros [= <-]; (split; [| reflexivity]).
    + apply world_frame_settings. apply paint_cell_settings.
    + now apply world_frame_same.
  - intros Hkey. destruct (handle_key_frame env k st st' Hok Hkey) as [Hw Hfs].
    split; [assumption |]. intros Hne. apply Hfs. congruence.
  - intros [= <-]. split; [now apply world_frame_same | reflexivity].
Qed.

Lemma handle_key_total (env : Env) (k : Z) (st : Main) :
  globals_ok (globals st) → ∃ st', handle_key env k st = Ok st'.
Proof.
  intros Hok. pose proof Hok as (_ & _ & Hv & _).
  pose proof (canvas_valid_sized _ Hv) as Hs.
  unfold handle_key. cbv zeta.
  destruct (k =? SDLK_ESCAPE); [eexists; reflexivity |].
  destruct (k =? SDLK_c).
  { destruct Hs as (cells & Hc & _).
    rewrite (clear_canvas_sized env (globals st) cells Hc). eexists; reflexivity. }
  destruct (k =? SDLK_g); [eexists; reflexivity |].
  destruct (k =? SDLK_s).
  { cbn [stdin emit]. destruct (stdin st) as [| line rest]; [eexists; reflexivity |].
    destruct (0 <? _); [| eexists; reflexivity].
    destruct (save_canvas_as_bmp_frame env (chomp line) (globals st)
                (fs (set_stdin (emit st (Printf "Save filename (example out.bmp): ")) rest))
                Hs)
      as (rc & files' & Hsave & _).
    rewrite Hsave. destruct (rc =? 0); eexists; reflexivity. }
  destruct (k =? SDLK_l).
  { cbn [stdin emit]. destruct (stdin st) as [| line rest]; [eexists; reflexivity |].
    destruct (0 <? _); [| eexists; reflexivity].
    destruct (load_bmp_to_canvas _ _ _ _) as [rc gl'].
    destruct (rc =? 0); eexists; reflexivity. }
  destruct (k =? SDLK_LEFTBRACKET); [eexists; reflexivity |].
  destruct (k =? SDLK_RIGHTBRACKET); [eexists; reflexivity |].
  destruct (_ && _); [| eexists; reflexivity].
  destruct (_ && _); eexists; reflexivity.
Qed.

Lemma handle_event_total (env : Env) (e : SDL_Event) (st : Main) :
  globals_ok (globals st) → ∃ st', handle_event env e st = Ok st'.
Proof.
  intros Hok. destruct e as [| button mx my | | mx my | k |]; cbn [handle_event].
  - eexists; reflexivity.
  - destruct (mx <? _); eexists; reflexivity.
  - eexists; reflexivity.
  - destruct (mouse_down st =? 0); [| destruct (mx <? _)]; eexists; reflexivity.
  - now apply handle_key_total.
  - eexists; reflexivity.
Qed.

Lemma run_events_total (env : Env) (es : list SDL_Event) (st : Main) :
  reachable env st → ∃ st', run_events env es st = Ok st'.
Proof.
  revert st. induction es as [| e es IH]; intros st Hre; cbn [run_events].
  - now exists st.
  - destruct (handle_event_total env e st (reachable_ok env st Hre)) as (st1 & He).
    rewrite He. apply IH. eapply reachable_event; eassumption.
Qed.


Lemma sample_state_reachable (env : Env) (input : list string) :
  alloc_ok env 4 = true → reachable env (sample_state input).
Proof.
  intros Halloc. apply (reachable_start env (Some (2, 2)) ∅ input).
  unfold startup, ensure_canvas_allocated at 1. cbn.
  change (2 * 2) with 4. rewrite Halloc. reflexivity.
Qed.


(** ** The loop of [main]: leaving it *)

Lemma handle_key_locals (env : Env) (k : Z) (st st' : Main) :
  k ≠ SDLK_ESCAPE → handle_key env k st = Ok st' →
  running st' = running st ∧ mouse_down st' = mouse_down st ∧
  mouse_button st' = mouse_button st.
Proof.
  intros Hk. unfold handle_key. cbv zeta.
  destruct (Z.eqb_spec k SDLK_ESCAPE); [contradiction |].
  destruct (k =? SDLK_c).
  { destruct (clear_canvas env (globals st)); [| discriminate]. now intros [= <-]. }
  destruct (k =? SDLK_g); [now intros [= <-] |].
  destruct (k =? SDLK_s).
  { cbn [stdin emit]. destruct (stdin st) as [| line rest]; [now intros [= <-] |].
    destruct (0 <? _); [| now intros [= <-]].
    destruct (save_canvas_as_bmp _ _ _ _) as [[[rc gl'] fs'] | code]; [| discriminate].
    destruct (rc =? 0); now intros [= <-]. }
  destruct (k =? SDLK_l).
  { cbn [stdin emit]. destruct (stdin st) as [| line rest]; [now intros [= <-] |].
    destruct (0 <? _); [| now intros [= <-]].
    destruct (load_bmp_to_canvas _ _ _ _) as [rc gl'].
    destruct (rc =? 0); now intros [= <-]. }
  destruct (k =? SDLK_LEFTBRACKET); [now intros [= <-] |].
  destruct (k =? SDLK_RIGHTBRACKET); [now intros [= <-] |].
  destruct (_ && _); [| now intros [= <-]].
  destruct (_ && _); now intros [= <-].
Qed.

Lemma handle_event_running (env : Env) (e : SDL_Event) (st st' : Main) :
  handle_event env e st = Ok st' →
  running st' = 0 ↔ running st = 0 ∨ closes e.
Proof.
  unfold closes.
  destruct e as [| button mx my | | mx my | k |]; cbn [handle_event].
  - intros [= <-]. cbn [running set_running]. tauto.
  - cbn [globals set_mouse].
    destruct (mx <? _); intros [= <-]; cbn [running set_globals];
      split; [tauto | intros [? | [? | ?]]; [assumption | discriminate..]
             | tauto | intros [? | [? | ?]]; [assumption | discriminate..]].
  - intros [= <-]. cbn [running set_mouse].
    split; [tauto | intros [? | [? | ?]]; [assumption | discriminate..]].
  - destruct (mouse_down st =? 0); [| destruct (mx <? _)]; intros [= <-];
      cbn [running set_globals];
      (split; [tauto | intros [? | [? | ?]]; [assumption | discriminate..]]).
  - destruct (Z.eq_dec k SDLK_ESCAPE) as [-> | Hk].
    + unfold handle_key. cbv zeta. change (SDLK_ESCAPE =? SDLK_ESCAPE) with true.
      cbv iota. intros [= <-]. cbn [running set_running]. tauto.
    + intros Hkey. destruct (handle_key_locals env k st st' Hk Hkey) as (-> & _).
      split; [tauto | intros [? | [? | ?]]; [assumption | discriminate | congruence]].
  - intros [= <-]. split; [tauto | intros [? | [? | ?]]; [assumption | discriminate..]].
Qed.

Lemma run_events_running (env : Env) (es : list SDL_Event) (st st' : Main) :
  run_events env es st = Ok st' →
  running st' = 0 ↔ running st = 0 ∨ Exists closes es.
Proof.
  revert st. induction es as [| e es IH]; intros st; cbn [run_events].
  - intros [= <-]. rewrite Exists_nil. tauto.
  - destruct (handle_event env e st) as [st1 | code] eqn:He; [| discriminate].
    intros Hrun. rewrite (IH st1 Hrun), (handle_event_running env e st st1 He), Exists_cons.
    tauto.
Qed.

Lemma main_loop_stopped (env : Env) (bs : list (list SDL_Event)) (st : Main)
    (frames : list (list RenderCall)) :
  running st = 0 → main_loop env bs st frames = Ok (st, frames).
Proof. intros Hr. destruct bs; cbn [main_loop]; rewrite Hr; reflexivity. Qed.

Lemma main_loop_extend (env : Env) (bs rest : list (list SDL_Event)) (st st' : Main)
    (frames frames' : list (list RenderCall)) :
  main_loop env bs st frames = Ok (st', frames') → running st' = 0 →
  main_loop env (bs ++ rest) st frames = Ok (st', frames').
Proof.
  revert st frames. induction bs as [| b bs IH]; intros st frames.
  - cbn [main_loop app]. destruct (running st =? 0) eqn:Hr.
    + intros [= <- <-] _. apply main_loop_stopped. now apply Z.eqb_eq.
    + intros [= <- <-] H0. rewrite H0 in Hr. discriminate.
  - cbn [main_loop app]. destruct (running st =? 0); [trivial |].
    destruct (run_events env b st) as [st1 | code]; [| discriminate].
    destruct (render_frame env (globals st1)) as [[gl calls] | code]; [| discriminate].
    apply IH.
Qed.

Lemma main_loop_closed (env : Env) (bs : list (list SDL_Event)) (b : list SDL_Event)
    (st st' : Main) (frames frames' : list (list RenderCall)) :
  Exists closes b →
  main_loop env (bs ++ [b]) st frames = Ok (st', frames') → running st' = 0.
Proof.
  intros Hb. revert st frames. induction bs as [| b0 bs IH]; intros st frames.
  - cbn [main_loop app]. destruct (running st =? 0) eqn:Hr.
    + intros [= <- <-]. now apply Z.eqb_eq.
    + destruct (run_events env b st) as [st1 | code] eqn:Hrun; [| discriminate].
      destruct (render_frame env (globals st1)) as [[gl calls] | code]; [| discriminate].
      assert (H1 : running st1 = 0) by (apply (run_events_running env b st st1 Hrun); tauto).
      cbn [running set_globals]. rewrite H1. cbn. now intros [= <- <-].
  - cbn [main_loop app]. destruct (running st =? 0) eqn:Hr.
    + intros [= <- <-]. now apply Z.eqb_eq.
    + destruct (run_events env b0 st) as [st1 | code]; [| discriminate].
      destruct (render_frame env (globals st1)) as [[gl calls] | code]; [| discriminate].
      apply IH.
Qed.

Lemma render_frame_eq (env : Env) (gl : Globals) :
  canvas_sized gl →
  render_frame env gl =
  Ok (gl, draw_palette_ui gl
            (fill_rows (draw_cell gl) (CELLS_X gl) (CELLS_Y gl)
               [SDL_SetRenderDrawColor background_color; SDL_RenderClear])
          ++ [SDL_RenderPresent; SDL_Delay 16]).
Proof.
  intros Hs. unfold render_frame, draw_canvas_to_renderer.
  rewrite (ensure_canvas_allocated_sized env gl Hs). reflexivity.
Qed.

Lemma set_globals_same (st : Main) : set_globals st (globals st) = st.
Proof. now destruct st. Qed.

Lemma main_loop_total (env : Env) (bs : list (list SDL_Event)) :
  ∀ (st : Main) (frames : list (list RenderCall)),
    reachable env st →
    ∃ st' frames', main_loop env bs st frames = Ok (st', frames') ∧ reachable env st'.
Proof.
  induction bs as [| b bs IH]; intros st frames Hre; cbn [main_loop].
  - destruct (running st =? 0); eexists _, _; split; (reflexivity || assumption).
  - destruct (running st =? 0); [eexists _, _; split; (reflexivity || assumption) |].
    destruct (run_events_total env b st Hre) as (st1 & Hrun). rewrite Hrun.
    pose proof (run_events_reachable env b st st1 Hre Hrun) as Hre1.
    rewrite render_frame_eq
      by (apply canvas_valid_sized; apply (reachable_ok env st1 Hre1)).
    rewrite set_globals_same. now apply IH.
Qed.

(** X2: leaving the loop of [main].  From any state the program
    reaches the loop runs without ending the program; when the window is
    closed or Escape is pressed during a turn, [running] is 0 at the end
    of that turn, and the events that later polls would deliver are never
    handled: the final state and the frames drawn are the same whatever
    they are. *)
Theorem main_loop_exit (env : Env) (bs : list (list SDL_Event))
    (b : list SDL_Event) (st : Main) (frames : list (list RenderCall)) :
  reachable env st → Exists closes b →
  ∃ st' frames',
    main_loop env (bs ++ [b]) st frames = Ok (st', frames') ∧
    running st' = 0 ∧
    ∀ rest, main_loop env ((bs ++ [b]) ++ rest) st frames = Ok (st', frames').
Proof.
  intros Hre Hb.
  destruct (main_loop_total env (bs ++ [b]) st frames Hre) as (st' & frames' & Hloop & _).
  exists st', frames'.
  assert (H0 : running st' = 0) by (eapply main_loop_closed; eassumption).
  split; [exact Hloop |]. split; [exact H0 |].
  intros rest. now apply main_loop_extend.
Qed.

Lemma main_loop_exit_witness :
  ∃ st' frames',
    main_loop env_big [[SDL_KEYDOWN SDLK_g]; [SDL_QUIT; SDL_KEYDOWN (SDLK_0 + 3)]]
      (sample_state []) [] = Ok (st', frames') ∧
    current_color (globals st') = 3 ∧ length frames' = 2%nat ∧
    running st' = 0 ∧
    main_loop env_big
      (([[SDL_KEYDOWN SDLK_g]] ++ [[SDL_QUIT; SDL_KEYDOWN (SDLK_0 + 3)]])
         ++ [[SDL_KEYDOWN SDLK_c]])
      (sample_state []) [] = Ok (st', frames').
Proof.
  destruct (main_loop_exit env_big [[SDL_KEYDOWN SDLK_g]]
              [SDL_QUIT; SDL_KEYDOWN (SDLK_0 + 3)] (sample_state []) [])
    as (st' & frames' & Hloop & H0 & Hrest).
  - apply sample_state_reachable. reflexivity.
  - apply Exists_cons_hd. left. reflexivity.
  - exists st', frames'. split; [exact Hloop |].
    split; [| split; [| split; [exact H0 | apply Hrest]]].
    + vm_compute in Hloop. injection Hloop as <- _. reflexivity.
    + vm_compute in Hloop. injection Hloop as _ <-. reflexivity.
Defined.

(** ** Grid lines and the size of the cells *)

Lemma handle_key_display (env : Env) (k : Z) (st st' : Main) :
  globals_ok (globals st) → handle_key env k st = Ok st' →
  k ≠ SDLK_g → k ≠ SDLK_LEFTBRACKET → k ≠ SDLK_RIGHTBRACKET →
  show_grid (globals st') = show_grid (globals st) ∧
  CELL_SIZE (globals st') = CELL_SIZE (globals st) ∧
  ∃ texts, out st' = out st ++ (Printf <$> texts).
Proof.
  intros Hok Hkey Hg Hl Hr. revert Hkey. unfold handle_key. cbv zeta.
  assert (Hnil : ∀ o : list Output, ∃ texts, o = o ++ (Printf <$> texts)).
  { intros o. exists []. now rewrite app_nil_r. }
  assert (Hone : ∀ (o : list Output) t, ∃ texts, o ++ [Printf t] = o ++ (Printf <$> texts)).
  { intros o t. now exists [t]. }
  assert (Htwo : ∀ (o : list Output) t u,
             ∃ texts, (o ++ [Printf t]) ++ [Printf u] = o ++ (Printf <$> texts)).
  { intros o t u. exists [t; u]. now rewrite <- app_assoc. }
  destruct (k =? SDLK_ESCAPE); [intros [= <-]; cbn; auto |].
  destruct (k =? SDLK_c).
  { destruct (clear_canvas env (globals st)) as [gl' | code] eqn:Hclear;
      [| discriminate].
    intros [= <-]. cbn [globals set_globals out].
    destruct (clear_canvas_settings env _ _ Hok Hclear) as (_ & _ & HS & _ & _ & HG).
    auto. }
  destruct (Z.eqb_spec k SDLK_g); [contradiction |].
  destruct (k =? SDLK_s).
  { cbn [stdin emit]. destruct (stdin st) as [| line rest];
      [intros [= <-]; cbn; auto |].
    destruct (0 <? _); [| intros [= <-]; cbn; auto].
    destruct (save_canvas_as_bmp_frame env (chomp line) (globals st)
                (fs (set_stdin (emit st (Printf "Save filename (example out.bmp): ")) rest)))
      as (rc & files' & Hsave & _).
    { apply canvas_valid_sized, Hok. }
    rewrite Hsave. destruct (rc =? 0); intros [= <-]; cbn; auto. }
  destruct (k =? SDLK_l).
  { cbn [stdin emit]. destruct (stdin st) as [| line rest];
      [intros [= <-]; cbn; auto |].
    destruct (0 <? _); [| intros [= <-]; cbn; auto].
    cbn [fs set_stdin emit].
    pose proof (load_bmp_to_canvas_settings env (fs st) (chomp line) (globals st) Hok)
      as (_ & _ & HS & _ & _ & HG).
    destruct (load_bmp_to_canvas env (fs st) (chomp line) (globals st)) as [rc gl'].
    cbn [snd] in HS, HG.
    destruct (rc =? 0); intros [= <-]; cbn [globals set_globals emit out set_stdin]; auto. }
  destruct (Z.eqb_spec k SDLK_LEFTBRACKET); [contradiction |].
  destruct (Z.eqb_spec k SDLK_RIGHTBRACKET); [contradiction |].
  destruct (_ && _); [| intros [= <-]; cbn; auto].
  destruct (_ && _); intros [= <-]; cbn; auto.
Qed.

Lemma handle_mouse_display (env : Env) (e : SDL_Event) (st st' : Main) :
  (∀ k, e ≠ SDL_KEYDOWN k) → handle_event env e st = Ok st' →
  show_grid (globals st') = show_grid (globals st) ∧
  CELL_SIZE (globals st') = CELL_SIZE (globals st) ∧
  out st' = out st.
Proof.
  intros Hk. destruct e as [| button mx my | | mx my | k |]; cbn [handle_event].
  - now intros [= <-].
  - cbn [globals set_mouse].
    destruct (mx <? _); intros [= <-]; cbn [globals set_globals out].
    + pose proof (paint_cell_settings (globals st) button
                    (mx ÷ CELL_SIZE (globals st)) (my ÷ CELL_SIZE (globals st)))
        as (_ & _ & HS & _ & _ & HG).
      unfold paint_at. cbv zeta. auto.
    + pose proof (palette_click_frame (globals st) mx my) as (_ & _ & HS & _ & _ & HG).
      auto.
  - now intros [= <-].
  - destruct (mouse_down st =? 0); [now intros [= <-] |].
    destruct (mx <? _); intros [= <-]; [| auto].
    cbn [globals set_globals out].
    pose proof (paint_cell_settings (globals st) (mouse_button st)
                  (mx ÷ CELL_SIZE (globals st)) (my ÷ CELL_SIZE (globals st)))
      as (_ & _ & HS & _ & _ & HG).
    unfold paint_at. cbv zeta. auto.
  - now destruct (Hk k).
  - now intros [= <-].
Qed.

Lemma handle_key_values (env : Env) (st : Main) :
  handle_key env SDLK_g st =
    Ok (set_globals st (set_show_grid (globals st)
                          (if show_grid (globals st) =? 0 then 1 else 0))) ∧
  handle_key env SDLK_LEFTBRACKET st =
    (let gl' := if 4 <? CELL_SIZE (globals st)
                then set_CELL_SIZE (globals st) (CELL_SIZE (globals st) - 1)
                else globals st in
     Ok (emit (set_globals st gl') (window_resize gl'))) ∧
  handle_key env SDLK_RIGHTBRACKET st =
    (let gl' := set_CELL_SIZE (globals st) (CELL_SIZE (globals st) + 1) in
     Ok (emit (set_globals st gl') (window_resize gl'))).
Proof. repeat split. Qed.

Lemma handle_event_flag (env : Env) (e : SDL_Event) (st st' : Main) :
  globals_ok (globals st) → handle_event env e st = Ok st' →
  flag_ok (show_grid (globals st)) → flag_ok (show_grid (globals st')).
Proof.
  intros Hok He Hf.
  destruct (decide (e = SDL_KEYDOWN SDLK_g)) as [-> | Hg].
  { cbn [handle_event] in He. rewrite (proj1 (handle_key_values env st)) in He.
    injection He as <-. cbn [globals set_globals show_grid set_show_grid].
    destruct (show_grid (globals st) =? 0); [now right | now left]. }
  destruct (decide (e = SDL_KEYDOWN SDLK_LEFTBRACKET)) as [-> | Hl].
  { cbn [handle_event] in He.
    rewrite (proj1 (proj2 (handle_key_values env st))) in He. cbv zeta in He.
    injection He as <-. cbn [globals emit set_globals].
    now destruct (4 <? _). }
  destruct (decide (e = SDL_KEYDOWN SDLK_RIGHTBRACKET)) as [-> | Hr].
  { cbn [handle_event] in He.
    rewrite (proj2 (proj2 (handle_key_values env st))) in He. cbv zeta in He.
    now injection He as <-. }
  destruct e as [| button mx my | | mx my | k |];
    try (eapply handle_mouse_display in He as (-> & _); [exact Hf | discriminate]).
  cbn [handle_event] in He.
  destruct (handle_key_display env k st st' Hok He) as (-> & _); congruence.
Qed.

(** X3: the grid-line flag is 0 or 1 in every state the program
    reaches, and pressing [g] twice gives back the state as it was. *)
Theorem reachable_show_grid (env : Env) (st : Main) :
  reachable env st →
  flag_ok (show_grid (globals st)) ∧
  run_events env [SDL_KEYDOWN SDLK_g; SDL_KEYDOWN SDLK_g] st = Ok st.
Proof.
  intros Hre.
  assert (Hf : flag_ok (show_grid (globals st))).
  { induction Hre as [args files input st Hstart | e st st' Hre IH Hstep].
    - revert Hstart. unfold startup.
      destruct (ensure_canvas_allocated env _) as [gl1 | code] eqn:H1; [| discriminate].
      destruct (clear_canvas env _) as [gl3 | code] eqn:H3; [| discriminate].
      intros [= <-]. cbn [globals].
      revert H1 H3. unfold clear_canvas, ensure_canvas_allocated.
      destruct args as [[x y] |]; cbn [canvas initial_globals].
      + destruct (alloc_ok env _); [| discriminate]. intros [= <-].
        cbn [canvas set_canvas set_palette]. intros [= <-]. now right.
      + destruct (alloc_ok env _); [| discriminate]. intros [= <-].
        cbn [canvas set_canvas set_palette]. intros [= <-]. now right.
    - eapply handle_event_flag; eauto using reachable_ok. }
  split; [exact Hf |].
  cbn [run_events handle_event]. rewrite (proj1 (handle_key_values env st)).
  rewrite (proj1 (handle_key_values env _)).
  cbn [globals set_globals show_grid set_show_grid].
  destruct st as [[X Y S cv pal cc sg] rn md mb files input o].
  cbn [globals show_grid] in *. unfold set_globals, set_show_grid. cbn.
  destruct Hf as [-> | ->]; reflexivity.
Qed.

Lemma reachable_show_grid_witness :
  flag_ok (show_grid (globals (sample_state []))) ∧
  run_events env_big [SDL_KEYDOWN SDLK_g; SDL_KEYDOWN SDLK_g] (sample_state [])
  = Ok (sample_state []).
Proof.
  apply (reachable_show_grid env_big (sample_state [])).
  apply sample_state_reachable. reflexivity.
Defined.

Lemma memset0_replicate (n : Z) :
  memset0 (replicate (Z.to_nat n) 0) n = replicate (Z.to_nat n) 0.
Proof.
  unfold memset0. rewrite drop_ge by (rewrite length_replicate; lia).
  apply app_nil_r.
Qed.

Lemma startup_eq (env : Env) (args : option (Z * Z)) (files : gmap string File)
    (input : list string) :
  startup env args files input =
  if alloc_ok env (start_width args * start_height args)
  then Ok (mkMain (mkGlobals (start_width args) (start_height args) 16
                     (Some (replicate (Z.to_nat (start_width args * start_height args)) 0))
                     init_default_palette 1 1)
                  1 0 0 files input [])
  else Exit 1.
Proof.
  unfold startup, clear_canvas, ensure_canvas_allocated.
  destruct args as [[x y] |];
    cbn [canvas initial_globals CELLS_X CELLS_Y start_width start_height];
    unfold grid_dimension;
    (destruct (alloc_ok env _); [| reflexivity]);
    cbn [canvas set_canvas set_palette CELLS_X CELLS_Y fmap option_fmap option_map];
    rewrite memset0_replicate; reflexivity.
Qed.

Lemma window_size_printf (st st' : Main) (texts : list string) :
  CELLS_X (globals st') = CELLS_X (globals st) →
  CELLS_Y (globals st') = CELLS_Y (globals st) →
  out st' = out st ++ (Printf <$> texts) → window_size st' = window_size st.
Proof.
  intros HX HY Ho. unfold window_size. rewrite Ho, HX, HY, fold_left_app.
  clear Ho. generalize (fold_left
    (λ (size : Z * Z) (o : Output),
       match o with SDL_SetWindowSize w h => (w, h) | Printf _ => size end)
    (out st)
    (CELLS_X (globals st) * CELL_SIZE initial_globals + 200,
     CELLS_Y (globals st) * CELL_SIZE initial_globals + 20)).
  induction texts as [| t texts IH]; intros size; [reflexivity | apply IH].
Qed.

Lemma window_size_resize (st' : Main) (o : list Output) (w h : Z) :
  out st' = o ++ [SDL_SetWindowSize w h] → window_size st' = (w, h).
Proof. intros Ho. unfold window_size. rewrite Ho, fold_left_app. reflexivity. Qed.

Lemma handle_event_window (env : Env) (e : SDL_Event) (st st' : Main) :
  globals_ok (globals st) → handle_event env e st = Ok st' →
  window_size st = (CELLS_X (globals st) * CELL_SIZE (globals st) + 200,
                    CELLS_Y (globals st) * CELL_SIZE (globals st) + 20) →
  window_size st' = (CELLS_X (globals st') * CELL_SIZE (globals st') + 200,
                     CELLS_Y (globals st') * CELL_SIZE (globals st') + 20).
Proof.
  intros Hok He Hw.
  destruct (decide (e = SDL_KEYDOWN SDLK_LEFTBRACKET)) as [-> | Hl].
  { cbn [handle_event] in He.
    rewrite (proj1 (proj2 (handle_key_values env st))) in He. cbv zeta in He.
    injection He as <-. eapply window_size_resize. cbn [out emit globals set_globals].
    reflexivity. }
  destruct (decide (e = SDL_KEYDOWN SDLK_RIGHTBRACKET)) as [-> | Hr].
  { cbn [handle_event] in He.
    rewrite (proj2 (proj2 (handle_key_values env st))) in He. cbv zeta in He.
    injection He as <-. eapply window_size_resize. cbn [out emit globals set_globals].
    reflexivity. }
  destruct (handle_event_frame env e st st' Hok He) as ((HX & HY & _) & _).
  assert (HS : CELL_SIZE (globals st') = CELL_SIZE (globals st) ∧
               ∃ texts, out st' = out st ++ (Printf <$> texts)).
  { destruct (decide (e = SDL_KEYDOWN SDLK_g)) as [-> | Hg].
    { cbn [handle_event] in He. rewrite (proj1 (handle_key_values env st)) in He.
      injection He as <-. split; [reflexivity |]. exists []. symmetry. apply app_nil_r. }
    destruct e as [| button mx my | | mx my | k |];
      try (eapply handle_mouse_display in He as (_ & -> & ->);
           [split; [reflexivity | exists []; symmetry; apply app_nil_r] | discriminate]).
    cbn [handle_event] in He.
    destruct (handle_key_display env k st st' Hok He) as (_ & -> & Ho);
      [congruence.. |]. now split. }
  destruct HS as (HS & texts & Ho).
  rewrite (window_size_printf st st' texts HX HY Ho), HX, HY, HS. exact Hw.
Qed.

(** X4: in every state the program reaches the cells are at least
    4 pixels wide and the window has room for the raster: its size is
    [CELLS_X * CELL_SIZE + 200] by [CELLS_Y * CELL_SIZE + 20]; and the
    right bracket key followed by the left bracket key gives back the
    globals as they were. *)
Theorem reachable_window_size (env : Env) (st : Main) :
  reachable env st →
  4 ≤ CELL_SIZE (globals st) ∧
  window_size st = (CELLS_X (globals st) * CELL_SIZE (globals st) + 200,
                    CELLS_Y (globals st) * CELL_SIZE (globals st) + 20) ∧
  ∃ st', run_events env [SDL_KEYDOWN SDLK_RIGHTBRACKET; SDL_KEYDOWN SDLK_LEFTBRACKET] st
           = Ok st' ∧
         globals st' = globals st.
Proof.
  intros Hre.
  assert (HS : 4 ≤ CELL_SIZE (globals st)) by apply (reachable_ok env st Hre).
  split; [exact HS |]. split.
  - induction Hre as [args files input st Hstart | e st st' Hre IH Hstep].
    + rewrite startup_eq in Hstart.
      destruct (alloc_ok env _); [| discriminate].
      injection Hstart as <-. reflexivity.
    + eapply handle_event_window; eauto using reachable_ok.
      apply IH. apply (reachable_ok env st Hre).
  - cbn [run_events handle_event].
    rewrite (proj2 (proj2 (handle_key_values env st))). cbv zeta.
    cbn [run_events handle_event].
    rewrite (proj1 (proj2 (handle_key_values env _))). cbv zeta.
    eexists. split; [reflexivity |].
    cbn [globals emit set_globals CELL_SIZE set_CELL_SIZE].
    destruct (Z.ltb_spec 4 (CELL_SIZE (globals st) + 1)); [| lia].
    destruct (globals st) as [X Y S cv pal cc sg]. unfold set_CELL_SIZE. cbn.
    f_equal. lia.
Qed.

Lemma reachable_window_size_witness :
  4 ≤ CELL_SIZE (globals (sample_state [])) ∧
  window_size (sample_state []) = (232, 52) ∧
  ∃ st', run_events env_big [SDL_KEYDOWN SDLK_RIGHTBRACKET; SDL_KEYDOWN SDLK_LEFTBRACKET]
           (sample_state []) = Ok st' ∧
         globals st' = globals (sample_state []).
Proof.
  apply (reachable_window_size env_big (sample_state [])).
  apply sample_state_reachable. reflexivity.
Defined.

(** ** The keyboard alone, and the events that do not edit *)

Lemma handle_key_effect (env : Env) (k : Z) (st st' : Main) :
  globals_ok (globals st) → handle_key env k st = Ok st' →
  (current_color (globals st') = current_color (globals st) ∨
   0 ≤ current_color (globals st') ≤ 9) ∧
  (k ≠ SDLK_c → k ≠ SDLK_l → canvas (globals st') = canvas (globals st)).
Proof.
  intros Hok. unfold handle_key. cbv zeta.
  destruct (k =? SDLK_ESCAPE); [intros [= <-]; auto |].
  destruct (Z.eqb_spec k SDLK_c) as [-> | Hc].
  { destruct (clear_canvas env (globals st)) as [gl' | code] eqn:Hclear;
      [| discriminate].
    intros [= <-]. cbn [globals set_globals].
    destruct (clear_canvas_settings env _ _ Hok Hclear) as (_ & _ & _ & _ & Hcc & _).
    split; [now left | congruence]. }
  destruct (k =? SDLK_g); [intros [= <-]; auto |].
  destruct (k =? SDLK_s).
  { cbn [stdin emit]. destruct (stdin st) as [| line rest]; [intros [= <-]; auto |].
    destruct (0 <? _); [| intros [= <-]; auto].
    destruct (save_canvas_as_bmp_frame env (chomp line) (globals st)
                (fs (set_stdin (emit st (Printf "Save filename (example out.bmp): ")) rest)))
      as (rc & files' & Hsave & _).
    { apply canvas_valid_sized, Hok. }
    rewrite Hsave. destruct (rc =? 0); intros [= <-]; auto. }
  destruct (Z.eqb_spec k SDLK_l) as [-> | Hl].
  { cbn [stdin emit]. destruct (stdin st) as [| line rest];
      [intros [= <-]; split; [now left | congruence] |].
    destruct (0 <? _); [| intros [= <-]; split; [now left | congruence]].
    cbn [fs set_stdin emit].
    pose proof (load_bmp_to_canvas_settings env (fs st) (chomp line) (globals st) Hok)
      as (_ & _ & _ & _ & Hcc & _).
    destruct (load_bmp_to_canvas env (fs st) (chomp line) (globals st)) as [rc gl'].
    cbn [snd] in Hcc.
    destruct (rc =? 0); intros [= <-]; cbn [globals set_globals emit];
      (split; [now left | congruence]). }
  destruct (k =? SDLK_LEFTBRACKET).
  { intros [= <-]. cbn [globals emit set_globals]. now destruct (4 <? _); auto. }
  destruct (k =? SDLK_RIGHTBRACKET); [intros [= <-]; auto |].
  destruct ((SDLK_0 <=? k) && (k <=? SDLK_9)) eqn:Hk; [| intros [= <-]; auto].
  destruct ((0 <=? k - SDLK_0) && (k - SDLK_0 <? PALETTE_COUNT)) eqn:Hn;
    intros [= <-]; [| auto].
  cbn [globals set_globals current_color canvas set_current_color].
  split; [right | reflexivity].
  apply andb_true_iff in Hk as [Hk0 Hk9]. apply andb_true_iff in Hn as [Hn0 _].
  unfold SDLK_0, SDLK_9 in *. lia.
Qed.

Lemma handle_event_effect (env : Env) (e : SDL_Event) (st st' : Main) :
  globals_ok (globals st) → handle_event env e st = Ok st' →
  (¬ is_press e →
   current_color (globals st') = current_color (globals st) ∨
   0 ≤ current_color (globals st') ≤ 9) ∧
  (¬ edits e → canvas (globals st') = canvas (globals st)).
Proof.
  intros Hok. destruct e as [| button mx my | | mx my | k |];
    cbn [handle_event is_press edits].
  - intros [= <-]. auto.
  - intros _. tauto.
  - intros [= <-]. auto.
  - destruct (mouse_down st =? 0); [intros [= <-]; split; [auto | tauto] |].
    destruct (mx <? _); intros [= <-]; [| split; [auto | tauto]].
    cbn [globals set_globals].
    pose proof (paint_cell_settings (globals st) (mouse_button st)
                  (mx ÷ CELL_SIZE (globals st)) (my ÷ CELL_SIZE (globals st)))
      as (_ & _ & _ & _ & Hcc & _).
    unfold paint_at. cbv zeta. split; [auto | tauto].
  - intros Hkey. destruct (handle_key_effect env k st st' Hok Hkey) as [Hcc Hcv].
    split; [auto |]. intros Hne. apply Hcv; intros ->; apply Hne; auto.
  - intros [= <-]. auto.
Qed.

(** X5: what the keyboard cannot reach, and what only editing
    events touch.  From any state the program reaches, events that are
    not presses of a mouse button leave the current color as it is or set
    it to one of the entries 0 to 9, so that entries 10 and 11 are chosen
    by the pointer only; and events other than a press, a motion and the
    keys [c] and [l] leave the canvas as it is, the key [s] among them. *)
Theorem run_events_effect (env : Env) (es : list SDL_Event) (st st' : Main) :
  reachable env st → run_events env es st = Ok st' →
  (Forall (λ e, ¬ is_press e) es →
   current_color (globals st') = current_color (globals st) ∨
   0 ≤ current_color (globals st') ≤ 9) ∧
  (Forall (λ e, ¬ edits e) es → canvas (globals st') = canvas (globals st)).
Proof.
  revert st. induction es as [| e es IH]; intros st Hre; cbn [run_events].
  - intros [= <-]. auto.
  - destruct (handle_event env e st) as [st1 | code] eqn:He; [| discriminate].
    intros Hrun.
    destruct (handle_event_effect env e st st1 (reachable_ok env st Hre) He) as [Hc1 Hv1].
    destruct (IH st1 (reachable_event env e st st1 Hre He) Hrun) as [Hc2 Hv2].
    split.
    + intros Hall. apply Forall_cons in Hall as [Hhd Htl].
      destruct (Hc2 Htl) as [Heq | Hlow]; [| now right].
      rewrite Heq. now apply Hc1.
    + intros Hall. apply Forall_cons in Hall as [Hhd Htl].
      rewrite (Hv2 Htl). now apply Hv1.
Qed.

Lemma run_events_effect_witness :
  ∃ st', run_events env_big
           [SDL_KEYDOWN (SDLK_0 + 7); SDL_KEYDOWN SDLK_s; SDL_KEYDOWN SDLK_g]
           (sample_state ["a.bmp" +:+ nl]) = Ok st' ∧
         current_color (globals st') = 7 ∧
         canvas (globals st') = canvas (globals (sample_state ["a.bmp" +:+ nl])).
Proof.
  eexists. split; [vm_compute; reflexivity |]. split; [reflexivity |].
  refine (proj2 (run_events_effect env_big
                   [SDL_KEYDOWN (SDLK_0 + 7); SDL_KEYDOWN SDLK_s; SDL_KEYDOWN SDLK_g]
                   (sample_state ["a.bmp" +:+ nl]) _
                   (sample_state_reachable env_big ["a.bmp" +:+ nl] eq_refl) eq_refl) _).
  repeat constructor; cbn [edits]; intros [H | H]; discriminate H.
Defined.

(** ** The start of [main] *)


(** ** The pointer: choosing a color *)

Lemma quot_band (p n c : Z) : 0 < n → c * n ≤ p < c * n + n → 0 ≤ c → p ÷ n = c.
Proof.
  intros Hn Hp Hc. rewrite Z.quot_div_nonneg by nia.
  symmetry. apply (Z.div_unique _ _ _ (p - c * n)); lia.
Qed.

Lemma palette_index_split (i : Z) :
  0 ≤ i → 0 ≤ Z.rem i 2 < 2 ∧ 0 ≤ i ÷ 2 ∧ (i ÷ 2) * 2 + Z.rem i 2 = i.
Proof.
  intros Hi. rewrite Z.rem_mod_nonneg, Z.quot_div_nonneg by lia.
  pose proof (Z.div_mod i 2 ltac:(lia)). pose proof (Z.mod_pos_bound i 2 ltac:(lia)).
  lia.
Qed.

(** X7: a press of any button on the box of a palette entry, or
    on the 8 pixels of the gap to the right of it or below it, makes that
    entry the current color and changes no cell; the button counts as
    held afterwards. *)
Theorem palette_click_box (env : Env) (st : Main) (button i mx my : Z) :
  valid_index i → in_rect (palette_tile (globals st) i) mx my →
  (∀ px py, in_rect (palette_box (globals st) i) px py →
            in_rect (palette_tile (globals st) i) px py) ∧
  handle_event env (SDL_MOUSEBUTTONDOWN button mx my) st =
  Ok (set_globals (set_mouse st 1 button) (set_current_color (globals st) i)).
Proof.
  intros [Hi0 Hi1] [Hx Hy]. split.
  { intros px py [Hpx Hpy]. unfold in_rect, palette_tile, palette_box in *.
    cbn [rect_x rect_y rect_w rect_h] in *. lia. }
  destruct (palette_index_split i Hi0) as (Hrem & Hquot & Hsum).
  unfold palette_tile, palette_box in Hx, Hy. cbn [rect_x rect_y rect_w rect_h] in Hx, Hy.
  cbn [handle_event globals set_mouse].
  destruct (Z.ltb_spec mx (CELLS_X (globals st) * CELL_SIZE (globals st))); [lia |].
  f_equal. f_equal. unfold palette_click. cbv zeta.
  destruct (Z.leb_spec 0 (mx - (CELLS_X (globals st) * CELL_SIZE (globals st) + 10)));
    [| lia].
  rewrite (quot_band (mx - (CELLS_X (globals st) * CELL_SIZE (globals st) + 10))
             (24 + 8) (Z.rem i 2)) by lia.
  rewrite (quot_band (my - 10) (24 + 8) (i ÷ 2)) by lia.
  rewrite Hsum.
  destruct (Z.leb_spec 0 i); [| lia].
  unfold PALETTE_COUNT in *.
  destruct (Z.ltb_spec i 12); [reflexivity | lia].
Qed.

Lemma palette_click_box_witness :
  handle_event env_big (SDL_MOUSEBUTTONDOWN SDL_BUTTON_RIGHT 80 50) (sample_state []) =
  Ok (set_globals (set_mouse (sample_state []) 1 SDL_BUTTON_RIGHT)
        (set_current_color (globals (sample_state [])) 3)).
Proof.
  apply (palette_click_box env_big (sample_state []) SDL_BUTTON_RIGHT 3 80 50).
  - unfold valid_index, PALETTE_COUNT. lia.
  - unfold in_rect. vm_compute. intuition discriminate.
Defined.

(** X8: the palette is hit outside of its boxes too.  The press
    is not checked against the two columns of the palette: at the height
    of the first row, or above it, a press [col] tiles to the right of
    the first column, where no box is drawn, makes entry [col] the current
    color. *)
Theorem palette_click_beyond (env : Env) (st : Main) (button col mx my : Z) :
  2 ≤ col < PALETTE_COUNT →
  CELLS_X (globals st) * CELL_SIZE (globals st) + 10 + col * 32 ≤ mx
    < CELLS_X (globals st) * CELL_SIZE (globals st) + 10 + col * 32 + 32 →
  -22 < my < 42 →
  (∀ i, valid_index i → ¬ in_rect (palette_tile (globals st) i) mx my) ∧
  handle_event env (SDL_MOUSEBUTTONDOWN button mx my) st =
  Ok (set_globals (set_mouse st 1 button) (set_current_color (globals st) col)).
Proof.
  intros Hcol Hx Hy. unfold PALETTE_COUNT in *. split.
  { intros i [Hi _] [Hix _]. destruct (palette_index_split i Hi) as (Hc & _).
    unfold palette_tile, palette_box in Hix. cbn [rect_x rect_y rect_w rect_h] in Hix.
    lia. }
  cbn [handle_event globals set_mouse].
  destruct (Z.ltb_spec mx (CELLS_X (globals st) * CELL_SIZE (globals st))); [lia |].
  f_equal. f_equal. unfold palette_click. cbv zeta.
  destruct (Z.leb_spec 0 (mx - (CELLS_X (globals st) * CELL_SIZE (globals st) + 10)));
    [| lia].
  rewrite (quot_band (mx - (CELLS_X (globals st) * CELL_SIZE (globals st) + 10))
             (24 + 8) col) by lia.
  assert (Hrow : (my - 10) ÷ (24 + 8) = 0).
  { apply Z.quot_small_iff; [lia |]. lia. }
  rewrite Hrow. change (0 * 2 + col) with col.
  destruct (Z.leb_spec 0 col); [| lia].
  unfold PALETTE_COUNT.
  destruct (Z.ltb_spec col 12); [reflexivity | lia].
Qed.

Lemma palette_click_beyond_witness :
  handle_event env_big (SDL_MOUSEBUTTONDOWN SDL_BUTTON_LEFT 220 4) (sample_state []) =
  Ok (set_globals (set_mouse (sample_state []) 1 SDL_BUTTON_LEFT)
        (set_current_color (globals (sample_state [])) 5)).
Proof.
  apply (palette_click_beyond env_big (sample_state []) SDL_BUTTON_LEFT 5 220 4).
  - unfold PALETTE_COUNT. lia.
  - cbn. lia.
  - lia.
Defined.

(** ** The pointer: strokes *)

Lemma brush_valid (gl : Globals) (button v : Z) :
  valid_index (current_color gl) → brush gl button = Some v → valid_index v.
Proof.
  intros Hcc. unfold brush.
  destruct (button =? SDL_BUTTON_LEFT); [now intros [= <-] |].
  destruct (button =? SDL_BUTTON_RIGHT); [| discriminate].
  intros [= <-]. unfold valid_index, PALETTE_COUNT. lia.
Qed.

Lemma paint_at_brush (gl : Globals) (button mx my v : Z) :
  1 ≤ CELL_SIZE gl → on_raster gl mx my → brush gl button = Some v →
  paint_at gl button mx my =
  canvas_store gl ((my ÷ CELL_SIZE gl) * CELLS_X gl + mx ÷ CELL_SIZE gl) v.
Proof.
  intros HS [Hx Hy]. unfold brush, paint_at, paint_cell. cbv zeta.
  rewrite in_grid_true by (apply quot_cell; assumption).
  destruct (button =? SDL_BUTTON_LEFT); [now intros [= <-] |].
  destruct (button =? SDL_BUTTON_RIGHT); [now intros [= <-] | discriminate].
Qed.

Lemma paint_at_cells (gl : Globals) (button mx my v : Z) :
  globals_ok gl → on_raster gl mx my → brush gl button = Some v →
  globals_ok (paint_at gl button mx my) ∧
  same_settings gl (paint_at gl button mx my) ∧
  ∀ cx cy, 0 ≤ cx < CELLS_X gl → 0 ≤ cy < CELLS_Y gl →
    get (paint_at gl button mx my) cx cy =
    if decide (mx ÷ CELL_SIZE gl = cx ∧ my ÷ CELL_SIZE gl = cy) then v else get gl cx cy.
Proof.
  intros Hok Hon Hb.
  pose proof Hok as (HX & HY & Hv & Hcc & _ & HS).
  split; [now apply paint_cell_ok |]. split; [apply paint_cell_settings |].
  rewrite (paint_at_brush gl button mx my v) by (assumption || lia).
  destruct Hon as [Hx Hy].
  pose proof (quot_cell mx (CELL_SIZE gl) (CELLS_X gl) ltac:(lia) Hx) as Hcx.
  pose proof (quot_cell my (CELL_SIZE gl) (CELLS_Y gl) ltac:(lia) Hy) as Hcy.
  intros cx cy Hx' Hy'. destruct (decide _) as [[Hex Hey] | Hne].
  - subst cx cy. rewrite canvas_store_get_eq by (try apply canvas_valid_sized; assumption).
    apply wrap8_valid. eapply brush_valid; eassumption.
  - apply canvas_store_get_ne.
    + pose proof (cell_index_bound _ _ _ _ Hcx Hcy). lia.
    + intros Heq. apply cell_index_inj in Heq; [| assumption | assumption].
      destruct Heq as [Hex Hey]. apply Hne. split; congruence.
Qed.

Lemma brush_settings (gl gl' : Globals) (button : Z) :
  same_settings gl gl' → brush gl' button = brush gl button.
Proof. intros (_ & _ & _ & _ & Hcc & _). unfold brush. now rewrite Hcc. Qed.

Lemma drag_held (env : Env) (points : list (Z * Z)) (v : Z) :
  ∀ st, mouse_down st ≠ 0 → globals_ok (globals st) →
    brush (globals st) (mouse_button st) = Some v →
    Forall (λ p, on_raster (globals st) p.1 p.2) points →
    ∃ st', run_events env (drag points) st = Ok st' ∧
           st' = set_globals st (globals st') ∧
           globals_ok (globals st') ∧
           same_settings (globals st) (globals st') ∧
           ∀ cx cy, 0 ≤ cx < CELLS_X (globals st) → 0 ≤ cy < CELLS_Y (globals st) →
             (visits (globals st) points cx cy → get (globals st') cx cy = v) ∧
             (¬ visits (globals st) points cx cy →
              get (globals st') cx cy = get (globals st) cx cy).
Proof.
  induction points as [| [mx my] points IH]; intros st Hdown Hok Hb Hall.
  - exists st. cbn [drag fmap list_fmap run_events].
    split; [reflexivity |]. split; [now destruct st |]. split; [assumption |].
    split; [apply same_settings_refl |].
    intros cx cy _ _. unfold visits. rewrite Exists_nil. tauto.
  - apply Forall_cons in Hall as [Hon Hall]. cbn [fst snd] in Hon.
    destruct (paint_at_cells (globals st) (mouse_button st) mx my v Hok Hon Hb)
      as (Hok1 & Hset1 & Hget1).
    set (st1 := set_globals st (paint_at (globals st) (mouse_button st) mx my)).
    assert (Hstep : handle_event env (SDL_MOUSEMOTION mx my) st = Ok st1).
    { cbn [handle_event]. destruct (Z.eqb_spec (mouse_down st) 0); [contradiction |].
      destruct Hon as [Hx _].
      destruct (Z.ltb_spec mx (CELLS_X (globals st) * CELL_SIZE (globals st))); [| lia].
      reflexivity. }
    pose proof Hset1 as (HX1 & HY1 & HS1 & _).
    destruct (IH st1) as (st' & Hrun & Hst' & Hok' & Hset' & Hget').
    { exact Hdown. }
    { exact Hok1. }
    { cbn [globals st1 set_globals mouse_button].
      now rewrite (brush_settings (globals st) _ _ Hset1). }
    { cbn [globals st1 set_globals].
      eapply Forall_impl; [exact Hall |]. intros p Hp. unfold on_raster in *.
      now rewrite HX1, HY1, HS1. }
    exists st'. cbn [drag fmap list_fmap run_events fst snd]. rewrite Hstep.
    split; [exact Hrun |]. split.
    { rewrite Hst' at 1. reflexivity. }
    split; [exact Hok' |].
    split; [eapply same_settings_trans; eassumption |].
    cbn [globals st1 set_globals] in Hget', Hset'.
    intros cx cy Hcx Hcy.
    destruct (Hget' cx cy) as [Hin Hout]; [rewrite HX1; exact Hcx | rewrite HY1; exact Hcy |].
    unfold visits in *. rewrite HS1 in Hin, Hout. rewrite Exists_cons. cbn [fst snd].
    specialize (Hget1 cx cy Hcx Hcy).
    destruct (decide (Exists (λ p, p.1 ÷ CELL_SIZE (globals st) = cx ∧
                                   p.2 ÷ CELL_SIZE (globals st) = cy) points))
      as [Hvis | Hnot].
    + split; [intros _; now apply Hin | tauto].
    + rewrite (Hout Hnot), Hget1. destruct (decide _) as [Hhere | Hnot_here].
      * split; [reflexivity | tauto].
      * split; [tauto | reflexivity].
Qed.

Lemma drag_released (env : Env) (points : list (Z * Z)) (st : Main) :
  mouse_down st = 0 → run_events env (drag points) st = Ok st.
Proof.
  intros Hup. induction points as [| [mx my] points IH]; cbn [drag fmap list_fmap run_events].
  - reflexivity.
  - cbn [handle_event fst snd]. rewrite Hup. exact IH.
Qed.

(** X9: a stroke on the raster.  From any state the program
    reaches, pressing the left or the right button and
    moving the pointer over the raster with the button held stores the
    current color (left) or 0 (right) in exactly the cells under the
    points the pointer reports, and changes nothing else of the state but
    the held button; once the button is released, moving the pointer
    changes nothing. *)
Theorem stroke_paints (env : Env) (st : Main) (button v : Z)
    (p0 : Z * Z) (points after : list (Z * Z)) :
  reachable env st → brush (globals st) button = Some v →
  Forall (λ p, on_raster (globals st) p.1 p.2) (p0 :: points) →
  ∃ st', run_events env (SDL_MOUSEBUTTONDOWN button p0.1 p0.2 :: drag points) st = Ok st' ∧
         st' = set_globals (set_mouse st 1 button) (globals st') ∧
         same_settings (globals st) (globals st') ∧
         (∀ cx cy, 0 ≤ cx < CELLS_X (globals st) → 0 ≤ cy < CELLS_Y (globals st) →
            (visits (globals st) (p0 :: points) cx cy → get (globals st') cx cy = v) ∧
            (¬ visits (globals st) (p0 :: points) cx cy →
             get (globals st') cx cy = get (globals st) cx cy)) ∧
         run_events env (SDL_MOUSEBUTTONUP :: drag after) st'
         = Ok (set_mouse st' 0 button).
Proof.
  intros Hre Hb Hall. pose proof (reachable_ok env st Hre) as Hok.
  apply Forall_cons in Hall as [Hon Hall]. destruct p0 as [mx my]. cbn [fst snd] in *.
  destruct (paint_at_cells (globals st) button mx my v Hok Hon Hb)
    as (Hok1 & Hset1 & Hget1).
  set (st1 := set_globals (set_mouse st 1 button) (paint_at (globals st) button mx my)).
  assert (Hstep : handle_event env (SDL_MOUSEBUTTONDOWN button mx my) st = Ok st1).
  { cbn [handle_event globals set_mouse]. destruct Hon as [Hx _].
    destruct (Z.ltb_spec mx (CELLS_X (globals st) * CELL_SIZE (globals st))); [| lia].
    reflexivity. }
  pose proof Hset1 as (HX1 & HY1 & HS1 & _).
  destruct (drag_held env points v st1) as (st' & Hrun & Hst' & Hok' & Hset' & Hget').
  { cbn. lia. }
  { exact Hok1. }
  { cbn [globals st1 set_globals mouse_button set_mouse].
    now rewrite (brush_settings (globals st) _ _ Hset1). }
  { cbn [globals st1 set_globals].
    eapply Forall_impl; [exact Hall |]. intros p Hp. unfold on_raster in *.
    now rewrite HX1, HY1, HS1. }
  exists st'. cbn [run_events]. rewrite Hstep.
  split; [exact Hrun |]. split.
  { rewrite Hst' at 1. reflexivity. }
  split; [eapply same_settings_trans; eassumption |]. split.
  - cbn [globals st1 set_globals] in Hget', Hset'.
    intros cx cy Hcx Hcy.
    destruct (Hget' cx cy) as [Hin Hout]; [rewrite HX1; exact Hcx | rewrite HY1; exact Hcy |].
    unfold visits in *. rewrite HS1 in Hin, Hout. rewrite Exists_cons. cbn [fst snd].
    specialize (Hget1 cx cy Hcx Hcy).
    destruct (decide (Exists (λ p, p.1 ÷ CELL_SIZE (globals st) = cx ∧
                                   p.2 ÷ CELL_SIZE (globals st) = cy) points))
      as [Hvis | Hnot].
    + split; [intros _; now apply Hin | tauto].
    + rewrite (Hout Hnot), Hget1. destruct (decide _) as [Hhere | Hnot_here].
      * split; [reflexivity | tauto].
      * split; [tauto | reflexivity].
  - cbn [run_events handle_event].
    assert (Hmb : mouse_button st' = button) by (rewrite Hst'; reflexivity).
    rewrite Hmb. apply drag_released. reflexivity.
Qed.

Lemma stroke_paints_witness :
  ∃ st', run_events env_big
           (SDL_MOUSEBUTTONDOWN SDL_BUTTON_LEFT 3 3 :: drag [(10, 20); (20, 20)])
           (sample_state []) = Ok st' ∧
         canvas (globals st') = Some [1; 0; 1; 1] ∧
         run_events env_big (SDL_MOUSEBUTTONUP :: drag [(20, 3)]) st'
         = Ok (set_mouse st' 0 SDL_BUTTON_LEFT).
Proof.
  destruct (stroke_paints env_big (sample_state []) SDL_BUTTON_LEFT 1 (3, 3)
              [(10, 20); (20, 20)] [(20, 3)]) as (st' & Hrun & _ & _ & _ & Hup).
  - apply sample_state_reachable. reflexivity.
  - reflexivity.
  - repeat constructor; vm_compute; congruence.
  - exists st'. split; [exact Hrun |]. split; [| exact Hup].
    vm_compute in Hrun. injection Hrun as <-. reflexivity.
Defined.

(** ** Drawing

    A loop whose iterations each give some of the observations of the
    state their final value and leave the others alone, the observations
    of different iterations being disjoint. *)

Section Paint.
Context {St O V : Type} (obs : St → O → V).

Lemma paint_range (body : Z → St → St) (own : Z → O → Prop) (fin : Z → O → V)
    (lo hi : Z) (s : St) :
  lo ≤ hi →
  (∀ i t o, lo ≤ i < hi → own i o → obs (body i t) o = fin i o) →
  (∀ i t o, lo ≤ i < hi → ¬ own i o → obs (body i t) o = obs t o) →
  (∀ i j o, lo ≤ i < hi → lo ≤ j < hi → own i o → own j o → i = j) →
  (∀ i o, lo ≤ i < hi → own i o → obs (for_range lo hi body s) o = fin i o) ∧
  (∀ o, (∀ i, lo ≤ i < hi → ¬ own i o) → obs (for_range lo hi body s) o = obs s o).
Proof.
  intros Hle Hown Hother Hdisj.
  apply (for_range_ind
           (λ i t, (∀ j o, lo ≤ j < i → own j o → obs t o = fin j o) ∧
                   (∀ o, (∀ j, lo ≤ j < i → ¬ own j o) → obs t o = obs s o))
           lo hi body s Hle).
  - split; [intros j o Hj; lia | reflexivity].
  - intros j t Hj [IH1 IH2]. split.
    + intros k o Hk Hko. destruct (decide (k = j)) as [-> | Hne].
      * now apply Hown.
      * rewrite Hother; [apply IH1; [lia | assumption] | assumption |].
        intros Hjo. apply Hne. apply (Hdisj k j o); (lia || assumption).
    + intros o Hnone. rewrite Hother; [| assumption | apply Hnone; lia].
      apply IH2. intros k Hk. apply Hnone. lia.
Qed.

Lemma paint_rows (body : Z → Z → St → St) (own : Z → Z → O → Prop) (fin : O → V)
    (w h : Z) (s : St) :
  0 ≤ w → 0 ≤ h →
  (∀ y x t o, 0 ≤ x < w → 0 ≤ y < h → own y x o → obs (body y x t) o = fin o) →
  (∀ y x t o, 0 ≤ x < w → 0 ≤ y < h → ¬ own y x o → obs (body y x t) o = obs t o) →
  (∀ y x y' x' o, 0 ≤ x < w → 0 ≤ y < h → 0 ≤ x' < w → 0 ≤ y' < h →
     own y x o → own y' x' o → y = y' ∧ x = x') →
  (∀ y x o, 0 ≤ x < w → 0 ≤ y < h → own y x o → obs (fill_rows body w h s) o = fin o) ∧
  (∀ o, (∀ y x, 0 ≤ x < w → 0 ≤ y < h → ¬ own y x o) →
        obs (fill_rows body w h s) o = obs s o).
Proof.
  intros Hw Hh Hown Hother Hdisj.
  assert (Hrow : ∀ y t, 0 ≤ y < h →
            (∀ x o, 0 ≤ x < w → own y x o →
                    obs (for_range 0 w (λ x s2, body y x s2) t) o = fin o) ∧
            (∀ o, (∀ x, 0 ≤ x < w → ¬ own y x o) →
                  obs (for_range 0 w (λ x s2, body y x s2) t) o = obs t o)).
  { intros y t Hy.
    apply (paint_range (λ x s2, body y x s2) (own y) (λ _, fin) 0 w t Hw).
    - intros x t' o Hx. now apply Hown.
    - intros x t' o Hx. now apply Hother.
    - intros x x' o Hx Hx' Ho Ho'. now destruct (Hdisj y x y x' o Hx Hy Hx' Hy Ho Ho'). }
  destruct (paint_range
              (λ y s1, for_range 0 w (λ x s2, body y x s2) s1)
              (λ y o, ∃ x, 0 ≤ x < w ∧ own y x o) (λ _, fin) 0 h s Hh)
    as [H1 H2].
  - intros y t o Hy (x & Hx & Ho). destruct (Hrow y t Hy) as [Ha _].
    exact (Ha x o Hx Ho).
  - intros y t o Hy Hnone. destruct (Hrow y t Hy) as [_ Hb]. apply Hb.
    intros x Hx Ho. apply Hnone. now exists x.
  - intros y y' o Hy Hy' (x & Hx & Ho) (x' & Hx' & Ho').
    now destruct (Hdisj y x y' x' o Hx Hy Hx' Hy' Ho Ho').
  - split.
    + intros y x o Hx Hy Ho. apply (H1 y o Hy). now exists x.
    + intros o Hnone. apply H2. intros y Hy (x & Hx & Ho). now apply (Hnone y x).
Qed.

End Paint.

Lemma for_loop_commute {A B : Type} (h : A → B) (f : Z → A → A) (g : Z → B → B) :
  (∀ i a, h (f i a) = g i (h a)) →
  ∀ (n : nat) (i : Z) (a : A), h (for_loop n i f a) = for_loop n i g (h a).
Proof.
  intros Hfg. induction n as [| n IH]; intros i a; cbn [for_loop].
  - reflexivity.
  - rewrite IH, Hfg. reflexivity.
Qed.

Lemma render_all_app (scr : Screen) (calls more : list RenderCall) :
  render_all scr (calls ++ more) = render_all (render_all scr calls) more.
Proof. apply fold_left_app. Qed.

(** Rendering the calls of the nested loops of [draw_canvas_to_renderer]
    is running the loops on the screen. *)
Lemma render_draw_cells (gl : Globals) (w h : Z) (scr : Screen) (calls : list RenderCall) :
  render_all scr (fill_rows (draw_cell gl) w h calls) =
  fill_rows (λ y x s, render_all s (cell_calls gl x y)) w h (render_all scr calls).
Proof.
  unfold fill_rows, for_range.
  apply (for_loop_commute (render_all scr)).
  intros y cs.
  apply (for_loop_commute (render_all scr)).
  intros x cs'. unfold draw_cell. apply render_all_app.
Qed.

Lemma render_draw_palette (gl : Globals) (scr : Screen) (calls : list RenderCall) :
  render_all scr (draw_palette_ui gl calls) =
  for_range 0 PALETTE_COUNT (λ i s, render_all s (palette_calls gl i)) (render_all scr calls).
Proof.
  unfold draw_palette_ui, for_range.
  apply (for_loop_commute (render_all scr)).
  intros i cs. apply render_all_app.
Qed.

(** The screen after the calls of one cell. *)
Lemma render_cell_calls (gl : Globals) (x y : Z) (scr : Screen) (px py : Z) :
  pixel_at (render_all scr (cell_calls gl x y)) px py =
  if decide (in_rect (cell_rect gl x y) px py)
  then if decide (show_grid gl ≠ 0 ∧ on_outline (cell_rect gl x y) px py)
       then grid_line_color
       else palette_at (palette gl) (get gl x y)
  else pixel_at scr px py.
Proof.
  unfold cell_calls. cbv zeta. fold (get gl x y).
  destruct (Z.eqb_spec (show_grid gl) 0) as [H0 | H0];
    cbn [app render_all fold_left render pixel_at draw_color].
  - destruct (decide (in_rect _ _ _)); [| reflexivity].
    rewrite decide_False by tauto. reflexivity.
  - destruct (decide (on_outline _ _ _)) as [Ho | Ho].
    + pose proof Ho as [Hin _]. rewrite decide_True by assumption.
      rewrite decide_True by tauto. reflexivity.
    + destruct (decide (in_rect _ _ _)); [| reflexivity].
      rewrite decide_False by tauto. reflexivity.
Qed.

Lemma in_cell_rect (gl : Globals) (x y px py : Z) :
  1 ≤ CELL_SIZE gl → 0 ≤ x → 0 ≤ y → in_rect (cell_rect gl x y) px py →
  px ÷ CELL_SIZE gl = x ∧ py ÷ CELL_SIZE gl = y.
Proof.
  intros HS Hx Hy [Hpx Hpy]. unfold cell_rect in *.
  cbn [rect_x rect_y rect_w rect_h] in *.
  split; apply quot_band; lia.
Qed.

Lemma on_raster_cell_rect (gl : Globals) (px py : Z) :
  1 ≤ CELL_SIZE gl → on_raster gl px py →
  0 ≤ px ÷ CELL_SIZE gl < CELLS_X gl ∧ 0 ≤ py ÷ CELL_SIZE gl < CELLS_Y gl ∧
  in_rect (cell_rect gl (px ÷ CELL_SIZE gl) (py ÷ CELL_SIZE gl)) px py.
Proof.
  intros HS [Hx Hy].
  split; [now apply quot_cell |]. split; [now apply quot_cell |].
  unfold in_rect, cell_rect. cbn [rect_x rect_y rect_w rect_h].
  rewrite !Z.quot_div_nonneg by lia.
  pose proof (Z.div_mod px (CELL_SIZE gl) ltac:(lia)).
  pose proof (Z.mod_pos_bound px (CELL_SIZE gl) ltac:(lia)).
  pose proof (Z.div_mod py (CELL_SIZE gl) ltac:(lia)).
  pose proof (Z.mod_pos_bound py (CELL_SIZE gl) ltac:(lia)).
  nia.
Qed.

(** The screen after the loops of [draw_canvas_to_renderer]: the raster
    shows the cells, the rest of the screen is as before. *)
Lemma render_cells (gl : Globals) (scr : Screen) (px py : Z) :
  1 ≤ CELL_SIZE gl → 0 ≤ CELLS_X gl → 0 ≤ CELLS_Y gl →
  pixel_at (fill_rows (λ y x s, render_all s (cell_calls gl x y))
              (CELLS_X gl) (CELLS_Y gl) scr) px py =
  if decide (on_raster gl px py) then cell_pixel gl px py else pixel_at scr px py.
Proof.
  intros HS HX HY.
  destruct (paint_rows (λ (s : Screen) (o : Z * Z), pixel_at s o.1 o.2)
              (λ y x s, render_all s (cell_calls gl x y))
              (λ y x o, in_rect (cell_rect gl x y) o.1 o.2)
              (λ o, cell_pixel gl o.1 o.2)
              (CELLS_X gl) (CELLS_Y gl) scr HX HY) as [H1 H2].
  - intros y x t [qx qy] Hx Hy Hin. cbn [fst snd] in *.
    rewrite render_cell_calls, decide_True by assumption.
    destruct (in_cell_rect gl x y qx qy HS ltac:(lia) ltac:(lia) Hin) as [Hqx Hqy].
    unfold cell_pixel. cbv zeta. rewrite Hqx, Hqy. reflexivity.
  - intros y x t [qx qy] Hx Hy Hin. cbn [fst snd] in *.
    rewrite render_cell_calls, decide_False by assumption. reflexivity.
  - intros y x y' x' [qx qy] Hx Hy Hx' Hy' Hin Hin'. cbn [fst snd] in *.
    destruct (in_cell_rect gl x y qx qy HS ltac:(lia) ltac:(lia) Hin) as [Hqx Hqy].
    destruct (in_cell_rect gl x' y' qx qy HS ltac:(lia) ltac:(lia) Hin') as [Hqx' Hqy'].
    split; congruence.
  - destruct (decide (on_raster gl px py)) as [Hon | Hoff].
    + destruct (on_raster_cell_rect gl px py HS Hon) as (Hcx & Hcy & Hin).
      apply (H1 _ _ (px, py) Hcx Hcy Hin).
    + apply (H2 (px, py)). intros y x Hx Hy Hin. cbn [fst snd] in Hin.
      apply Hoff. destruct Hin as [Hpx Hpy]. unfold on_raster, cell_rect in *.
      cbn [rect_x rect_y rect_w rect_h] in *. nia.
Qed.

(** The points of palette entry [i] lie in the 28 by 28 pixels around
    its box, to the right of the raster. *)
Lemma palette_points_frame (gl : Globals) (i px py : Z) :
  palette_points gl i px py → in_rect (highlight_rect (palette_box gl i)) px py.
Proof.
  unfold palette_points, on_outline, in_rect, highlight_rect.
  cbn [rect_x rect_y rect_w rect_h]. lia.
Qed.

Lemma highlight_bounds (gl : Globals) (i px py : Z) :
  0 ≤ i → in_rect (highlight_rect (palette_box gl i)) px py →
  CELLS_X gl * CELL_SIZE gl + 8 ≤ px ∧
  CELLS_X gl * CELL_SIZE gl + 8 + Z.rem i 2 * 32 ≤ px
    < CELLS_X gl * CELL_SIZE gl + 36 + Z.rem i 2 * 32 ∧
  8 + (i ÷ 2) * 32 ≤ py < 36 + (i ÷ 2) * 32.
Proof.
  intros Hi Hp. destruct (palette_index_split i Hi) as (Hc & _).
  unfold in_rect, highlight_rect, palette_box in Hp.
  cbn [rect_x rect_y rect_w rect_h] in Hp. lia.
Qed.

Lemma highlight_disjoint (gl : Globals) (i j px py : Z) :
  0 ≤ i → 0 ≤ j →
  in_rect (highlight_rect (palette_box gl i)) px py →
  in_rect (highlight_rect (palette_box gl j)) px py → i = j.
Proof.
  intros Hi Hj Hpi Hpj.
  pose proof (highlight_bounds gl i px py Hi Hpi) as (_ & Hxi & Hyi).
  pose proof (highlight_bounds gl j px py Hj Hpj) as (_ & Hxj & Hyj).
  destruct (palette_index_split i Hi) as (Hci & Hri & Hsi).
  destruct (palette_index_split j Hj) as (Hcj & Hrj & Hsj).
  lia.
Qed.

Lemma palette_points_disjoint (gl : Globals) (i j px py : Z) :
  0 ≤ i → 0 ≤ j → palette_points gl i px py → palette_points gl j px py → i = j.
Proof.
  intros Hi Hj Hpi Hpj.
  apply (highlight_disjoint gl i j px py Hi Hj); now apply palette_points_frame.
Qed.

(** The screen after the calls of one palette entry. *)
Lemma render_palette_calls (gl : Globals) (i : Z) (scr : Screen) (px py : Z) :
  pixel_at (render_all scr (palette_calls gl i)) px py =
  if decide (palette_points gl i px py) then palette_pixel gl i px py
  else pixel_at scr px py.
Proof.
  unfold palette_calls, palette_points, palette_pixel. cbv zeta.
  assert (Hout : on_outline (highlight_rect (palette_box gl i)) px py →
                 ¬ in_rect (palette_box gl i) px py).
  { unfold on_outline, in_rect, highlight_rect. cbn [rect_x rect_y rect_w rect_h]. lia. }
  assert (Hin : on_outline (palette_box gl i) px py → in_rect (palette_box gl i) px py)
    by (intros [H _]; exact H).
  destruct (Z.eqb_spec i (current_color gl)) as [Hcc | Hcc];
    cbn [app render_all fold_left render pixel_at draw_color];
    repeat (destruct (decide _)); try reflexivity; tauto.
Qed.

(** The screen after the loop of [draw_palette_ui]. *)
Lemma render_palette (gl : Globals) (scr : Screen) (px py : Z) :
  (∀ i, valid_index i → palette_points gl i px py →
     pixel_at (for_range 0 PALETTE_COUNT (λ i s, render_all s (palette_calls gl i)) scr)
       px py = palette_pixel gl i px py) ∧
  ((∀ i, valid_index i → ¬ palette_points gl i px py) →
     pixel_at (for_range 0 PALETTE_COUNT (λ i s, render_all s (palette_calls gl i)) scr)
       px py = pixel_at scr px py).
Proof.
  destruct (paint_range (λ (s : Screen) (o : Z * Z), pixel_at s o.1 o.2)
              (λ i s, render_all s (palette_calls gl i))
              (λ i o, palette_points gl i o.1 o.2)
              (λ i o, palette_pixel gl i o.1 o.2)
              0 PALETTE_COUNT scr) as [H1 H2].
  - unfold PALETTE_COUNT. lia.
  - intros i t [qx qy] Hi Hp. cbn [fst snd] in *.
    rewrite render_palette_calls, decide_True by assumption. reflexivity.
  - intros i t [qx qy] Hi Hp. cbn [fst snd] in *.
    rewrite render_palette_calls, decide_False by assumption. reflexivity.
  - intros i j [qx qy] Hi Hj Hpi Hpj. cbn [fst snd] in *.
    apply (palette_points_disjoint gl i j qx qy); (lia || assumption).
  - split.
    + intros i Hi Hp. apply (H1 i (px, py) Hi Hp).
    + intros Hnone. apply (H2 (px, py)). intros i Hi. now apply Hnone.
Qed.

(** The screen after a frame: the palette drawn over the cells drawn over
    the background. *)
Lemma render_frame_screen (gl : Globals) (scr : Screen) :
  render_all scr
    (draw_palette_ui gl
       (fill_rows (draw_cell gl) (CELLS_X gl) (CELLS_Y gl)
          [SDL_SetRenderDrawColor background_color; SDL_RenderClear])
     ++ [SDL_RenderPresent; SDL_Delay 16]) =
  for_range 0 PALETTE_COUNT (λ i s, render_all s (palette_calls gl i))
    (fill_rows (λ y x s, render_all s (cell_calls gl x y)) (CELLS_X gl) (CELLS_Y gl)
       (mkScreen background_color (λ _ _, background_color))).
Proof.
  rewrite render_all_app. cbn [render_all fold_left render].
  fold (render_all scr
          (draw_palette_ui gl
             (fill_rows (draw_cell gl) (CELLS_X gl) (CELLS_Y gl)
                [SDL_SetRenderDrawColor background_color; SDL_RenderClear]))).
  rewrite render_draw_palette, render_draw_cells. reflexivity.
Qed.

(** The raster after a frame. *)
Lemma frame_raster_pixel (gl : Globals) (scr : Screen) (px py : Z) :
  globals_ok gl → on_raster gl px py →
  pixel_at
    (render_all scr
       (draw_palette_ui gl
          (fill_rows (draw_cell gl) (CELLS_X gl) (CELLS_Y gl)
             [SDL_SetRenderDrawColor background_color; SDL_RenderClear])
        ++ [SDL_RenderPresent; SDL_Delay 16])) px py =
  cell_pixel gl px py.
Proof.
  intros (HX & HY & Hv & _ & _ & HS) Hon. rewrite render_frame_screen.
  destruct (render_palette gl
              (fill_rows (λ y x s, render_all s (cell_calls gl x y))
                 (CELLS_X gl) (CELLS_Y gl)
                 (mkScreen background_color (λ _ _, background_color))) px py)
    as [_ Hkeep].
  rewrite Hkeep.
  - rewrite render_cells by lia. rewrite decide_True by assumption. reflexivity.
  - intros i [Hi _] Hp.
    destruct (highlight_bounds _ i px py Hi (palette_points_frame _ i px py Hp))
      as (Hpx & _).
    destruct Hon as [Hx _]. lia.
Qed.

(** X10: what a frame shows of the canvas.  In every state the
    program reaches, the frame that [main] draws gives each point of the
    raster the palette color of the cell it lies in, or, with the grid
    lines switched on, the color of the grid lines where it lies on the
    border of the cell; the globals are not changed by the drawing. *)
Theorem render_frame_raster (env : Env) (st : Main) (scr : Screen) :
  reachable env st →
  ∃ calls, render_frame env (globals st) = Ok (globals st, calls) ∧
    ∀ px py, on_raster (globals st) px py →
      pixel_at (render_all scr calls) px py =
      if decide (show_grid (globals st) ≠ 0 ∧
                 on_outline (cell_rect (globals st) (px ÷ CELL_SIZE (globals st))
                                       (py ÷ CELL_SIZE (globals st))) px py)
      then grid_line_color
      else palette_at (palette (globals st))
             (get (globals st) (px ÷ CELL_SIZE (globals st))
                               (py ÷ CELL_SIZE (globals st))).
Proof.
  intros Hre. pose proof (reachable_ok env st Hre) as Hok.
  eexists. split.
  - apply render_frame_eq. apply canvas_valid_sized. apply Hok.
  - intros px py Hon. rewrite (frame_raster_pixel _ scr px py Hok Hon).
    unfold cell_pixel. cbv zeta. reflexivity.
Qed.

Lemma render_frame_raster_witness :
  ∃ calls, render_frame env_big (globals (sample_state [])) =
           Ok (globals (sample_state []), calls) ∧
    pixel_at (render_all (mkScreen outline_color (λ _ _, outline_color)) calls) 17 5
    = mkColor 255 255 255 255 ∧
    pixel_at (render_all (mkScreen outline_color (λ _ _, outline_color)) calls) 16 5
    = grid_line_color.
Proof.
  destruct (render_frame_raster env_big (sample_state [])
              (mkScreen outline_color (λ _ _, outline_color)))
    as (calls & Hcalls & Hpix).
  - apply sample_state_reachable. reflexivity.
  - exists calls. split; [exact Hcalls |]. split.
    + rewrite Hpix by (unfold on_raster; cbn; lia). vm_compute. reflexivity.
    + rewrite Hpix by (unfold on_raster; cbn; lia). vm_compute. reflexivity.
Defined.

(** X11: what a frame shows beside the canvas.  In every
    state the program reaches, the frame shows each palette entry in its
    box, inside of a black outline, with a black frame around the box of
    the current color and around no other; every other point off the
    raster has the background color. *)
Theorem render_frame_palette (env : Env) (st : Main) (scr : Screen) :
  reachable env st →
  ∃ calls, render_frame env (globals st) = Ok (globals st, calls) ∧
    ∀ px py,
      (∀ i, valid_index i → in_rect (palette_box (globals st) i) px py →
         pixel_at (render_all scr calls) px py =
         if decide (on_outline (palette_box (globals st) i) px py) then outline_color
         else palette_at (palette (globals st)) i) ∧
      (∀ i, valid_index i →
         on_outline (highlight_rect (palette_box (globals st) i)) px py →
         pixel_at (render_all scr calls) px py =
         if decide (i = current_color (globals st)) then outline_color
         else background_color) ∧
      (¬ on_raster (globals st) px py →
       (∀ i, valid_index i → ¬ palette_points (globals st) i px py) →
       pixel_at (render_all scr calls) px py = background_color).
Proof.
  intros Hre.
  pose proof (reachable_ok env st Hre) as (HX & HY & Hv & Hcc & _ & HS).
  eexists. split; [apply render_frame_eq; now apply canvas_valid_sized |].
  intros px py. rewrite render_frame_screen.
  destruct (render_palette (globals st)
              (fill_rows (λ y x s, render_all s (cell_calls (globals st) x y))
                 (CELLS_X (globals st)) (CELLS_Y (globals st))
                 (mkScreen background_color (λ _ _, background_color))) px py)
    as [Hdrawn Hkeep].
  assert (Hback : ¬ on_raster (globals st) px py →
            pixel_at (fill_rows (λ y x s, render_all s (cell_calls (globals st) x y))
                        (CELLS_X (globals st)) (CELLS_Y (globals st))
                        (mkScreen background_color (λ _ _, background_color))) px py
            = background_color).
  { intros Hoff. rewrite render_cells by lia. rewrite decide_False by assumption.
    reflexivity. }
  assert (Hright : ∀ i, valid_index i → palette_points (globals st) i px py →
                        ¬ on_raster (globals st) px py).
  { intros i [Hi _] Hp [Hx _].
    destruct (highlight_bounds _ i px py Hi (palette_points_frame _ i px py Hp))
      as (Hpx & _).
    lia. }
  split; [| split].
  - intros i Hi Hin. rewrite (Hdrawn i Hi) by (left; exact Hin).
    unfold palette_pixel. destruct (decide (on_outline _ _ _)) as [Ho | Ho].
    + rewrite decide_False by tauto. reflexivity.
    + rewrite decide_True by tauto. reflexivity.
  - intros i Hi Ho. destruct (decide (i = current_color (globals st))) as [Hi_cc | Hne].
    + rewrite (Hdrawn i Hi) by (right; split; assumption).
      unfold palette_pixel. rewrite decide_False; [reflexivity |].
      intros [Hin _]. revert Hin Ho.
      unfold on_outline, in_rect, highlight_rect. cbn [rect_x rect_y rect_w rect_h]. lia.
    + pose proof Ho as [Hin_i _]. rewrite Hkeep.
      * apply Hback. intros [Hx _].
        destruct (highlight_bounds _ i px py (proj1 Hi) Hin_i) as (Hpx & _). lia.
      * intros j Hj Hp.
        pose proof (highlight_disjoint _ i j px py (proj1 Hi) (proj1 Hj) Hin_i
                      (palette_points_frame _ j px py Hp)) as Heq.
        subst j. destruct Hp as [Hin | [Hi_cc _]]; [| contradiction].
        revert Hin Ho.
        unfold on_outline, in_rect, highlight_rect. cbn [rect_x rect_y rect_w rect_h]. lia.
  - intros Hoff Hnone. rewrite Hkeep by assumption. now apply Hback.
Qed.

Lemma render_frame_palette_witness :
  ∃ calls, render_frame env_big (globals (sample_state [])) =
           Ok (globals (sample_state []), calls) ∧
    pixel_at (render_all (mkScreen outline_color (λ _ _, outline_color)) calls) 80 50
    = mkColor 0 255 0 255 ∧
    pixel_at (render_all (mkScreen outline_color (λ _ _, outline_color)) calls) 72 8
    = outline_color ∧
    pixel_at (render_all (mkScreen outline_color (λ _ _, outline_color)) calls) 36 4
    = background_color.
Proof.
  destruct (render_frame_palette env_big (sample_state [])
              (mkScreen outline_color (λ _ _, outline_color)))
    as (calls & Hcalls & Hpix).
  - apply sample_state_reachable. reflexivity.
  - exists calls. split; [exact Hcalls |]. split; [| split].
    + destruct (Hpix 80 50) as (Hbox & _). rewrite (Hbox 3).
      * vm_compute. reflexivity.
      * unfold valid_index, PALETTE_COUNT. lia.
      * unfold in_rect. vm_compute. intuition discriminate.
    + destruct (Hpix 72 8) as (_ & Hframe & _). rewrite (Hframe 1).
      * vm_compute. reflexivity.
      * unfold valid_index, PALETTE_COUNT. lia.
      * unfold on_outline, in_rect. vm_compute. intuition discriminate.
    + destruct (Hpix 36 4) as (_ & _ & Hrest). rewrite Hrest.
      * reflexivity.
      * unfold on_raster. vm_compute. intuition discriminate.
      * intros i Hi Hp.
        destruct (highlight_bounds _ i 36 4 (proj1 Hi) (palette_points_frame _ i 36 4 Hp))
          as (Hpx & _).
        vm_compute in Hpx. apply Hpx. reflexivity.
Defined.



(** ** Import: where the samples are taken

    The error analysis of the sample coordinate for an image of any
    width: [Sr] is the ratio of the image width to the grid width. *)
Lemma sample_real_ratio (X Wr Sr a w q n p : R) :
  (/ 2 <= X <= 2147483648)%R → (1 <= Wr)%R → (0 < Sr)%R →
  (X * (1 - 3 * eps) <= a <= X * (1 + 3 * eps))%R →
  (Wr * (1 - eps) <= w <= Wr * (1 + eps))%R →
  (a / w * (1 - eps) <= q <= a / w * (1 + eps))%R →
  (Wr * Sr * (1 - eps) <= n <= Wr * Sr * (1 + eps))%R →
  (q * n * (1 - eps) <= p <= q * n * (1 + eps))%R →
  ((X - / 2) * Sr <= p < (X + / 2) * Sr)%R.
Proof.
  intros HX HW HS Ha Hw Hq Hn Hp.
  assert (He : (0 < eps <= / 4503599627370496)%R) by (unfold eps; lra).
  assert (Hw0 : (0 < w)%R) by nra.
  set (u := (X / Wr)%R).
  assert (Hu : (u * Wr = X)%R) by (unfold u; field; lra).
  assert (Hu0 : (0 < u)%R) by (unfold u; apply Rdiv_lt_0_compat; lra).
  assert (Hr1 : (u * (1 - 5 * eps) <= a / w)%R).
  { apply Rdiv_lower; [assumption |].
    apply Rle_trans with (u * (1 - 5 * eps) * (Wr * (1 + eps)))%R.
    - apply Rmult_le_compat_l; [nra | lra].
    - replace (u * (1 - 5 * eps) * (Wr * (1 + eps)))%R
        with (X * ((1 - 5 * eps) * (1 + eps)))%R by (rewrite <- Hu; ring).
      apply Rle_trans with (X * (1 - 3 * eps))%R; [| lra].
      apply Rmult_le_compat_l; [lra | nra]. }
  assert (Hr2 : (a / w <= u * (1 + 5 * eps))%R).
  { apply Rdiv_upper; [assumption |].
    apply Rle_trans with (u * (1 + 5 * eps) * (Wr * (1 - eps)))%R.
    - replace (u * (1 + 5 * eps) * (Wr * (1 - eps)))%R
        with (X * ((1 + 5 * eps) * (1 - eps)))%R by (rewrite <- Hu; ring).
      apply Rle_trans with (X * (1 + 3 * eps))%R; [lra |].
      apply Rmult_le_compat_l; [lra | nra].
    - apply Rmult_le_compat_l; [nra | lra]. }
  assert (Hq1 : (u * (1 - 6 * eps) <= q)%R).
  { apply Rle_trans with (a / w * (1 - eps))%R; [| lra].
    apply Rle_trans with (u * (1 - 5 * eps) * (1 - eps))%R.
    - rewrite Rmult_assoc. apply Rmult_le_compat_l; [lra | nra].
    - apply Rmult_le_compat_r; lra. }
  assert (Hq2 : (q <= u * (1 + 7 * eps))%R).
  { apply Rle_trans with (a / w * (1 + eps))%R; [lra |].
    apply Rle_trans with (u * (1 + 5 * eps) * (1 + eps))%R.
    - apply Rmult_le_compat_r; lra.
    - rewrite Rmult_assoc. apply Rmult_le_compat_l; [lra | nra]. }
  assert (Hq0 : (0 < q)%R) by nra.
  set (Z := (X * Sr)%R).
  assert (HZ : (u * (Wr * Sr) = Z)%R) by (unfold Z; rewrite <- Hu; ring).
  assert (HZ0 : (0 < Z)%R) by (unfold Z; nra).
  assert (Hqn1 : (Z * (1 - 7 * eps) <= q * n)%R).
  { apply Rle_trans with (u * (1 - 6 * eps) * (Wr * Sr * (1 - eps)))%R.
    - replace (u * (1 - 6 * eps) * (Wr * Sr * (1 - eps)))%R
        with (Z * ((1 - 6 * eps) * (1 - eps)))%R by (rewrite <- HZ; ring).
      apply Rmult_le_compat_l; [lra | nra].
    - apply Rmult_le_compat; try nra; lra. }
  assert (Hqn2 : (q * n <= Z * (1 + 9 * eps))%R).
  { apply Rle_trans with (u * (1 + 7 * eps) * (Wr * Sr * (1 + eps)))%R.
    - apply Rmult_le_compat; try nra; lra.
    - replace (u * (1 + 7 * eps) * (Wr * Sr * (1 + eps)))%R
        with (Z * ((1 + 7 * eps) * (1 + eps)))%R by (rewrite <- HZ; ring).
      apply Rmult_le_compat_l; [lra | nra]. }
  assert (Hp1 : (Z * (1 - 8 * eps) <= p)%R).
  { apply Rle_trans with (q * n * (1 - eps))%R; [| lra].
    apply Rle_trans with (Z * (1 - 7 * eps) * (1 - eps))%R.
    - rewrite Rmult_assoc. apply Rmult_le_compat_l; [lra | nra].
    - apply Rmult_le_compat_r; lra. }
  assert (Hp2 : (p <= Z * (1 + 11 * eps))%R).
  { apply Rle_trans with (q * n * (1 + eps))%R; [lra |].
    apply Rle_trans with (Z * (1 + 9 * eps) * (1 + eps))%R.
    - apply Rmult_le_compat_r; lra.
    - rewrite Rmult_assoc. apply Rmult_le_compat_l; [lra | nra]. }
  assert (Hlo : ((X - / 2) * Sr <= Z * (1 - 8 * eps))%R).
  { unfold Z. replace (X * Sr * (1 - 8 * eps))%R with ((X * (1 - 8 * eps)) * Sr)%R by ring.
    apply Rmult_le_compat_r; [lra | nra]. }
  assert (Hhi : (Z * (1 + 11 * eps) < (X + / 2) * Sr)%R).
  { unfold Z. replace (X * Sr * (1 + 11 * eps))%R with ((X * (1 + 11 * eps)) * Sr)%R by ring.
    apply Rmult_lt_compat_r; [lra | nra]. }
  lra.
Qed.

Lemma sample_coord_footprint (c W N : Z) :
  0 ≤ c < W → W < 2 ^ 31 → 1 ≤ N < 2 ^ 31 →
  0 ≤ sample_coord c W N < N ∧
  c * N < (sample_coord c W N + 1) * W ∧
  sample_coord c W N * W < (c + 1) * N.
Proof.
  intros Hc HW HN.
  assert (H31 : 2 ^ 31 < 2 ^ 53) by (apply Z.pow_lt_mono_r; lia).
  destruct (int_plus_half_real c ltac:(lia)) as (mx & ex & Hx & Hcx & Hex & Hvx).
  destruct (double_of_int_real W ltac:(lia)) as (mw & ew & Hw & Hcw & Hew & Hvw).
  destruct (double_of_int_real N ltac:(lia)) as (mn & en & Hn & Hcn & Hen & Hvn).
  destruct (double_div_real mx mw ex ew Hcx Hcw ltac:(lia) ltac:(lia))
    as (mq & eq & Hq & Hcq & Heq & Hvq).
  destruct (double_mul_real mq mn eq en Hcq Hcn ltac:(lia) ltac:(lia))
    as (mp & ep & Hp & Hcp & Hep & Hvp).
  unfold sample_coord. rewrite Hx, Hw, Hq, Hn, Hp. cbn [double_to_int].
  pose proof (trunc_mag_real mp ep) as [Ht1 Ht2].
  cbv zeta in Hvx, Hvq, Hvp.
  assert (HWr : (1 <= IZR W)%R) by (apply IZR_le; lia).
  assert (HNr : (1 <= IZR N)%R) by (apply IZR_le; lia).
  assert (Hcr : (0 <= IZR c)%R) by (apply IZR_le; lia).
  assert (Hratio : (IZR W * (IZR N / IZR W) = IZR N)%R) by (field; lra).
  assert (Hreal : ((IZR c + / 2 - / 2) * (IZR N / IZR W) <= IZR (Z.pos mp) * powerRZ 2 ep
                   < (IZR c + / 2 + / 2) * (IZR N / IZR W))%R).
  { apply (sample_real_ratio (IZR c + / 2) (IZR W) (IZR N / IZR W)
             (IZR (Z.pos mx) * powerRZ 2 ex) (IZR (Z.pos mw) * powerRZ 2 ew)
             (IZR (Z.pos mq) * powerRZ 2 eq) (IZR (Z.pos mn) * powerRZ 2 en));
      try assumption.
    - assert (IZR c <= IZR (2 ^ 31 - 1))%R by (apply IZR_le; lia).
      change (IZR (2 ^ 31 - 1)) with 2147483647%R in *. lra.
    - apply Rdiv_lt_0_compat; lra.
    - rewrite Hratio. exact Hvn. }
  destruct Hreal as [Hr1 Hr2].
  set (t := trunc_mag mp ep) in *.
  assert (Hlo : (IZR (c * N) < IZR ((t + 1) * W))%R).
  { rewrite !mult_IZR, plus_IZR.
    assert (IZR c * (IZR N / IZR W) < IZR t + 1)%R by lra.
    replace (IZR c * IZR N)%R with (IZR c * (IZR N / IZR W) * IZR W)%R by (field; lra).
    apply Rmult_lt_compat_r; lra. }
  assert (Hhi : (IZR (t * W) < IZR ((c + 1) * N))%R).
  { rewrite !mult_IZR, plus_IZR.
    assert (IZR t < (IZR c + 1) * (IZR N / IZR W))%R by lra.
    replace ((IZR c + 1) * IZR N)%R
      with ((IZR c + 1) * (IZR N / IZR W) * IZR W)%R by (field; lra).
    apply Rmult_lt_compat_r; lra. }
  apply lt_IZR in Hlo, Hhi.
  split; [| split; assumption]. nia.
Qed.

(** X13: where an import takes its samples.  For a grid and an
    image whose dimensions fit an [int], the sample point of every cell is
    a pixel of the image, so that neither clamp changes it, and it is a
    pixel that the cell covers when the grid is laid over the image: pixel
    column [sx] and the columns of cell [cx], stretched to the image
    width, overlap, and so do the rows.  The cell becomes the palette entry
    nearest to the color of that pixel.  An image with as many pixels as
    the grid has cells is thus imported pixel by pixel. *)
Theorem load_samples_footprint (env : Env) (files : gmap string File)
    (filename : string) (gl : Globals) (img : Image) :
  canvas_sized gl →
  1 ≤ CELLS_X gl < 2 ^ 31 → 1 ≤ CELLS_Y gl < 2 ^ 31 →
  SDL_LoadBMP env files filename = Some img →
  1 ≤ img_width img < 2 ^ 31 → 1 ≤ img_height img < 2 ^ 31 →
  ∃ gl', load_bmp_to_canvas env files filename gl = (0, gl') ∧
    ∀ cx cy, 0 ≤ cx < CELLS_X gl → 0 ≤ cy < CELLS_Y gl →
      let sx := sample_coord cx (CELLS_X gl) (img_width img) in
      let sy := sample_coord cy (CELLS_Y gl) (img_height img) in
      (0 ≤ sx < img_width img ∧
       cx * img_width img < (sx + 1) * CELLS_X gl ∧
       sx * CELLS_X gl < (cx + 1) * img_width img) ∧
      (0 ≤ sy < img_height img ∧
       cy * img_height img < (sy + 1) * CELLS_Y gl ∧
       sy * CELLS_Y gl < (cy + 1) * img_height img) ∧
      (img_width img = CELLS_X gl → sx = cx) ∧
      (img_height img = CELLS_Y gl → sy = cy) ∧
      get gl' cx cy =
      nearest_palette_index (palette gl) (with_alpha (img_pixel img sx sy) 255).
Proof.
  intros Hs HX HY Hload Hw Hh.
  destruct (load_bmp_to_canvas_sampled env files filename gl img Hs
              ltac:(lia) ltac:(lia) Hload ltac:(lia) ltac:(lia))
    as (gl' & Hrun & _ & _ & Hget).
  exists gl'. split; [exact Hrun |].
  intros cx cy Hcx Hcy. cbv zeta.
  pose proof (sample_coord_footprint cx (CELLS_X gl) (img_width img)
                Hcx ltac:(lia) Hw) as (Hx0 & Hx1 & Hx2).
  pose proof (sample_coord_footprint cy (CELLS_Y gl) (img_height img)
                Hcy ltac:(lia) Hh) as (Hy0 & Hy1 & Hy2).
  split; [auto |]. split; [auto |].
  split; [intros Heq; rewrite Heq in *; nia |].
  split; [intros Heq; rewrite Heq in *; nia |].
  rewrite (Hget cx cy Hcx Hcy).
  rewrite !clamp_coord_id by assumption. reflexivity.
Qed.

Lemma load_samples_footprint_witness :
  let files : gmap string File :=
    {[ "two.bmp" := BmpFile (mkImage 2 1 [mkColor 250 10 10 255; mkColor 0 0 250 255]) ]} in
  ∃ gl', load_bmp_to_canvas env_big files "two.bmp" (globals (sample_state [])) = (0, gl') ∧
         get gl' 0 1 = 2 ∧ get gl' 1 0 = 4.
Proof.
  intros files.
  destruct (load_samples_footprint env_big files "two.bmp" (globals (sample_state []))
              (mkImage 2 1 [mkColor 250 10 10 255; mkColor 0 0 250 255]))
    as (gl' & Hrun & Hget).
  - exists [0; 0; 0; 0]. split; reflexivity.
  - cbn. lia.
  - cbn. lia.
  - reflexivity.
  - cbn. lia.
  - cbn. lia.
  - exists gl'. split; [exact Hrun |]. split.
    + destruct (Hget 0 1) as (_ & _ & _ & _ & ->); [cbn; lia | cbn; lia |].
      vm_compute. reflexivity.
    + destruct (Hget 1 0) as (_ & _ & _ & _ & ->); [cbn; lia | cbn; lia |].
      vm_compute. reflexivity.
Defined.

(** ** The keys [s] and [l] *)


Lemma chomp_empty (s : string) : chomp s = "" ↔ s = "" ∨ s = nl.
Proof.
  split.
  - destruct s as [| c s]; [now left |]. right. revert H.
    destruct s as [| c' s']; cbn [chomp].
    + destruct (Ascii.eqb_spec c newline) as [Heq | Hne];
        [intros _; now subst | discriminate].
    + discriminate.
  - intros [-> | ->]; reflexivity.
Qed.


Lemma handle_key_save (env : Env) (st : Main) :
  handle_key env SDLK_s st =
  (let st1 := emit st (Printf "Save filename (example out.bmp): ") in
   match stdin st1 with
   | [] => Ok st1
   | line :: rest =>
       let st2 := set_stdin st1 rest in
       let fname := chomp line in
       if 0 <? Z.of_nat (String.length fname) then
         match save_canvas_as_bmp env fname (globals st) (fs st2) with
         | Exit code => Exit code
         | Ok (rc, gl', fs') =>
             let st3 := set_fs (set_globals st2 gl') fs' in
             if rc =? 0 then Ok (emit st3 (Printf ("Saved " +:+ fname +:+ nl)))
             else Ok (emit st3 (Printf ("Failed to save " +:+ fname +:+ nl)))
         end
       else Ok st2
   end).
Proof. reflexivity. Qed.

Lemma handle_key_load (env : Env) (st : Main) :
  handle_key env SDLK_l st =
  (let st1 := emit st (Printf "Load BMP filename: ") in
   match stdin st1 with
   | [] => Ok st1
   | line :: rest =>
       let st2 := set_stdin st1 rest in
       let fname := chomp line in
       if 0 <? Z.of_nat (String.length fname) then
         let '(rc, gl') := load_bmp_to_canvas env (fs st2) fname (globals st) in
         let st3 := set_globals st2 gl' in
         if rc =? 0 then Ok (emit st3 (Printf ("Loaded " +:+ fname +:+ nl)))
         else Ok (emit st3 (Printf ("Failed to load " +:+ fname +:+ nl)))
       else Ok st2
   end).
Proof. reflexivity. Qed.





Lemma load_bmp_to_canvas_result (env : Env) (files : gmap string File)
    (filename : string) (gl : Globals) :
  load_bmp_to_canvas env files filename gl =
  match SDL_LoadBMP env files filename with
  | None => (-1, gl)
  | Some img => (0, load_cells (rgb24_surface img) gl)
  end.
Proof.
  unfold load_bmp_to_canvas.
  destruct (SDL_LoadBMP env files filename) as [img |] eqn:Hload; [| reflexivity].
  apply SDL_LoadBMP_some in Hload as [_ Hsurf].
  unfold SDL_ConvertSurfaceFormat_RGB24. rewrite Hsurf. reflexivity.
Qed.



(** X16: the keys [s] and [l] without a name.  When the input is at
    its end, or its next line is empty or only a newline, either key
    prints its prompt, takes that line if there is one, and does nothing
    else: no file and no cell changes, and nothing more is printed. *)
Theorem blank_name (env : Env) (st : Main) (k : Z) :
  k = SDLK_s ∨ k = SDLK_l →
  stdin st = [] ∨ (∃ line rest, stdin st = line :: rest ∧ (line = "" ∨ line = nl)) →
  handle_event env (SDL_KEYDOWN k) st =
  Ok (set_stdin (emit st (if k =? SDLK_s then save_prompt else load_prompt))
                (tail (stdin st))).
Proof.
  intros Hk Hin. cbn [handle_event].
  assert (Hblank : ∀ line, line = "" ∨ line = nl →
                           (0 <? Z.of_nat (String.length (chomp line))) = false).
  { intros line Hline. apply chomp_empty in Hline. now rewrite Hline. }
  destruct Hk as [-> | ->].
  - rewrite handle_key_save. cbv zeta. cbn [stdin emit].
    change (SDLK_s =? SDLK_s) with true. cbv iota.
    destruct Hin as [Hnil | (line & rest & Hcons & Hline)].
    + rewrite Hnil. cbn [tail]. unfold set_stdin, emit, save_prompt. cbn.
      rewrite Hnil. reflexivity.
    + rewrite Hcons, (Hblank line Hline). reflexivity.
  - rewrite handle_key_load. cbv zeta. cbn [stdin emit].
    change (SDLK_l =? SDLK_s) with false. cbv iota.
    destruct Hin as [Hnil | (line & rest & Hcons & Hline)].
    + rewrite Hnil. cbn [tail]. unfold set_stdin, emit, load_prompt. cbn.
      rewrite Hnil. reflexivity.
    + rewrite Hcons, (Hblank line Hline). reflexivity.
Qed.

Lemma blank_name_witness :
  handle_event env_big (SDL_KEYDOWN SDLK_s) (sample_state [nl; "a.bmp"]) =
  Ok (set_stdin (emit (sample_state [nl; "a.bmp"]) save_prompt) ["a.bmp"]).
Proof.
  apply (blank_name env_big (sample_state [nl; "a.bmp"]) SDLK_s).
  - left. reflexivity.
  - right. exists nl, ["a.bmp"]. split; [reflexivity | right; reflexivity].
Defined.

(** ** Whole canvases *)

Lemma canvas_ext (gl gl' : Globals) :
  canvas_sized gl → canvas_sized gl' →
  CELLS_X gl' = CELLS_X gl → CELLS_Y gl' = CELLS_Y gl →
  0 < CELLS_X gl → 0 < CELLS_Y gl →
  (∀ cx cy, 0 ≤ cx < CELLS_X gl → 0 ≤ cy < CELLS_Y gl → get gl' cx cy = get gl cx cy) →
  canvas gl' = canvas gl.
Proof.
  intros (cells & Hc & Hlen) (cells' & Hc' & Hlen') HX HY HW HH Hget.
  rewrite Hc, Hc'. f_equal. rewrite HX, HY in Hlen'.
  apply list_eq_same_length with (Z.to_nat (CELLS_X gl * CELLS_Y gl));
    [assumption.. |].
  intros i v v' Hi Hv' Hv.
  set (W := CELLS_X gl) in *. set (H := CELLS_Y gl) in *.
  assert (Hi' : 0 ≤ Z.of_nat i < W * H) by lia.
  pose proof (Z.div_mod (Z.of_nat i) W ltac:(lia)) as Hdm.
  pose proof (Z.mod_pos_bound (Z.of_nat i) W ltac:(lia)) as Hm.
  assert (Hy : 0 ≤ Z.of_nat i / W < H).
  { split; [apply Z.div_pos; lia |]. apply Z.div_lt_upper_bound; lia. }
  specialize (Hget (Z.of_nat i `mod` W) (Z.of_nat i / W) Hm Hy).
  unfold get in Hget. rewrite HX in Hget. fold W in Hget.
  replace (Z.of_nat i / W * W + Z.of_nat i `mod` W) with (Z.of_nat i) in Hget by lia.
  rewrite (canvas_at_some gl cells _ Hc), (canvas_at_some gl' cells' _ Hc') in Hget.
  pose proof (buf_at_lookup cells (Z.of_nat i) ltac:(lia)) as Hl.
  pose proof (buf_at_lookup cells' (Z.of_nat i) ltac:(lia)) as Hl'.
  rewrite Nat2Z.id in Hl, Hl'. congruence.
Qed.

Lemma globals_eq (gl gl' : Globals) :
  same_settings gl gl' → canvas gl' = canvas gl → gl' = gl.
Proof.
  destruct gl, gl'. intros (HX & HY & HS & HP & HC & HG) Hc. cbn in *. congruence.
Qed.


(** X17: a successful import leaves nothing of the canvas it
    is loaded into.  Whether the import of a file succeeds does not depend
    on the cells, and when it succeeds the canvas afterwards is the same
    whatever the cells were before; so importing the same file a second
    time changes nothing. *)
Theorem load_overwrites (env : Env) (files : gmap string File) (filename : string)
    (gl gl0 : Globals) :
  globals_ok gl → same_settings gl gl0 → canvas_sized gl0 →
  let done := load_bmp_to_canvas env files filename gl in
  let done0 := load_bmp_to_canvas env files filename gl0 in
  done0.1 = done.1 ∧
  (done.1 = 0 → done0.2 = done.2 ∧
                load_bmp_to_canvas env files filename done.2 = done).
Proof.
  intros Hok Hset Hs0. cbv zeta.
  pose proof Hok as (HX & HY & Hv & _).
  pose proof (canvas_valid_sized _ Hv) as Hs.
  pose proof Hset as (HX0 & HY0 & _ & HP0 & _).
  rewrite !(load_bmp_to_canvas_result env files filename).
  destruct (SDL_LoadBMP env files filename) as [img |]; cbn [fst snd];
    [| split; [reflexivity | discriminate]].
  split; [reflexivity |]. intros _.
  assert (Hsame : ∀ g1 g2, canvas_sized g1 → canvas_sized g2 → same_settings gl g1 →
            same_settings gl g2 →
            load_cells (rgb24_surface img) g2 = load_cells (rgb24_surface img) g1).
  { intros g1 g2 Hs1 Hs2 Hset1 Hset2.
    pose proof Hset1 as (HX1 & HY1 & _ & HP1 & _).
    pose proof Hset2 as (HX2 & HY2 & _ & HP2 & _).
    destruct (load_cells_spec (rgb24_surface img) g1 ltac:(lia) ltac:(lia) Hs1)
      as (Hl1 & Hsz1 & _ & Hget1).
    destruct (load_cells_spec (rgb24_surface img) g2 ltac:(lia) ltac:(lia) Hs2)
      as (Hl2 & Hsz2 & _ & Hget2).
    pose proof Hl1 as (HX1' & HY1' & _). pose proof Hl2 as (HX2' & HY2' & _).
    apply globals_eq.
    - pose proof (same_settings_trans _ _ _ Hset1 Hl1) as (? & ? & ? & ? & ? & ?).
      pose proof (same_settings_trans _ _ _ Hset2 Hl2) as (? & ? & ? & ? & ? & ?).
      unfold same_settings. repeat split; congruence.
    - apply canvas_ext; try assumption; try lia.
      intros cx cy Hcx Hcy.
      rewrite Hget1, Hget2 by lia. congruence. }
  split.
  - apply Hsame; try assumption. apply same_settings_refl.
  - f_equal. destruct (load_cells_spec (rgb24_surface img) gl ltac:(lia) ltac:(lia) Hs)
      as (Hl & Hsz & _).
    apply Hsame; try assumption. apply same_settings_refl.
Qed.

Lemma load_overwrites_witness :
  let files : gmap string File :=
    {[ "dot.bmp" := BmpFile (mkImage 1 1 [mkColor 250 10 10 255]) ]} in
  let gl := globals (sample_state []) in
  let gl0 := canvas_store gl 3 5 in
  (load_bmp_to_canvas env_big files "dot.bmp" gl0).2
  = (load_bmp_to_canvas env_big files "dot.bmp" gl).2.
Proof.
  intros files gl gl0.
  refine (proj1 (proj2 (load_overwrites env_big files "dot.bmp" gl gl0
                          (reachable_ok env_big (sample_state [])
                             (sample_state_reachable env_big [] eq_refl)) _ _) _)).
  - repeat split.
  - exists [0; 0; 0; 5]. split; reflexivity.
  - reflexivity.
Defined.

(** ** Export, then import, from the keyboard *)




